(** * The 8-puzzle A* solver of [src/8-puzzle/main.py]

    A shallow embedding of the solver (board states, search nodes, the
    candidate queue, the history map and the [go] loop) followed by the
    properties of its specification. *)

From stdpp Require Import base numbers list strings gmap sorting.
From Stdlib Require Import ZArith Lia.

Local Open Scope Z_scope.

(** ** Python values and exceptions *)

(** The two exceptions the program can raise: [IndexError] from list
    indexing and the [Exception] raised by [__find_empty]. *)
Inductive exn : Type :=
  | IndexError
  | Exception (msg : string).

Inductive result (A : Type) : Type :=
  | Ok (a : A)
  | Raise (e : exn).
Arguments Ok {A} a.
Arguments Raise {A} e.

#[global] Instance result_ret : MRet result := fun A a => Ok a.
#[global] Instance result_bind : MBind result := fun A B k m =>
  match m with
  | Ok a => k a
  | Raise e => Raise e
  end.

(** Monadic left fold: a [for] loop over [l] threading an accumulator. *)
Fixpoint foldM {A B : Type} (body : B → A → result B) (l : list A) (acc : B)
  : result B :=
  match l with
  | [] => Ok acc
  | x :: l' => acc' ← body acc x; foldM body l' acc'
  end.

(** A list comprehension whose element expression may raise. *)
Fixpoint forM {A B : Type} (body : A → result B) (l : list A)
  : result (list B) :=
  match l with
  | [] => Ok []
  | x :: l' => y ← body x; ys ← forM body l'; Ok (y :: ys)
  end.

(** [range(n)]. *)
Definition range (n : Z) : list Z := seqZ 0 n.

(** Python's index normalisation: a negative index counts from the end,
    anything outside [-len, len) raises [IndexError]. *)
Definition norm_index (len : nat) (i : Z) : result nat :=
  let j := if i <? 0 then i + Z.of_nat len else i in
  if (0 <=? j) && (j <? Z.of_nat len) then Ok (Z.to_nat j) else Raise IndexError.

(** [l[i]]. *)
Definition getitem {A : Type} (l : list A) (i : Z) : result A :=
  k ← norm_index (length l) i;
  match l !! k with
  | Some x => Ok x
  | None => Raise IndexError
  end.

(** [l[i] = x]. *)
Definition setitem {A : Type} (l : list A) (i : Z) (x : A) : result (list A) :=
  k ← norm_index (length l) i;
  Ok (<[k:=x]> l).

(** ** Module constants and types *)

Definition DIMENSION : Z := 3.

Definition EMPTY : string := "0".

Definition Point : Type := Z * Z.

Abbreviation State := (list (list string)).

Definition DEBUG_START_STATE : State :=
  [["2"; "1"; "3"]; [EMPTY; "8"; "4"]; ["6"; "7"; "5"]]%string.

Definition DEBUG_TARGET_STATE : State :=
  [["1"; "2"; "3"]; ["8"; EMPTY; "4"]; ["7"; "6"; "5"]]%string.

(** [state[p[0]][p[1]]]. *)
Definition getitem2 (state : State) (p : Point) : result string :=
  line ← getitem state p.1;
  getitem line p.2.

(** [state[p[0]][p[1]] = x], on a state whose rows are distinct objects:
    the row is fetched, updated in place, and stays where it was. *)
Definition setitem2 (state : State) (p : Point) (x : string) : result State :=
  line ← getitem state p.1;
  line' ← setitem line p.2 x;
  setitem state p.1 line'.

(** ** class Node *)

#[warnings="-register-all"]
Inductive Node : Type := mkNode {
  Node_state : State;
  Node_target : State;
  Node_parent : option Node;
  Node_g : Z;
  Node_h : Z;
  Node_f : Z
}.

(** [__get_g]: the depth of the node. *)
Definition Node_get_g (parent : option Node) : Z :=
  match parent with
  | None => 0
  | Some p => Node_g p + 1
  end.

(** The test [target[i][j] not in (state[i][j], EMPTY)]. *)
Definition misplaced (state target : State) (i j : Z) : result bool :=
  t ← getitem2 target (i, j);
  s ← getitem2 state (i, j);
  Ok (negb (String.eqb t s || String.eqb t EMPTY)).

(** [__get_h]: the number of incorrectly placed tiles. *)
Definition Node_get_h (state target : State) : result Z :=
  foldM (fun count i =>
    foldM (fun count j =>
      b ← misplaced state target i j;
      Ok (if b : bool then count + 1 else count))
      (range DIMENSION) count)
    (range DIMENSION) 0.

(** [__init__]. *)
Definition Node_init (state target : State) (parent : option Node)
  : result Node :=
  let g := Node_get_g parent in
  h ← Node_get_h state target;
  Ok (mkNode state target parent g h (g + h)).

Definition newline : string := String (Ascii.ascii_of_nat 10) EmptyString.

(** [__str__]. *)
Definition Node_str (self : Node) : string :=
  String.concat newline
    (map (fun line =>
            String.concat " "
              (map (fun tile => if String.eqb tile EMPTY then " "%string else tile)
                   line))
         (Node_state self)).

(** [__repr__]: the key of the history map. *)
Definition repr_of (state : State) : string :=
  String.concat "" (map (String.concat "") state).

Definition Node_repr (self : Node) : string := repr_of (Node_state self).

(** [__lt__] and [__gt__]. *)
Definition Node_lt (self next : Node) : bool := Node_f self <? Node_f next.
Definition Node_gt (self next : Node) : bool := Node_f self >? Node_f next.

(** The inner loop of [__find_empty]: the first column holding [EMPTY]. *)
Fixpoint find_in_line (line : list string) (column_index : Z) : option Z :=
  match line with
  | [] => None
  | tile :: rest =>
      if String.eqb tile EMPTY then Some column_index
      else find_in_line rest (column_index + 1)
  end.

(** The outer loop of [__find_empty]. *)
Fixpoint find_in_lines (lines : State) (line_index : Z) : option Point :=
  match lines with
  | [] => None
  | line :: rest =>
      match find_in_line line 0 with
      | Some column_index => Some (line_index, column_index)
      | None => find_in_lines rest (line_index + 1)
      end
  end.

Definition empty_tile_not_found : exn := Exception "Empty tile is not found".

(** [__find_empty]. *)
Definition Node_find_empty (self : Node) : result Point :=
  match find_in_lines (Node_state self) 0 with
  | Some p => Ok p
  | None => Raise empty_tile_not_found
  end.

(** The predicate of the [filter] in [__get_next_empties]. *)
Definition on_board (point : Point) : bool :=
  (0 <=? point.1) && (point.1 <=? DIMENSION - 1)
  && ((0 <=? point.2) && (point.2 <=? DIMENSION - 1)).

(** [__get_next_empties]. *)
Definition Node_get_next_empties (current_empty : Point) : list Point :=
  List.filter on_board
    [ (current_empty.1 + 1, current_empty.2);
      (current_empty.1 - 1, current_empty.2);
      (current_empty.1, current_empty.2 + 1);
      (current_empty.1, current_empty.2 - 1) ].

(** [__get_next_state], on values: [deepcopy] yields a state equal to the
    original, the right-hand tuple is evaluated first, then the two cells
    are assigned from left to right. *)
Definition get_next_state (state : State) (current_empty next_empty : Point)
  : result State :=
  let next_state := state in
  a ← getitem2 next_state current_empty;
  b ← getitem2 next_state next_empty;
  next_state ← setitem2 next_state next_empty a;
  setitem2 next_state current_empty b.

Definition Node_get_next_state (self : Node) (current_empty next_empty : Point)
  : result State :=
  get_next_state (Node_state self) current_empty next_empty.

(** [create_children]. *)
Definition Node_create_children (self : Node) : result (list Node) :=
  empty ← Node_find_empty self;
  let next_empties := Node_get_next_empties empty in
  forM (fun next =>
          s ← Node_get_next_state self empty next;
          Node_init s (Node_target self) (Some self))
       next_empties.

(** [is_target]. *)
Definition Node_is_target (self : Node) : bool := Node_h self =? 0.

(** [print_branch]: the lines written to standard output, one entry per
    [print] call, root first. *)
Fixpoint Node_print_branch (self : Node) : list string :=
  match self with
  | mkNode _ _ parent _ _ _ =>
      match parent with
      | Some p => Node_print_branch p
      | None => []
      end ++ [(Node_str self +:+ newline +:+ newline)%string]
  end.

(** ** class CandidateQueue *)

Section Sort.
Context {A : Type} (lt : A → A → bool).

(** Insertion of [x] in front of a sorted list: [x] passes exactly the
    elements that are strictly smaller than it. *)
Fixpoint sort_insert (x : A) (l : list A) : list A :=
  match l with
  | [] => [x]
  | y :: l' => if lt y x then y :: sort_insert x l' else x :: y :: l'
  end.

(** [list.sort()]: a stable sort that compares elements with [<] only. *)
Fixpoint list_sort (l : list A) : list A :=
  match l with
  | [] => []
  | x :: l' => sort_insert x (list_sort l')
  end.

(** [push] on the underlying list: [extend] or [append], then [sort]. *)
Definition queue_push (arg : A + list A) (queue : list A) : list A :=
  list_sort
    match arg with
    | inr nodes => queue ++ nodes
    | inl node => queue ++ [node]
    end.

(** [pop(0)]: [None] stands for the [IndexError] on an empty list. *)
Definition queue_pop (queue : list A) : option (A * list A) :=
  match queue with
  | [] => None
  | x :: rest => Some (x, rest)
  end.
End Sort.

Abbreviation CandidateQueue := (list Node).

Definition CandidateQueue_init (nodes : list Node) : CandidateQueue := nodes.

Definition CandidateQueue_push (node : Node + list Node)
  (self : CandidateQueue) : CandidateQueue :=
  queue_push Node_lt node self.

Definition CandidateQueue_pop (self : CandidateQueue)
  : result (Node * CandidateQueue) :=
  match queue_pop self with
  | Some r => Ok r
  | None => Raise IndexError
  end.

Definition CandidateQueue_is_empty (self : CandidateQueue) : bool :=
  (length self =? 0)%nat.

(** ** class HistoryMap *)

Definition HistoryMap_init : gmap string Node := ∅.

Definition HistoryMap_add (node : Node) (self : gmap string Node)
  : gmap string Node :=
  <[Node_repr node := node]> self.

Definition HistoryMap_contains (node : Node) (self : gmap string Node) : bool :=
  bool_decide (is_Some (self !! Node_repr node)).

(** ** go *)

(** What a call of [go] ends with: a returned value together with what was
    printed, or an exception. *)
Inductive outcome : Type :=
  | Return (printed : list string) (value : Z)
  | Raised (e : exn).

(** What one evaluation of the loop condition and body does. *)
Inductive step : Type :=
  | Stop (o : outcome)
  | Continue (candidates : CandidateQueue) (history : gmap string Node).

Definition go_step (candidates : CandidateQueue) (history : gmap string Node)
  : step :=
  if CandidateQueue_is_empty candidates then Stop (Return [] (-1))
  else
    match CandidateQueue_pop candidates with
    | Raise e => Stop (Raised e)
    | Ok (candidate, candidates) =>
        if Node_is_target candidate then
          Stop (Return (Node_print_branch candidate) (Node_f candidate))
        else if HistoryMap_contains candidate history then
          Continue candidates history
        else
          match Node_create_children candidate with
          | Raise e => Stop (Raised e)
          | Ok children =>
              Continue (CandidateQueue_push (inr children) candidates)
                       (HistoryMap_add candidate history)
          end
    end.

(** The [while] loop, bounded by [fuel] iterations; [None] when the bound
    is hit before the loop is left. *)
Fixpoint go_loop (fuel : nat) (candidates : CandidateQueue)
  (history : gmap string Node) : option outcome :=
  match fuel with
  | O => None
  | S fuel' =>
      match go_step candidates history with
      | Stop o => Some o
      | Continue candidates' history' => go_loop fuel' candidates' history'
      end
  end.

Definition go (fuel : nat) (start_state target_state : State)
  : option outcome :=
  match Node_init start_state target_state None with
  | Raise e => Some (Raised e)
  | Ok root => go_loop fuel (CandidateQueue_init [root]) HistoryMap_init
  end.

(** ** [__get_next_state] on the object store

    Lists are mutable objects; a state is a list object whose items refer
    to row objects. The store is the list of all objects allocated so far
    and a reference is an index into it. *)

Abbreviation ref := nat (only parsing).

Inductive object : Type :=
  | Row (tiles : list string)
  | Rows (lines : list ref).

Abbreviation store := (list object).

Definition alloc (h : store) (o : object) : store * ref :=
  (h ++ [o], length h).

Definition tiles_at (h : store) (r : ref) : list string :=
  match h !! r with
  | Some (Row tiles) => tiles
  | _ => []
  end.

Definition lines_at (h : store) (r : ref) : list ref :=
  match h !! r with
  | Some (Rows lines) => lines
  | _ => []
  end.

(** The memo of [deepcopy]: the copy made for an object already seen. *)
Fixpoint memo_get (memo : list (ref * ref)) (r : ref) : option ref :=
  match memo with
  | [] => None
  | (r0, c) :: memo' => if decide (r0 = r) then Some c else memo_get memo' r
  end.

(** [deepcopy] of the items of a list of rows: a row met for the first time
    is copied into a new object, a row met again is replaced by the copy
    already made (strings are immutable and shared). *)
Fixpoint deepcopy_lines (h : store) (memo : list (ref * ref)) (lines : list ref)
  : store * list ref :=
  match lines with
  | [] => (h, [])
  | r :: lines' =>
      match memo_get memo r with
      | Some c =>
          let '(h', cs) := deepcopy_lines h memo lines' in (h', c :: cs)
      | None =>
          let '(h1, c) := alloc h (Row (tiles_at h r)) in
          let '(h', cs) := deepcopy_lines h1 ((r, c) :: memo) lines' in
          (h', c :: cs)
      end
  end.

(** [deepcopy(state)]. *)
Definition deepcopy (h : store) (state : ref) : store * ref :=
  let '(h', lines') := deepcopy_lines h [] (lines_at h state) in
  alloc h' (Rows lines').

(** [state[p[0]][p[1]]] through the store. *)
Definition load2 (h : store) (state : ref) (p : Point) : result string :=
  line ← getitem (lines_at h state) p.1;
  getitem (tiles_at h line) p.2.

(** [state[p[0]][p[1]] = x] through the store: the row object is updated
    in place. *)
Definition store2 (h : store) (state : ref) (p : Point) (x : string)
  : result store :=
  line ← getitem (lines_at h state) p.1;
  tiles ← setitem (tiles_at h line) p.2 x;
  Ok (<[line := Row tiles]> h).

(** [__get_next_state] through the store; it returns the new store and the
    reference to the new state. *)
Definition get_next_state_in (h : store) (state : ref)
  (current_empty next_empty : Point) : result (store * ref) :=
  let '(h, next_state) := deepcopy h state in
  a ← load2 h next_state current_empty;
  b ← load2 h next_state next_empty;
  h ← store2 h next_state next_empty a;
  h ← store2 h next_state current_empty b;
  Ok (h, next_state).

(** The object [r] of the store [h] represents the board [s]: its rows are
    distinct row objects holding the lines of [s]. *)
Definition represents (h : store) (r : ref) (s : State) : Prop :=
  ∃ lines, h !! r = Some (Rows lines) ∧ NoDup lines
           ∧ Forall2 (λ l line, h !! l = Some (Row line)) lines s.

(** The store after the copy of the board [s] has been made in [h] and
    has become [s']. *)
Definition copied (h : store) (s' : State) : store :=
  h ++ map Row s' ++ [Rows (seq (length h) (length s'))].

(** ** The specification's vocabulary *)

(** The cell in row [i], column [j], counted from the upper left corner. *)
Definition cell (s : State) (i j : nat) : option string :=
  s !! i ≫= (.!! j).

(** A board of [DIMENSION] rows of [DIMENSION] labels. *)
Definition square (s : State) : Prop :=
  length s = Z.to_nat DIMENSION
  ∧ Forall (λ line, length line = Z.to_nat DIMENSION) s.

(** The Configuration invariant: a square board of distinct
    single-character labels, one of which is the empty label. *)
Record Configuration (s : State) : Prop := {
  cfg_square : square s;
  cfg_chars : Forall (λ tile, String.length tile = 1%nat) (concat s);
  cfg_distinct : NoDup (concat s);
  cfg_empty : EMPTY ∈ concat s
}.

(** The two boards carry the same labels. *)
Definition same_labels (s t : State) : Prop := concat s ≡ₚ concat t.

(** [p] comes before [q] in row-major order. *)
Definition row_major_lt (p q : nat * nat) : Prop :=
  (p.1 < q.1 ∨ (p.1 = q.1 ∧ p.2 < q.2))%nat.

(** Two positions are orthogonal neighbours. *)
Definition adjacent (p q : Point) : Prop :=
  Z.abs (p.1 - q.1) + Z.abs (p.2 - q.2) = 1.

Definition within_board (p : Point) : Prop :=
  0 ≤ p.1 ≤ DIMENSION - 1 ∧ 0 ≤ p.2 ≤ DIMENSION - 1.

Definition point_of (ij : nat * nat) : Point := (Z.of_nat ij.1, Z.of_nat ij.2).

(** The board [s] with the cell in row [i], column [j] replaced by [x]. *)
Definition set_cell (s : State) (i j : nat) (x : string) : State :=
  match s !! i with
  | Some line => <[i := <[j := x]> line]> s
  | None => s
  end.

(** The board [s] with the cells at [p] and [q] exchanged. *)
Definition swap_cells (s : State) (p q : nat * nat) : State :=
  match cell s p.1 p.2, cell s q.1 q.2 with
  | Some a, Some b => set_cell (set_cell s q.1 q.2 a) p.1 p.2 b
  | _, _ => s
  end.

(** ** The heuristic, as the specification words it *)

(** The positions of the board, in row-major order. *)
Definition board_positions : list (nat * nat) :=
  list_prod (seq 0 (Z.to_nat DIMENSION)) (seq 0 (Z.to_nat DIMENSION)).

(** The target's label at [ij] is not the empty label and the state's label
    there differs from it. *)
Definition misplaced_at (s t : State) (ij : nat * nat) : Prop :=
  cell t ij.1 ij.2 ≠ Some EMPTY ∧ cell s ij.1 ij.2 ≠ cell t ij.1 ij.2.

#[global] Instance misplaced_at_dec (s t : State) (ij : nat * nat) :
  Decision (misplaced_at s t ij).
Proof. unfold misplaced_at. apply _. Defined.

(** The number of misplaced tiles. *)
Definition misplaced_count (s t : State) : nat :=
  length (filter (misplaced_at s t) board_positions).

(** The state agrees with the target wherever the target is not empty. *)
Definition matches_target (s t : State) : Prop :=
  ∀ i j : nat, (i < Z.to_nat DIMENSION)%nat → (j < Z.to_nat DIMENSION)%nat →
    cell t i j ≠ Some EMPTY → cell s i j = cell t i j.

(** ** The move graph *)

Definition nat_of_point (p : Point) : nat * nat := (Z.to_nat p.1, Z.to_nat p.2).

(** One move: the empty cell at [p] and the tile on an orthogonal neighbour
    [q] on the board change places. *)
Definition slide (s s' : State) : Prop :=
  ∃ p q : nat * nat,
    cell s p.1 p.2 = Some EMPTY
    ∧ adjacent (point_of p) (point_of q)
    ∧ within_board (point_of q)
    ∧ s' = swap_cells s p q.

(** [target] can be reached from [start]. *)
Definition reachable (start target : State) : Prop :=
  ∃ n, nsteps slide n start target.

(** [d] is the length of a shortest sequence of moves from [start] to
    [target]. *)
Definition shortest (start target : State) (d : nat) : Prop :=
  nsteps slide d start target ∧ ∀ n, nsteps slide n start target → (d ≤ n)%nat.

(** The number of predecessor links from a node up to its root. *)
Fixpoint Node_depth (self : Node) : nat :=
  match self with
  | mkNode _ _ parent _ _ _ =>
      match parent with
      | Some p => S (Node_depth p)
      | None => 0%nat
      end
  end.

(** The nodes a run of [go] can construct: the root, and the children that
    [create_children] makes of a constructed node. *)
Inductive built (start target : State) : Node → Prop :=
  | built_root root :
      Node_init start target None = Ok root → built start target root
  | built_child parent children child :
      built start target parent →
      Node_create_children parent = Ok children →
      child ∈ children →
      built start target child.

(** The child that [create_children] makes of [self] when the empty cell
    is at [p] and moves to [next]. *)
Definition child_at (self : Node) (p : nat * nat) (next : Point) : Node :=
  let s := swap_cells (Node_state self) p (nat_of_point next) in
  let h := Z.of_nat (misplaced_count s (Node_target self)) in
  mkNode s (Node_target self) (Some self) (Node_g self + 1) h
         (Node_g self + 1 + h).

(** ** Permutation parity *)

(** The number of pairs of a list that are out of order for [key]. *)
Fixpoint inversions {A : Type} (key : A → nat) (l : list A) : nat :=
  match l with
  | [] => 0%nat
  | x :: l' =>
      (length (filter (λ y, (key y < key x)%nat) l') + inversions key l')%nat
  end.

(** The tiles of a board in row-major order, the empty cell left out. *)
Definition tiles (s : State) : list string :=
  filter (λ tile, tile ≠ EMPTY) (concat s).

Fixpoint index_of (x : string) (l : list string) : nat :=
  match l with
  | [] => 0%nat
  | y :: l' => if decide (y = x) then 0%nat else S (index_of x l')
  end.

(** The rank of a label: its place in the target. *)
Definition label_rank (target : State) (x : string) : nat :=
  index_of x (concat target).

(** The parity of the order of the tiles of [s], the target's order taken
    as the reference. *)
Definition parity_class (target s : State) : bool :=
  Nat.odd (inversions (label_rank target) (tiles s)).

(** [start] and [target] are in different permutation parity classes. *)
Definition different_parity (start target : State) : Prop :=
  parity_class target start ≠ parity_class target target.

(** ** Sequences of queue operations *)

Inductive queue_op : Type :=
  | Push (node : Node + list Node)
  | Pop.

(** The queue after a sequence of operations; a [pop] of the empty queue
    raises and leaves it empty. *)
Fixpoint CandidateQueue_run (ops : list queue_op) (self : CandidateQueue)
  : CandidateQueue :=
  match ops with
  | [] => self
  | Push node :: ops' => CandidateQueue_run ops' (CandidateQueue_push node self)
  | Pop :: ops' =>
      CandidateQueue_run ops'
        match CandidateQueue_pop self with
        | Ok (_, rest) => rest
        | Raise _ => self
        end
  end.

(** The nodes a [push] adds, in the order in which it adds them. *)
Definition pushed_nodes (node : Node + list Node) : list Node :=
  match node with
  | inl n => [n]
  | inr nodes => nodes
  end.

(** The same run with every node tagged by its insertion time: the
    [clock] counts the nodes inserted so far. The tags are not looked at by
    the queue; they only name the order of insertion. *)
Definition stamp_from (clock : nat) (nodes : list Node) : list (nat * Node) :=
  zip (seq clock (length nodes)) nodes.

Definition stamped_lt (x y : nat * Node) : bool := Node_lt x.2 y.2.

Fixpoint stamped_run (ops : list queue_op) (clock : nat)
  (queue : list (nat * Node)) : list (nat * Node) :=
  match ops with
  | [] => queue
  | Push node :: ops' =>
      stamped_run ops' (clock + length (pushed_nodes node))
        (queue_push stamped_lt (inr (stamp_from clock (pushed_nodes node))) queue)
  | Pop :: ops' =>
      stamped_run ops' clock
        match queue_pop queue with
        | Some (_, rest) => rest
        | None => queue
        end
  end.

(** The order of the queue: by [f], then by insertion time. *)
Definition f_then_time (x y : nat * Node) : Prop :=
  Node_f x.2 < Node_f y.2 ∨ (Node_f x.2 = Node_f y.2 ∧ (x.1 < y.1)%nat).

(** The invariant of the tagged queue: it is ordered by [f] and then by
    insertion time, and every tag is in the past. *)
Definition queue_inv (clock : nat) (queue : list (nat * Node)) : Prop :=
  StronglySorted f_then_time queue ∧ Forall (λ x, (x.1 < clock)%nat) queue.

(** ** The loop of [go], observed *)

(** The state of the loop after [fuel] iterations, when it is still
    running. *)
Fixpoint go_state (fuel : nat) (candidates : CandidateQueue)
  (history : gmap string Node) : option (CandidateQueue * gmap string Node) :=
  match fuel with
  | O => Some (candidates, history)
  | S fuel' =>
      match go_step candidates history with
      | Stop _ => None
      | Continue candidates' history' => go_state fuel' candidates' history'
      end
  end.

(** The node that one iteration hands to [history.add], if any: an
    iteration that goes on without having found its candidate in the
    history has expanded and added it. *)
Definition added_by_step (candidates : CandidateQueue)
  (history : gmap string Node) : list Node :=
  match candidates, go_step candidates history with
  | candidate :: _, Continue _ _ =>
      if HistoryMap_contains candidate history then [] else [candidate]
  | _, _ => []
  end.

(** The nodes handed to [history.add] during the first [fuel] iterations,
    in order. *)
Fixpoint go_added (fuel : nat) (candidates : CandidateQueue)
  (history : gmap string Node) : list Node :=
  match fuel with
  | O => []
  | S fuel' =>
      added_by_step candidates history ++
      match go_step candidates history with
      | Stop _ => []
      | Continue candidates' history' => go_added fuel' candidates' history'
      end
  end.

(** The invariant of the loop of [go start target]. *)
Record go_inv (start target : State) (candidates : CandidateQueue)
  (history : gmap string Node) : Prop := {
  inv_built : ∀ n, n ∈ candidates → built start target n;
  inv_sorted : StronglySorted (λ x y, Node_f x ≤ Node_f y) candidates;
  inv_closed : ∀ k n, history !! k = Some n →
    built start target n ∧ k = Node_repr n ∧ Node_is_target n = false
    ∧ (∀ m, nsteps slide m start (Node_state n) → (Node_depth n ≤ m)%nat)
    ∧ (∀ s', slide (Node_state n) s' →
         is_Some (history !! repr_of s')
         ∨ ∃ c, c ∈ candidates ∧ Node_state c = s'
                ∧ Node_g c = Node_g n + 1);
  inv_start :
    is_Some (history !! repr_of start)
    ∨ ∃ c, c ∈ candidates ∧ Node_state c = start ∧ Node_g c = 0
}.

(** What [go start target] may end with: the failure value when the target
    cannot be reached, or the depth of a node that holds the target, that
    depth being the length of a shortest sequence of moves. *)
Definition go_result (start target : State) (o : outcome) : Prop :=
  (o = Return [] (-1) ∧ ¬ reachable start target)
  ∨ ∃ c, built start target c ∧ Node_is_target c = true
         ∧ o = Return (Node_print_branch c) (Node_g c)
         ∧ Node_state c = target
         ∧ shortest start target (Node_depth c).

(** The number of boards that carry the labels of [start]. *)
Definition boards_bound (start : State) : nat :=
  length (permutations (concat start)).

(** The measure that decreases at every iteration. *)
Definition go_measure (start : State) (candidates : CandidateQueue)
  (history : gmap string Node) : nat :=
  (5 * (boards_bound start - size history) + length candidates)%nat.

(** What holds of the queue and of the history in any run, whatever the
    boards: the nodes are the run's own, and a node of the history is
    filed under its key and did not match the target. *)
Definition run_inv (start target : State) (candidates : CandidateQueue)
  (history : gmap string Node) : Prop :=
  (∀ n, n ∈ candidates → built start target n)
  ∧ (∀ k n, history !! k = Some n →
       k = Node_repr n ∧ built start target n ∧ Node_is_target n = false).

(** ** Boards used as examples *)

(** [DEBUG_START_STATE] after its empty cell has moved up. *)
Definition one_move_away : State :=
  [[EMPTY; "1"; "3"]; ["2"; "8"; "4"]; ["6"; "7"; "5"]]%string.

(** [DEBUG_TARGET_STATE] with the tiles 1 and 2 exchanged. *)
Definition two_tiles_swapped : State :=
  [["2"; "1"; "3"]; ["8"; EMPTY; "4"]; ["7"; "6"; "5"]]%string.


(** ** Further vocabulary *)

(** The board holds a label in each of the [DIMENSION] times [DIMENSION]
    cells of its upper left corner. *)
Definition covers (s : State) : Prop :=
  ∀ i j : nat, (i < Z.to_nat DIMENSION)%nat → (j < Z.to_nat DIMENSION)%nat →
    is_Some (cell s i j).

(** The nodes that [print_branch] visits: the predecessors of the node,
    root first, then the node itself. *)
Fixpoint Node_branch (self : Node) : list Node :=
  match self with
  | mkNode _ _ parent _ _ _ =>
      match parent with
      | Some p => Node_branch p
      | None => []
      end ++ [self]
  end.

(** What [print_branch] writes for one node. *)
Definition printed_board (self : Node) : string :=
  (Node_str self +:+ newline +:+ newline)%string.

(** A board without an empty cell. *)
Definition no_empty_cell : State :=
  [["1"; "2"; "3"]; ["4"; "5"; "6"]; ["7"; "8"; "9"]]%string.

(** The history after the given nodes have been added, first to last. *)
Definition HistoryMap_add_all (nodes : list Node) (self : gmap string Node)
  : gmap string Node :=
  foldl (λ history node, HistoryMap_add node history) self nodes.

(** The nodes returned by the [pop]s of a sequence of queue operations, in
    order; a [pop] of the empty queue returns none. *)
Fixpoint CandidateQueue_popped (ops : list queue_op) (self : CandidateQueue)
  : list Node :=
  match ops with
  | [] => []
  | Push node :: ops' =>
      CandidateQueue_popped ops' (CandidateQueue_push node self)
  | Pop :: ops' =>
      match CandidateQueue_pop self with
      | Ok (node, rest) => node :: CandidateQueue_popped ops' rest
      | Raise _ => CandidateQueue_popped ops' self
      end
  end.

(** The nodes handed to the [push]es of a sequence of queue operations. *)
Fixpoint CandidateQueue_pushed (ops : list queue_op) : list Node :=
  match ops with
  | [] => []
  | Push node :: ops' => pushed_nodes node ++ CandidateQueue_pushed ops'
  | Pop :: ops' => CandidateQueue_pushed ops'
  end.

(** The candidates popped by the first [fuel] iterations of the loop of
    [go], in order. *)
Fixpoint go_popped (fuel : nat) (candidates : CandidateQueue)
  (history : gmap string Node) : list Node :=
  match fuel with
  | O => []
  | S fuel' =>
      match CandidateQueue_pop candidates with
      | Ok (candidate, _) => [candidate]
      | Raise _ => []
      end ++
      match go_step candidates history with
      | Stop _ => []
      | Continue candidates' history' => go_popped fuel' candidates' history'
      end
  end.

(** ** [read_state] *)

(** The characters [" "] and ["0"]. *)
Definition blank : Ascii.ascii := Eval cbv in Ascii.ascii_of_nat 32.
Definition zero_digit : Ascii.ascii := Eval cbv in Ascii.ascii_of_nat 48.

(** The console: the lines still to be read from standard input, without
    their line ends, and the texts written to standard output so far.
    Characters are those of [ascii]. *)
Record console : Type := mkConsole {
  stdin : list string;
  stdout : list string
}.

(** [input(prompt)]: the prompt is written, then a line is read; [None]
    stands for the [EOFError] at the end of the input. *)
Definition input (prompt : string) (io : console) : option string * console :=
  let io' := mkConsole (tail (stdin io)) (stdout io ++ [prompt]) in
  (head (stdin io), io').

(** [line.replace(" ", "")]. *)
Fixpoint remove_spaces (line : string) : string :=
  match line with
  | EmptyString => EmptyString
  | String c rest =>
      if Ascii.eqb c blank then remove_spaces rest
      else String c (remove_spaces rest)
  end.

(** [list(text)]: the characters of [text], each as a string. *)
Fixpoint list_of_str (text : string) : list string :=
  match text with
  | EmptyString => []
  | String c rest => String c EmptyString :: list_of_str rest
  end.

(** The body of the comprehension of [read_state]. *)
Definition read_row (line : string) : list string :=
  take (Z.to_nat DIMENSION) (list_of_str (remove_spaces line)).

(** The comprehension [[... for _ in range(n)]] of [read_state]. *)
Fixpoint read_rows (n : nat) (io : console) : option State * console :=
  match n with
  | O => (Some [], io)
  | S n' =>
      match input ">>> " io with
      | (None, io') => (None, io')
      | (Some line, io') =>
          match read_rows n' io' with
          | (None, io'') => (None, io'')
          | (Some rows, io'') => (Some (read_row line :: rows), io'')
          end
      end
  end.

Definition read_state (io : console) : option State * console :=
  read_rows (Z.to_nat DIMENSION) io.

(** The character that [__str__] shows for a one-character label. *)
Definition shown (c : Ascii.ascii) : Ascii.ascii :=
  if Ascii.eqb c zero_digit then blank else c.

(** ** The program *)

From stdpp Require Import pretty.
Local Open Scope Z_scope.

Definition DEBUG : bool := true.

(** [print(text)]. *)
Definition print (text : string) (io : console) : console :=
  mkConsole (stdin io) (stdout io ++ [(text +:+ newline)%string]).

(** How the program ends: it runs to its last statement, [input] fails at
    the end of the input, or an exception of [go] is not caught. *)
Inductive ending : Type :=
  | Finished (io : console)
  | EOFError (io : console)
  | Uncaught (e : exn) (io : console).

(** The statements under [if __name__ == "__main__"], with the flag
    [DEBUG] as a parameter; [None] when [go] needs more than [fuel]
    iterations. *)
Definition main_with (debug : bool) (fuel : nat) (io : console)
  : option ending :=
  let io := print (newline +:+ "Enter initial state:") io in
  match (if debug then (Some DEBUG_START_STATE, io) else read_state io) with
  | (None, io) => Some (EOFError io)
  | (Some start_state, io) =>
      let io := print (newline +:+ "Enter target state:") io in
      match (if debug then (Some DEBUG_TARGET_STATE, io) else read_state io) with
      | (None, io) => Some (EOFError io)
      | (Some target_state, io) =>
          let io := print "" io in
          match go fuel start_state target_state with
          | None => None
          | Some (Raised e) => Some (Uncaught e io)
          | Some (Return printed steps) =>
              let io := mkConsole (stdin io) (stdout io ++ printed) in
              Some (Finished
                      (print (if steps =? -1 then "Fail to find a solution."
                              else "Solved in " +:+ pretty steps
                                   +:+ " step(s).") io))
          end
      end
  end.

Definition main : nat → console → option ending := main_with DEBUG.
(** ** Indexing lemmas *)

(** Equalities between (optional) points, by arithmetic on the coordinates. *)
Ltac zpair :=
  try apply (f_equal Some); try apply (f_equal Ok);
  try apply (f_equal2 pair); lia.


Lemma norm_index_nat (len k : nat) :
  (k < len)%nat → norm_index len (Z.of_nat k) = Ok k.
Proof.
  intros Hk. unfold norm_index.
  destruct (Z.ltb_spec (Z.of_nat k) 0) as [?|_]; [lia|].
  destruct (Z.leb_spec 0 (Z.of_nat k)); [|lia].
  destruct (Z.ltb_spec (Z.of_nat k) (Z.of_nat len)); [|lia].
  simpl. by rewrite Nat2Z.id.
Qed.

Lemma norm_index_Ok (len : nat) (i : Z) (k : nat) :
  norm_index len i = Ok k → (k < len)%nat.
Proof.
  unfold norm_index. intros H.
  destruct (_ && _) eqn:E; [|done].
  apply andb_prop in E as [E1 E2].
  apply Z.leb_le in E1. apply Z.ltb_lt in E2.
  injection H as <-. lia.
Qed.

Lemma getitem_nat {A} (l : list A) (k : nat) (x : A) :
  l !! k = Some x → getitem l (Z.of_nat k) = Ok x.
Proof.
  intros H. unfold getitem.
  rewrite norm_index_nat by (by eapply lookup_lt_Some).
  simpl. by rewrite H.
Qed.

Lemma setitem_nat {A} (l : list A) (k : nat) (x : A) :
  (k < length l)%nat → setitem l (Z.of_nat k) x = Ok (<[k:=x]> l).
Proof.
  intros H. unfold setitem. by rewrite norm_index_nat.
Qed.

Lemma cell_Some (s : State) (i j : nat) (x : string) :
  cell s i j = Some x ↔ ∃ line, s !! i = Some line ∧ line !! j = Some x.
Proof.
  unfold cell. destruct (s !! i) as [line|]; simpl.
  - split; [by exists line|]. by intros (? & [= <-] & ?).
  - split; [done|]. by intros (? & ? & _).
Qed.

Lemma getitem2_cell (s : State) (i j : nat) (x : string) :
  cell s i j = Some x → getitem2 s (point_of (i, j)) = Ok x.
Proof.
  intros (line & Hi & Hj)%cell_Some. unfold getitem2. simpl.
  rewrite (getitem_nat _ _ _ Hi). simpl. by apply getitem_nat.
Qed.

(** ** [__find_empty] *)

Lemma find_in_line_Some (line : list string) (k c : Z) :
  find_in_line line k = Some c ↔
  ∃ j : nat, c = k + Z.of_nat j ∧ line !! j = Some EMPTY
             ∧ ∀ j' : nat, (j' < j)%nat → line !! j' ≠ Some EMPTY.
Proof.
  revert k. induction line as [|tile rest IH]; intros k; simpl.
  - split; [done|]. by intros (j & _ & ? & _).
  - destruct (String.eqb_spec tile EMPTY) as [->|Hne].
    + split.
      * intros [= <-]. exists 0%nat. split_and!; [lia|done|lia].
      * intros (j & -> & Hj & Hmin). destruct j as [|j]; [zpair|].
        exfalso. by apply (Hmin 0%nat); [lia|].
    + rewrite IH. split.
      * intros (j & -> & Hj & Hmin). exists (S j). split_and!; [lia|done|].
        intros [|j'] ?; simpl; [congruence|]. apply Hmin. lia.
      * intros (j & -> & Hj & Hmin). destruct j as [|j]; [simpl in Hj; congruence|].
        exists j. split_and!; [lia|done|].
        intros j' ?. apply (Hmin (S j')). lia.
Qed.

Lemma find_in_line_None (line : list string) (k : Z) :
  find_in_line line k = None ↔ EMPTY ∉ line.
Proof.
  revert k. induction line as [|tile rest IH]; intros k; simpl.
  - split; [|done]. intros _. apply not_elem_of_nil.
  - destruct (String.eqb_spec tile EMPTY) as [->|Hne].
    + split; [done|]. intros []. left.
    + rewrite IH, not_elem_of_cons. split; [by split|by intros [_ ?]].
Qed.

Lemma find_in_lines_Some (lines : State) (k : Z) (p : Point) :
  find_in_lines lines k = Some p ↔
  ∃ i j : nat, p = (k + Z.of_nat i, Z.of_nat j) ∧ cell lines i j = Some EMPTY
    ∧ ∀ q, row_major_lt q (i, j) → cell lines q.1 q.2 ≠ Some EMPTY.
Proof.
  revert k. induction lines as [|line rest IH]; intros k; simpl.
  - split; [done|]. by intros (i & j & _ & ? & _).
  - destruct (find_in_line line 0) as [c|] eqn:E.
    + apply find_in_line_Some in E as (j & -> & Hj & Hmin). split.
      * intros [= <-]. exists 0%nat, j. split_and!; [zpair|done|].
        intros [i' j'] [Hlt|[-> Hlt]]; simpl in *; [lia|].
        unfold cell. simpl. by apply Hmin.
      * intros (i & j0 & -> & Hc & Hfirst). destruct i as [|i].
        -- unfold cell in Hc. simpl in Hc.
           destruct (Nat.lt_trichotomy j0 j) as [Hlt|[->|Hlt]].
           ++ by apply Hmin in Hlt.
           ++ zpair.
           ++ exfalso. apply (Hfirst (0%nat, j)); [right; simpl; lia|done].
        -- exfalso. apply (Hfirst (0%nat, j)); [left; simpl; lia|done].
    + rewrite IH. apply find_in_line_None in E. split.
      * intros (i & j & -> & Hc & Hfirst). exists (S i), j.
        split_and!; [zpair|done|].
        intros [[|i'] j'] Hlt; simpl in *.
        -- unfold cell. simpl. intros Hin. apply E. by eapply list_elem_of_lookup_2.
        -- apply (Hfirst (i', j')). destruct Hlt as [?|[? ?]]; [left|right]; simpl in *; lia.
      * intros (i & j & -> & Hc & Hfirst). destruct i as [|i].
        -- unfold cell in Hc. simpl in Hc. exfalso. apply E.
           by eapply list_elem_of_lookup_2.
        -- exists i, j. split_and!; [zpair|done|].
           intros [i' j'] Hlt. apply (Hfirst (S i', j')).
           destruct Hlt as [?|[? ?]]; [left|right]; simpl in *; lia.
Qed.

Lemma find_in_lines_None (lines : State) (k : Z) :
  find_in_lines lines k = None ↔ ∀ i j, cell lines i j ≠ Some EMPTY.
Proof.
  revert k. induction lines as [|line rest IH]; intros k; simpl.
  - split; [|done]. by intros _ i j.
  - destruct (find_in_line line 0) as [c|] eqn:E.
    + apply find_in_line_Some in E as (j & -> & Hj & Hmin). split; [done|].
      intros H. exfalso. by apply (H 0%nat j).
    + rewrite IH. apply find_in_line_None in E. split.
      * intros H [|i] j; [|apply H].
        unfold cell. simpl. intros Hin. apply E. by eapply list_elem_of_lookup_2.
      * intros H i j. apply (H (S i) j).
Qed.

Lemma elem_of_concat_cell (s : State) (x : string) :
  x ∈ concat s ↔ ∃ i j, cell s i j = Some x.
Proof.
  rewrite list_elem_of_In, in_concat. split.
  - intros (line & Hi & Hj). apply list_elem_of_In in Hi. apply list_elem_of_In in Hj.
    apply list_elem_of_lookup in Hi as [i Hi], Hj as [j Hj].
    exists i, j. apply cell_Some. eauto.
  - intros (i & j & Hc). apply cell_Some in Hc as (line & Hi & Hj).
    exists line. rewrite <- !list_elem_of_In.
    split; by eapply list_elem_of_lookup_2.
Qed.

(** A board can be checked against the Configuration invariant by
    evaluation. *)
Lemma Configuration_decide (s : State) :
  bool_decide
    ((length s = Z.to_nat DIMENSION
      ∧ Forall (λ line, length line = Z.to_nat DIMENSION) s)
     ∧ Forall (λ tile, String.length tile = 1%nat) (concat s)
     ∧ NoDup (concat s)
     ∧ EMPTY ∈ concat s) = true →
  Configuration s.
Proof.
  intros H. apply bool_decide_eq_true_1 in H.
  destruct H as (? & ? & ? & ?). by constructor.
Qed.

Lemma Configuration_DEBUG_START_STATE : Configuration DEBUG_START_STATE.
Proof. apply Configuration_decide. vm_compute. reflexivity. Qed.

Lemma Configuration_DEBUG_TARGET_STATE : Configuration DEBUG_TARGET_STATE.
Proof. apply Configuration_decide. vm_compute. reflexivity. Qed.

(** C10. [__find_empty] returns the coordinates of the first cell, in
    row-major order, that holds the empty label; it raises its exception
    exactly when no cell holds the empty label, and never does on a board
    that satisfies the Configuration invariant. *)
Theorem find_empty_first_empty_cell (self : Node) :
  (∀ p, Node_find_empty self = Ok p ↔
        ∃ i j : nat,
          p = point_of (i, j) ∧ cell (Node_state self) i j = Some EMPTY
          ∧ ∀ q, row_major_lt q (i, j) →
                 cell (Node_state self) q.1 q.2 ≠ Some EMPTY)
  ∧ (∀ e, Node_find_empty self = Raise e ↔
          e = empty_tile_not_found
          ∧ ∀ i j, cell (Node_state self) i j ≠ Some EMPTY)
  ∧ (Configuration (Node_state self) → ∃ p, Node_find_empty self = Ok p).
Proof.
  unfold Node_find_empty. split_and!.
  - intros p. destruct (find_in_lines _ 0) as [p'|] eqn:E.
    + split.
      * intros [= <-]. apply find_in_lines_Some in E as (i & j & -> & ? & ?).
        exists i, j. split_and!; [unfold point_of; simpl; zpair|done..].
      * intros (i & j & -> & Hc & Hfirst). f_equal.
        apply find_in_lines_Some in E as (i' & j' & -> & Hc' & Hfirst').
        destruct (Nat.lt_trichotomy i i') as [?|[->|?]].
        -- exfalso. apply (Hfirst' (i, j)); [by left|done].
        -- destruct (Nat.lt_trichotomy j j') as [?|[->|?]].
           ++ exfalso. apply (Hfirst' (i', j)); [by right|done].
           ++ unfold point_of; simpl; zpair.
           ++ exfalso. apply (Hfirst (i', j')); [by right|done].
        -- exfalso. apply (Hfirst (i', j')); [by left|done].
    + split; [done|]. intros (i & j & _ & Hc & _).
      exfalso. by eapply find_in_lines_None.
  - intros e. destruct (find_in_lines _ 0) as [p'|] eqn:E.
    + split; [done|]. intros [_ Hno].
      apply find_in_lines_Some in E as (i & j & _ & Hc & _). by apply Hno in Hc.
    + rewrite find_in_lines_None in E. split; [by intros [= <-]|].
      by intros [-> _].
  - intros Hcfg. destruct (find_in_lines _ 0) as [p'|] eqn:E; [eauto|].
    exfalso. pose proof (cfg_empty _ Hcfg) as Hin.
    apply elem_of_concat_cell in Hin as (i & j & Hc).
    by eapply find_in_lines_None.
Qed.

Lemma find_empty_first_empty_cell_witness :
  ∃ p, Node_find_empty
         (mkNode DEBUG_START_STATE DEBUG_TARGET_STATE None 0 5 5) = Ok p.
Proof.
  apply (find_empty_first_empty_cell
           (mkNode DEBUG_START_STATE DEBUG_TARGET_STATE None 0 5 5)).
  exact Configuration_DEBUG_START_STATE.
Defined.

(** ** [__get_next_empties] *)

Lemma List_filter_sublist {A} (keep : A → bool) (l : list A) :
  List.filter keep l `sublist_of` l.
Proof.
  induction l as [|x l IH]; simpl; [constructor|].
  destruct (keep x); by constructor.
Qed.

Lemma on_board_within (p : Point) : on_board p = true ↔ within_board p.
Proof.
  unfold on_board, within_board.
  rewrite !andb_true_iff, !Z.leb_le. tauto.
Qed.

Lemma adjacent_cases (p q : Point) :
  adjacent p q ↔
  q = (p.1 + 1, p.2) ∨ q = (p.1 - 1, p.2)
  ∨ q = (p.1, p.2 + 1) ∨ q = (p.1, p.2 - 1).
Proof.
  destruct p as [r c], q as [r' c']. unfold adjacent. simpl. split.
  - intros H.
    assert (r' = r + 1 ∧ c' = c ∨ r' = r - 1 ∧ c' = c
            ∨ r' = r ∧ c' = c + 1 ∨ r' = r ∧ c' = c - 1) as Hc by lia.
    destruct Hc as [[-> ->]|[[-> ->]|[[-> ->]|[-> ->]]]]; auto.
  - intros [H|[H|[H|H]]]; injection H as -> ->; lia.
Qed.

(** C8. [__get_next_empties] returns exactly the orthogonal neighbours of
    the given position that lie on the board, in the order down, up,
    right, left. *)
Theorem get_next_empties_neighbours (current_empty : Point) :
  Node_get_next_empties current_empty `sublist_of`
    [ (current_empty.1 + 1, current_empty.2);
      (current_empty.1 - 1, current_empty.2);
      (current_empty.1, current_empty.2 + 1);
      (current_empty.1, current_empty.2 - 1) ]
  ∧ ∀ q, q ∈ Node_get_next_empties current_empty ↔
         adjacent current_empty q ∧ within_board q.
Proof.
  split; [apply List_filter_sublist|].
  intros q. unfold Node_get_next_empties.
  rewrite list_elem_of_In, filter_In, on_board_within, adjacent_cases.
  simpl. intuition congruence.
Qed.

Example get_next_empties_corner :
  Node_get_next_empties (0, 0) = [(1, 0); (0, 1)].
Proof. reflexivity. Qed.

Example get_next_empties_centre :
  Node_get_next_empties (1, 1) = [(2, 1); (0, 1); (1, 2); (1, 0)].
Proof. reflexivity. Qed.

(** ** [__get_next_state] on values *)

Lemma cell_set_cell (s : State) (i j : nat) (x y : string) (k l : nat) :
  cell s i j = Some y →
  cell (set_cell s i j x) k l =
    if decide ((k, l) = (i, j)) then Some x else cell s k l.
Proof.
  intros (line & Hi & Hj)%cell_Some. unfold set_cell, cell. rewrite Hi.
  pose proof (lookup_lt_Some _ _ _ Hi). pose proof (lookup_lt_Some _ _ _ Hj).
  destruct (decide (k = i)) as [->|Hk].
  - rewrite list_lookup_insert_eq by done. rewrite Hi. simpl.
    destruct (decide (l = j)) as [->|Hl].
    + rewrite list_lookup_insert_eq by done. by rewrite decide_True.
    + rewrite list_lookup_insert_ne by done. rewrite decide_False; [done|congruence].
  - rewrite list_lookup_insert_ne by done. rewrite decide_False; [done|congruence].
Qed.

Lemma setitem2_set_cell (s : State) (i j : nat) (x y : string) :
  cell s i j = Some y →
  setitem2 s (point_of (i, j)) x = Ok (set_cell s i j x).
Proof.
  intros (line & Hi & Hj)%cell_Some. unfold setitem2, set_cell. simpl.
  rewrite (getitem_nat _ _ _ Hi). simpl.
  rewrite setitem_nat by (by eapply lookup_lt_Some). simpl.
  rewrite setitem_nat by (by eapply lookup_lt_Some). by rewrite Hi.
Qed.

Lemma get_next_state_swap (s : State) (p q : nat * nat) :
  is_Some (cell s p.1 p.2) → is_Some (cell s q.1 q.2) →
  get_next_state s (point_of p) (point_of q) = Ok (swap_cells s p q).
Proof.
  destruct p as [i j], q as [i' j']. simpl. intros [a Ha] [b Hb].
  unfold get_next_state, swap_cells. simpl. rewrite Ha, Hb.
  rewrite (getitem2_cell _ _ _ _ Ha). simpl.
  rewrite (getitem2_cell _ _ _ _ Hb). simpl.
  rewrite (setitem2_set_cell _ _ _ _ _ Hb). simpl.
  apply (setitem2_set_cell _ _ _ _ a).
  rewrite (cell_set_cell _ _ _ _ _ _ _ Hb). by case_decide; simplify_eq.
Qed.

Lemma cell_swap_cells (s : State) (p q : nat * nat) (k l : nat) :
  is_Some (cell s p.1 p.2) → is_Some (cell s q.1 q.2) →
  cell (swap_cells s p q) k l =
    if decide ((k, l) = p) then cell s q.1 q.2
    else if decide ((k, l) = q) then cell s p.1 p.2
    else cell s k l.
Proof.
  destruct p as [i j], q as [i' j']. simpl. intros [a Ha] [b Hb].
  unfold swap_cells. simpl. rewrite Ha, Hb.
  rewrite (cell_set_cell _ _ _ _ a).
  - case_decide; [done|]. by rewrite (cell_set_cell _ _ _ _ _ _ _ Hb).
  - rewrite (cell_set_cell _ _ _ _ _ _ _ Hb). by case_decide; simplify_eq.
Qed.

(** ** [__get_next_state] on the object store *)

Lemma deepcopy_lines_distinct (lines : list ref) (h : store)
  (memo : list (ref * ref)) (s : State) :
  NoDup lines →
  (∀ r, r ∈ lines → memo_get memo r = None) →
  Forall2 (λ l line, h !! l = Some (Row line)) lines s →
  deepcopy_lines h memo lines
  = (h ++ map Row s, seq (length h) (length lines)).
Proof.
  revert h memo s. induction lines as [|r lines IH]; intros h memo s Hnd Hmemo Hrows.
  - apply Forall2_nil_inv_l in Hrows as ->. simpl. by rewrite app_nil_r.
  - apply Forall2_cons_inv_l in Hrows as (line & s' & Hr & Hrows & ->).
    apply NoDup_cons in Hnd as [Hnotin Hnd].
    simpl. rewrite Hmemo by left. unfold tiles_at. rewrite Hr.
    rewrite (IH (h ++ [Row line]) ((r, length h) :: memo) s').
    + rewrite length_app. simpl. rewrite <- app_assoc. simpl.
      by rewrite Nat.add_1_r.
    + done.
    + intros r' Hr'. simpl. rewrite decide_False by (by intros ->).
      apply Hmemo. by right.
    + eapply Forall2_impl; [done|]. simpl. intros l line' Hl.
      by apply lookup_app_l_Some.
Qed.

Lemma deepcopy_represents (h : store) (state : ref) (s : State) :
  represents h state s →
  deepcopy h state = (copied h s, (length h + length s)%nat).
Proof.
  intros (lines & Hstate & Hnd & Hrows). unfold deepcopy, lines_at.
  rewrite Hstate. rewrite (deepcopy_lines_distinct _ _ _ s) by done.
  unfold alloc, copied. rewrite length_app, length_map, <- app_assoc.
  by rewrite (Forall2_length _ _ _ Hrows).
Qed.

Lemma copied_lines_at (h : store) (s' : State) :
  lines_at (copied h s') (length h + length s')
  = seq (length h) (length s').
Proof.
  unfold lines_at, copied.
  rewrite lookup_app_r by lia. rewrite lookup_app_r by (rewrite length_map; lia).
  rewrite length_map. by replace (_ - _ - _)%nat with 0%nat by lia.
Qed.

Lemma copied_tiles_at (h : store) (s' : State) (i : nat) (line : list string) :
  s' !! i = Some line →
  tiles_at (copied h s') (length h + i) = line.
Proof.
  intros Hi. unfold tiles_at, copied.
  rewrite lookup_app_r by lia.
  replace (length h + i - length h)%nat with i by lia.
  rewrite lookup_app_l by (rewrite length_map; by eapply lookup_lt_Some).
  by rewrite list_lookup_fmap, Hi.
Qed.

Lemma copied_getitem_line (h : store) (s' : State) (i : nat) :
  (i < length s')%nat →
  getitem (lines_at (copied h s') (length h + length s')) (Z.of_nat i)
  = Ok (length h + i)%nat.
Proof.
  intros Hi. rewrite copied_lines_at. apply getitem_nat.
  by apply lookup_seq_lt.
Qed.

Lemma load2_copied (h : store) (s' : State) (i j : nat) (x : string) :
  cell s' i j = Some x →
  load2 (copied h s') (length h + length s') (point_of (i, j)) = Ok x.
Proof.
  intros (line & Hi & Hj)%cell_Some. unfold load2. simpl.
  rewrite copied_getitem_line by (by eapply lookup_lt_Some). simpl.
  rewrite (copied_tiles_at _ _ _ _ Hi). by apply getitem_nat.
Qed.

Lemma length_set_cell (s : State) (i j : nat) (x : string) :
  length (set_cell s i j x) = length s.
Proof.
  unfold set_cell. destruct (s !! i); [|done]. by rewrite length_insert.
Qed.

Lemma store2_copied (h : store) (s' : State) (i j : nat) (x y : string) :
  cell s' i j = Some y →
  store2 (copied h s') (length h + length s') (point_of (i, j)) x
  = Ok (copied h (set_cell s' i j x)).
Proof.
  intros (line & Hi & Hj)%cell_Some. unfold store2. simpl.
  pose proof (lookup_lt_Some _ _ _ Hi) as Hlt.
  rewrite copied_getitem_line by done. simpl.
  rewrite (copied_tiles_at _ _ _ _ Hi).
  rewrite setitem_nat by (by eapply lookup_lt_Some). simpl. f_equal.
  unfold copied. rewrite length_set_cell. unfold set_cell. rewrite Hi.
  rewrite insert_app_r_alt by lia.
  replace (length h + i - length h)%nat with i by lia.
  rewrite insert_app_l by (by rewrite length_map).
  by rewrite list_fmap_insert.
Qed.

Lemma get_next_state_in_copied (h : store) (state : ref) (s : State)
  (p q : nat * nat) :
  represents h state s →
  is_Some (cell s p.1 p.2) → is_Some (cell s q.1 q.2) →
  get_next_state_in h state (point_of p) (point_of q)
  = Ok (copied h (swap_cells s p q), (length h + length s)%nat).
Proof.
  intros Hrep [a Ha] [b Hb]. destruct p as [i j], q as [i' j']. simpl in *.
  unfold get_next_state_in. rewrite (deepcopy_represents _ _ _ Hrep).
  rewrite (load2_copied _ _ _ _ _ Ha). simpl.
  rewrite (load2_copied _ _ _ _ _ Hb). simpl.
  rewrite (store2_copied _ _ _ _ _ _ Hb). simpl.
  assert (cell (set_cell s i' j' a) i j = Some a) as Ha'.
  { rewrite (cell_set_cell _ _ _ _ _ _ _ Hb). by case_decide; simplify_eq. }
  unfold swap_cells. simpl. rewrite Ha, Hb.
  replace (length h + length s)%nat
    with (length h + length (set_cell s i' j' a))%nat
    by (by rewrite length_set_cell).
  by rewrite (store2_copied _ _ _ _ _ _ Ha').
Qed.

Lemma copied_represents_new (h : store) (s' : State) :
  represents (copied h s') (length h + length s') s'.
Proof.
  exists (seq (length h) (length s')). split_and!.
  - pose proof (copied_lines_at h s') as H. unfold lines_at in H.
    destruct (copied h s' !! _) as [[|lines]|] eqn:E; try done.
    + destruct s'; [|done]. exfalso. unfold copied in E. simpl in E.
      rewrite lookup_app_r in E by lia.
      replace (length h + 0 - length h)%nat with 0%nat in E by lia. done.
    + by rewrite H.
    + destruct s'; [|done]. exfalso. unfold copied in E. simpl in E.
      rewrite lookup_app_r in E by lia.
      replace (length h + 0 - length h)%nat with 0%nat in E by lia. done.
  - apply NoDup_seq.
  - apply Forall2_same_length_lookup. split; [by rewrite length_seq|].
    intros i l line Hl Hline. apply lookup_seq in Hl as [-> _].
    unfold copied. rewrite lookup_app_r by lia.
    replace (length h + i - length h)%nat with i by lia.
    rewrite lookup_app_l by (rewrite length_map; by eapply lookup_lt_Some).
    by rewrite list_lookup_fmap, Hline.
Qed.

Lemma copied_preserves (h : store) (s' : State) (r : ref) (o : object) :
  h !! r = Some o → copied h s' !! r = Some o.
Proof. intros H. unfold copied. by apply lookup_app_l_Some. Qed.

Lemma copied_represents_old (h : store) (s' : State) (r : ref) (s : State) :
  represents h r s → represents (copied h s') r s.
Proof.
  intros (lines & Hr & Hnd & Hrows). exists lines. split_and!; [|done|].
  - by apply copied_preserves.
  - eapply Forall2_impl; [done|]. simpl. intros l line Hl.
    by apply copied_preserves.
Qed.

(** C9. [__get_next_state] returns a new state object in which the labels
    at the two given positions are exchanged and every other cell is as
    in the input; no object that existed before the call is changed, so
    the input state still represents the same board. On values the result
    is the one of [get_next_state]. *)
Theorem get_next_state_exchanges (h : store) (state : ref) (s : State)
  (p q : nat * nat) :
  represents h state s →
  is_Some (cell s p.1 p.2) → is_Some (cell s q.1 q.2) →
  ∃ h' next_state s',
    get_next_state_in h state (point_of p) (point_of q) = Ok (h', next_state)
    ∧ get_next_state s (point_of p) (point_of q) = Ok s'
    ∧ h !! next_state = None
    ∧ represents h' next_state s'
    ∧ cell s' p.1 p.2 = cell s q.1 q.2
    ∧ cell s' q.1 q.2 = cell s p.1 p.2
    ∧ (∀ k l, (k, l) ≠ p → (k, l) ≠ q → cell s' k l = cell s k l)
    ∧ (∀ r o, h !! r = Some o → h' !! r = Some o)
    ∧ represents h' state s.
Proof.
  intros Hrep Hp Hq.
  exists (copied h (swap_cells s p q)), (length h + length s)%nat,
         (swap_cells s p q).
  assert (length (swap_cells s p q) = length s) as Hlen.
  { unfold swap_cells. destruct (cell s p.1 p.2), (cell s q.1 q.2); try done.
    by rewrite !length_set_cell. }
  split_and!.
  - by apply get_next_state_in_copied.
  - by apply get_next_state_swap.
  - apply lookup_ge_None. lia.
  - rewrite <- Hlen. apply copied_represents_new.
  - rewrite cell_swap_cells by done. destruct p. by rewrite decide_True.
  - rewrite cell_swap_cells by done. destruct q.
    case_decide; [by subst|]. by rewrite decide_True.
  - intros k l Hnp Hnq. rewrite cell_swap_cells by done.
    by rewrite !decide_False.
  - intros r o. apply copied_preserves.
  - by apply copied_represents_old.
Qed.

Lemma get_next_state_exchanges_witness :
  let h := map Row DEBUG_START_STATE ++ [Rows [0; 1; 2]%nat] in
  ∃ h' next_state s',
    get_next_state_in h 3 (point_of (1, 0)%nat) (point_of (0, 0)%nat)
    = Ok (h', next_state)
    ∧ get_next_state DEBUG_START_STATE (point_of (1, 0)%nat) (point_of (0, 0)%nat)
      = Ok s'
    ∧ h !! next_state = None
    ∧ represents h' next_state s'
    ∧ cell s' 1 0 = cell DEBUG_START_STATE 0 0
    ∧ cell s' 0 0 = cell DEBUG_START_STATE 1 0
    ∧ (∀ k l, (k, l) ≠ (1, 0)%nat → (k, l) ≠ (0, 0)%nat →
              cell s' k l = cell DEBUG_START_STATE k l)
    ∧ (∀ r o, h !! r = Some o → h' !! r = Some o)
    ∧ represents h' 3 DEBUG_START_STATE.
Proof.
  intros h.
  apply (get_next_state_exchanges h 3%nat DEBUG_START_STATE (1, 0)%nat (0, 0)%nat).
  - exists [0; 1; 2]%nat. split_and!; [reflexivity| |].
    + apply (NoDup_seq 0 3).
    + repeat constructor.
  - by eexists.
  - by eexists.
Defined.

Example get_next_state_debug :
  get_next_state DEBUG_START_STATE (1, 0) (0, 0)
  = Ok [[EMPTY; "1"; "3"]; ["2"; "8"; "4"]; ["6"; "7"; "5"]]%string.
Proof. reflexivity. Qed.

(** ** [__get_h] and [is_target] *)

Lemma square_cell (s : State) (i j : nat) :
  square s → (i < Z.to_nat DIMENSION)%nat → (j < Z.to_nat DIMENSION)%nat →
  is_Some (cell s i j).
Proof.
  intros [Hlen Hrows] Hi Hj.
  destruct (lookup_lt_is_Some_2 s i) as [line Hline]; [lia|].
  assert (length line = Z.to_nat DIMENSION) as Hl.
  { eapply (proj1 (Forall_forall _ _) Hrows). by eapply list_elem_of_lookup_2. }
  destruct (lookup_lt_is_Some_2 line j) as [x Hx]; [lia|].
  exists x. apply cell_Some. eauto.
Qed.

Lemma misplaced_cell (s t : State) (i j : nat) :
  is_Some (cell s i j) → is_Some (cell t i j) →
  misplaced s t (Z.of_nat i) (Z.of_nat j)
  = Ok (bool_decide (misplaced_at s t (i, j))).
Proof.
  intros [x Hx] [y Hy]. unfold misplaced. simpl.
  rewrite (getitem2_cell _ _ _ _ Hy : getitem2 t (Z.of_nat i, Z.of_nat j) = _).
  simpl.
  rewrite (getitem2_cell _ _ _ _ Hx : getitem2 s (Z.of_nat i, Z.of_nat j) = _).
  simpl. f_equal.
  destruct (String.eqb_spec y x) as [Hyx|Hyx],
           (String.eqb_spec y EMPTY) as [Hye|Hye]; simpl; symmetry;
    [apply bool_decide_eq_false..|apply bool_decide_eq_true];
    unfold misplaced_at; simpl; rewrite Hx, Hy.
  - intros [? _]. congruence.
  - intros [_ ?]. congruence.
  - intros [? _]. congruence.
  - split; congruence.
Qed.

Lemma foldM_count {A} (test : A → result bool) (P : A → Prop)
  `{!∀ x, Decision (P x)} (l : list A) (count : Z) :
  (∀ x, x ∈ l → test x = Ok (bool_decide (P x))) →
  foldM (λ count x, b ← test x; Ok (if b : bool then count + 1 else count))
        l count
  = Ok (count + Z.of_nat (length (filter P l))).
Proof.
  revert count. induction l as [|x l IH]; intros count Htest; simpl.
  - f_equal. lia.
  - rewrite Htest by left. simpl. rewrite IH by (intros; apply Htest; by right).
    f_equal. rewrite filter_cons.
    case_bool_decide; [rewrite decide_True by done|rewrite decide_False by done];
      simpl; lia.
Qed.

Lemma foldM_count_rows (P : nat * nat → Prop) `{!∀ x, Decision (P x)}
  (test : Z → Z → result bool) (rows cols : list nat) (count : Z) :
  (∀ i j, i ∈ rows → j ∈ cols →
          test (Z.of_nat i) (Z.of_nat j) = Ok (bool_decide (P (i, j)))) →
  foldM (λ count i,
           foldM (λ count j,
                    b ← test i j; Ok (if b : bool then count + 1 else count))
                 (Z.of_nat <$> cols) count)
        (Z.of_nat <$> rows) count
  = Ok (count + Z.of_nat (length (filter P (list_prod rows cols)))).
Proof.
  revert count. induction rows as [|i rows IH]; intros count Htest; simpl.
  - f_equal. lia.
  - assert (∀ c,
      foldM (λ count j,
               b ← test (Z.of_nat i) j; Ok (if b : bool then count + 1 else count))
            (Z.of_nat <$> cols) c
      = Ok (c + Z.of_nat (length (filter P (map (λ y, (i, y)) cols))))) as Hrow.
    { clear IH. assert (∀ j, j ∈ cols → test (Z.of_nat i) (Z.of_nat j)
                                        = Ok (bool_decide (P (i, j)))) as Hi
        by (intros; apply Htest; [left|done]).
      clear Htest. induction cols as [|j cols IHc]; intros c; simpl.
      - f_equal. lia.
      - rewrite Hi by left. simpl. rewrite IHc by (intros; apply Hi; by right).
        f_equal. rewrite filter_cons.
        case_bool_decide; [rewrite decide_True by done|rewrite decide_False by done];
          simpl; lia. }
    rewrite Hrow. simpl. rewrite IH by (intros; apply Htest; [by right|done]).
    f_equal. rewrite filter_app, length_app. lia.
Qed.

Lemma Node_get_h_count (s t : State) :
  square s → square t →
  Node_get_h s t = Ok (Z.of_nat (misplaced_count s t)).
Proof.
  intros Hs Ht. unfold Node_get_h, misplaced_count, board_positions.
  change (range DIMENSION) with (Z.of_nat <$> seq 0 (Z.to_nat DIMENSION)).
  rewrite (foldM_count_rows (misplaced_at s t)); [done|].
  intros i j [_ Hi]%elem_of_seq [_ Hj]%elem_of_seq.
  apply misplaced_cell; by apply square_cell.
Qed.

Lemma misplaced_count_0 (s t : State) :
  misplaced_count s t = 0%nat ↔ matches_target s t.
Proof.
  unfold misplaced_count, matches_target. rewrite length_zero_iff_nil. split.
  - intros Hnil i j Hi Hj Hne.
    destruct (decide (cell s i j = cell t i j)) as [|Hdiff]; [done|].
    exfalso. apply (not_elem_of_nil (i, j)). rewrite <- Hnil.
    apply list_elem_of_filter. split; [by split|].
    unfold board_positions. apply list_elem_of_In, in_prod; apply in_seq; lia.
  - intros Hagree. destruct (filter _ _) as [|[i j] l] eqn:E; [done|]. exfalso.
    assert ((i, j) ∈ filter (misplaced_at s t) board_positions) as Hin
      by (rewrite E; left).
    apply list_elem_of_filter in Hin as [[Hne Hdiff] Hin]. simpl in *.
    apply list_elem_of_In, in_prod_iff in Hin as [Hi%in_seq Hj%in_seq].
    apply Hdiff, Hagree; [lia..|done].
Qed.

Lemma Node_init_square (state target : State) (parent : option Node) :
  square state → square target →
  ∃ node,
    Node_init state target parent = Ok node
    ∧ Node_h node = Z.of_nat (misplaced_count state target).
Proof.
  intros Hs Ht. unfold Node_init. rewrite Node_get_h_count by done. simpl.
  by eexists.
Qed.

(** C3. On square boards the node built by [__init__] carries as [h] the
    number of cells where the target's label is not the empty label and
    differs from the state's label; [is_target] holds exactly when that
    number is 0, that is, exactly when the state agrees with the target on
    every cell whose target label is not empty. *)
Theorem is_target_iff_matches (state target : State) (parent : option Node) :
  square state → square target →
  ∃ node,
    Node_init state target parent = Ok node
    ∧ Node_h node = Z.of_nat (misplaced_count state target)
    ∧ (Node_is_target node = true ↔ Node_h node = 0)
    ∧ (Node_is_target node = true ↔ matches_target state target).
Proof.
  intros Hs Ht. unfold Node_init. rewrite Node_get_h_count by done. simpl.
  eexists. split; [done|]. unfold Node_is_target. simpl.
  rewrite Z.eqb_eq, <- misplaced_count_0. split_and!; [done|done|lia].
Qed.

(** ** The sort behind [CandidateQueue.push] *)

Section SortFacts.
Context {A : Type} (key : A → Z).

Let lt (x y : A) : bool := key x <? key y.

Lemma sort_insert_perm (x : A) (l : list A) : sort_insert lt x l ≡ₚ x :: l.
Proof.
  induction l as [|y l IH]; simpl; [done|].
  destruct (lt y x); [|done]. rewrite IH. apply Permutation_swap.
Qed.

Lemma list_sort_perm (l : list A) : list_sort lt l ≡ₚ l.
Proof.
  induction l as [|x l IH]; simpl; [done|].
  by rewrite sort_insert_perm, IH.
Qed.

(** Inserting [x] keeps the list sorted for any order [R] that follows
    the keys and in which [x] may precede the elements it stops at. *)
Lemma sort_insert_sorted (R : A → A → Prop) (x : A) (l : list A) :
  (∀ y z, R y z → key y ≤ key z) →
  (∀ y, key y < key x → R y x) →
  (∀ y, y ∈ l → key x ≤ key y → R x y) →
  StronglySorted R l → StronglySorted R (sort_insert lt x l).
Proof.
  intros Hkeys Hbefore Hafter. induction l as [|y l IH]; intros Hsorted; simpl.
  - by repeat constructor.
  - apply StronglySorted_cons in Hsorted as [Hy Hsorted]. unfold lt at 1.
    destruct (Z.ltb_spec (key y) (key x)) as [Hlt|Hge].
    + apply StronglySorted_cons. split.
      * rewrite sort_insert_perm. constructor; [by apply Hbefore|done].
      * apply IH; [|done]. intros z Hz. apply Hafter. by right.
    + apply StronglySorted_cons. split.
      * constructor; [apply Hafter; [left|done]|].
        apply Forall_forall. intros z Hz. apply Hafter; [by right|].
        pose proof (proj1 (Forall_forall _ _) Hy z Hz) as Hyz.
        apply Hkeys in Hyz. lia.
      * by apply StronglySorted_cons.
Qed.

(** Whatever the list, the result of the sort is ordered by key. *)
Lemma list_sort_sorted (l : list A) :
  StronglySorted (λ x y, key x ≤ key y) (list_sort lt l).
Proof.
  induction l as [|x l IH]; simpl; [constructor|].
  apply sort_insert_sorted; [done|intros; lia|done|done].
Qed.

(** The sort is stable: elements of equal key that were in the order of
    their tags come out in that order. *)
Lemma list_sort_stable (tag : A → nat) (l : list A) :
  StronglySorted (λ x y, key x = key y → (tag x < tag y)%nat) l →
  StronglySorted
    (λ x y, key x < key y ∨ (key x = key y ∧ (tag x < tag y)%nat))
    (list_sort lt l).
Proof.
  induction l as [|x l IH]; intros Hl; simpl; [constructor|].
  apply StronglySorted_cons in Hl as [Hx Hl].
  apply sort_insert_sorted; [intros; lia|intros; lia| |by apply IH].
  intros y Hy Hle. rewrite list_sort_perm in Hy.
  pose proof (proj1 (Forall_forall _ _) Hx y Hy) as Hxy.
  destruct (decide (key x = key y)) as [Heq|Hne]; [right; auto|left; lia].
Qed.

Lemma list_sort_map {B} (g : B → A) (l : list B) :
  list_sort lt (map g l) = map g (list_sort (λ x y, lt (g x) (g y)) l).
Proof.
  induction l as [|x l IH]; simpl; [done|]. rewrite IH.
  generalize (list_sort (λ x y, lt (g x) (g y)) l). intros s.
  induction s as [|y s IHs]; simpl; [done|].
  destruct (lt (g y) (g x)); simpl; by rewrite ?IHs.
Qed.
End SortFacts.

(** ** [CandidateQueue] *)

Lemma StronglySorted_weaken {A} (R S : A → A → Prop) (l : list A) :
  (∀ x y, R x y → S x y) → StronglySorted R l → StronglySorted S l.
Proof.
  intros HRS. induction 1 as [|x l _ IH Hx]; constructor; [done|].
  eapply Forall_impl; [done|]. simpl. auto.
Qed.

Lemma stamp_from_bounds (clock : nat) (nodes : list Node) (x : nat * Node) :
  x ∈ stamp_from clock nodes → (clock ≤ x.1 < clock + length nodes)%nat.
Proof.
  unfold stamp_from. revert clock.
  induction nodes as [|n nodes IH]; intros clock; simpl.
  - by intros ?%elem_of_nil.
  - intros [->|Hin]%elem_of_cons; simpl; [lia|]. apply IH in Hin. lia.
Qed.

Lemma stamp_from_sorted (clock : nat) (nodes : list Node) :
  StronglySorted (λ x y : nat * Node, (x.1 < y.1)%nat) (stamp_from clock nodes).
Proof.
  revert clock. induction nodes as [|n nodes IH]; intros clock.
  - constructor.
  - change (stamp_from clock (n :: nodes))
      with ((clock, n) :: stamp_from (S clock) nodes).
    constructor; [apply IH|]. apply Forall_forall. intros x Hx.
    apply stamp_from_bounds in Hx. simpl. lia.
Qed.

Lemma stamp_from_erase (clock : nat) (nodes : list Node) :
  map snd (stamp_from clock nodes) = nodes.
Proof.
  unfold stamp_from. apply snd_zip. by rewrite length_seq.
Qed.

Lemma queue_inv_push (clock : nat) (queue : list (nat * Node))
  (nodes : list Node) :
  queue_inv clock queue →
  queue_inv (clock + length nodes)
    (queue_push stamped_lt (inr (stamp_from clock nodes)) queue).
Proof.
  intros [Hsorted Hpast]. unfold queue_push. split.
  - apply (list_sort_stable (λ x : nat * Node, Node_f x.2) fst).
    apply StronglySorted_app. split_and!.
    + intros x y Hx Hy _.
      pose proof (proj1 (Forall_forall _ _) Hpast x Hx) as Hlt. simpl in Hlt.
      apply stamp_from_bounds in Hy. lia.
    + eapply StronglySorted_weaken; [|done].
      unfold f_then_time. intros x y [?|[_ ?]] ?; [lia|done].
    + eapply StronglySorted_weaken; [|apply stamp_from_sorted]. auto.
  - change stamped_lt
      with (λ x y : nat * Node, Node_f x.2 <? Node_f y.2).
    rewrite (list_sort_perm (λ x : nat * Node, Node_f x.2)).
    apply Forall_app. split.
    + eapply Forall_impl; [done|]. simpl. lia.
    + apply Forall_forall. intros x Hx%stamp_from_bounds. lia.
Qed.

Lemma queue_inv_run (ops : list queue_op) (clock : nat)
  (queue : list (nat * Node)) :
  queue_inv clock queue →
  ∃ clock', queue_inv clock' (stamped_run ops clock queue).
Proof.
  revert clock queue. induction ops as [|[node|] ops IH]; intros clock queue Hinv.
  - by exists clock.
  - simpl. eapply IH. by apply queue_inv_push.
  - simpl. eapply IH. destruct queue as [|x rest]; simpl; [done|].
    destruct Hinv as [[_ ?]%StronglySorted_cons [_ ?]%Forall_cons]. by split.
Qed.

Lemma stamped_run_erase (ops : list queue_op) (clock : nat)
  (queue : list (nat * Node)) :
  map snd (stamped_run ops clock queue) = CandidateQueue_run ops (map snd queue).
Proof.
  revert clock queue. induction ops as [|[node|] ops IH]; intros clock queue.
  - done.
  - simpl. rewrite IH. f_equal.
    unfold CandidateQueue_push, queue_push.
    transitivity
      (list_sort Node_lt
         (map snd (queue ++ stamp_from clock (pushed_nodes node)))).
    + symmetry. apply (list_sort_map Node_f snd).
    + f_equal. rewrite map_app, stamp_from_erase. by destruct node.
  - simpl. rewrite IH. f_equal. by destruct queue as [|[t n] rest].
Qed.

(** What [go] starts from is the empty queue after one [push]. *)
Lemma CandidateQueue_init_singleton (root : Node) :
  CandidateQueue_init [root]
  = CandidateQueue_push (inl root) (CandidateQueue_init []).
Proof. reflexivity. Qed.

Lemma queue_inv_init (init : list Node) :
  (length init ≤ 1)%nat → queue_inv (length init) (stamp_from 0 init).
Proof.
  destruct init as [|n [|? ?]]; simpl; [| |lia]; intros _.
  - split; constructor.
  - split; repeat constructor.
Qed.

(** C5. Take a queue created empty or, as [go] creates it, with one node.
    After any sequence of [push] and [pop] operations, [pop] succeeds
    whenever the queue is not empty, and the node it returns has an [f]
    not above that of any other node in the queue and, among the nodes of
    the same [f], is the one that was inserted first. *)
Theorem pop_minimal_first_inserted (init : list Node) (ops : list queue_op) :
  (length init ≤ 1)%nat →
  let queue := CandidateQueue_run ops (CandidateQueue_init init) in
  let tagged := stamped_run ops (length init) (stamp_from 0 init) in
  map snd tagged = queue
  ∧ (CandidateQueue_is_empty queue = false →
     ∃ node rest, CandidateQueue_pop queue = Ok (node, rest))
  ∧ ∀ node rest, CandidateQueue_pop queue = Ok (node, rest) →
      ∃ time tagged_rest,
        tagged = (time, node) :: tagged_rest
        ∧ map snd tagged_rest = rest
        ∧ ∀ time' node', (time', node') ∈ tagged_rest →
            Node_f node ≤ Node_f node'
            ∧ (Node_f node = Node_f node' → (time < time')%nat).
Proof.
  intros Hinit queue tagged.
  assert (map snd tagged = queue) as Herase.
  { unfold tagged, queue, CandidateQueue_init.
    by rewrite stamped_run_erase, stamp_from_erase. }
  split_and!; [done| |].
  - destruct queue as [|node rest]; [done|]. intros _. by exists node, rest.
  - intros node rest Hpop.
    destruct (queue_inv_run ops _ _ (queue_inv_init init Hinit))
      as [clock [Hsorted _]].
    fold tagged in Hsorted. rewrite <- Herase in Hpop.
    destruct tagged as [|[time n] tagged_rest]; [done|].
    simpl in Hpop. injection Hpop as -> <-.
    exists time, tagged_rest. split_and!; [done..|].
    intros time' node' Hin.
    apply StronglySorted_cons in Hsorted as [Hfirst _].
    pose proof (proj1 (Forall_forall _ _) Hfirst _ Hin) as Hle.
    unfold f_then_time in Hle. simpl in Hle. lia.
Qed.

(** The constructor keeps the list it is given as it is: a queue created
    with several nodes is in the order of [f] only after its first
    [push]. *)
Example CandidateQueue_init_keeps_order :
  let low := mkNode DEBUG_START_STATE DEBUG_TARGET_STATE None 0 5 5 in
  let high := mkNode DEBUG_START_STATE DEBUG_TARGET_STATE None 0 6 6 in
  CandidateQueue_pop (CandidateQueue_init [high; low]) = Ok (high, [low])
  ∧ CandidateQueue_pop
      (CandidateQueue_push (inr []) (CandidateQueue_init [high; low]))
    = Ok (low, [high]).
Proof. split; reflexivity. Qed.

(** ** The key of the history map *)

Lemma String_app_cons (c : Ascii.ascii) (x y : string) :
  (String c x +:+ y)%string = String c (x +:+ y).
Proof. reflexivity. Qed.

Lemma String_app_nil_r (x : string) : (x +:+ "")%string = x.
Proof.
  induction x as [|c x IH]; [done|]. by rewrite String_app_cons, IH.
Qed.

Lemma String_concat_cons (x : string) (l : list string) :
  String.concat "" (x :: l) = (x +:+ String.concat "" l)%string.
Proof.
  destruct l as [|y l]; [|done]. simpl. by rewrite String_app_nil_r.
Qed.

Lemma String_append_assoc (x y z : string) :
  ((x +:+ y) +:+ z = x +:+ (y +:+ z))%string.
Proof.
  induction x as [|c x IH]; [done|]. by rewrite !String_app_cons, IH.
Qed.

Lemma String_concat_app (l1 l2 : list string) :
  String.concat "" (l1 ++ l2)
  = (String.concat "" l1 +:+ String.concat "" l2)%string.
Proof.
  induction l1 as [|x l1 IH]; [done|].
  change ((x :: l1) ++ l2) with (x :: (l1 ++ l2)).
  by rewrite !String_concat_cons, IH, String_append_assoc.
Qed.

Lemma repr_of_flat (s : State) : repr_of s = String.concat "" (concat s).
Proof.
  unfold repr_of. induction s as [|line s IH]; [done|].
  change (map (String.concat "") (line :: s))
    with (String.concat "" line :: map (String.concat "") s).
  rewrite String_concat_cons, IH. simpl. by rewrite String_concat_app.
Qed.

Lemma String_concat_chars_inj (l l' : list string) :
  Forall (λ tile, String.length tile = 1%nat) l →
  Forall (λ tile, String.length tile = 1%nat) l' →
  String.concat "" l = String.concat "" l' → l = l'.
Proof.
  intros Hl. revert l'. induction Hl as [|x l Hx Hl IH]; intros l' Hl' Heq.
  - destruct Hl' as [|y l' Hy _]; [done|]. rewrite String_concat_cons in Heq.
    by destruct y.
  - destruct Hl' as [|y l' Hy Hl']; rewrite !String_concat_cons in Heq.
    + by destruct x.
    + destruct x as [|c [|? ?]], y as [|c' [|? ?]]; try done.
      rewrite !String_app_cons in Heq.
      injection Heq as -> Heq. f_equal. by apply IH.
Qed.

Lemma concat_square_inj (s s' : State) :
  square s → square s' → concat s = concat s' → s = s'.
Proof.
  intros [Hlen Hrows] [Hlen' Hrows']. rewrite <- Hlen' in Hlen. clear Hlen'.
  revert s' Hlen Hrows'.
  induction Hrows as [|line s Hline Hrows IH]; intros s' Hlen Hrows' Heq.
  - by destruct s'.
  - destruct Hrows' as [|line' s' Hline' Hrows']; [done|]. simpl in Heq.
    apply app_inj_1 in Heq as [-> Heq]; [|congruence].
    f_equal. apply IH; [by injection Hlen|done..].
Qed.

(** Two distinct boards of single-character labels have distinct keys. *)
Lemma repr_of_inj (s s' : State) :
  square s → square s' →
  Forall (λ tile, String.length tile = 1%nat) (concat s) →
  Forall (λ tile, String.length tile = 1%nat) (concat s') →
  repr_of s = repr_of s' → s = s'.
Proof.
  intros Hs Hs' Hc Hc'. rewrite !repr_of_flat. intros Heq.
  apply concat_square_inj; [done..|]. by apply String_concat_chars_inj.
Qed.

(** With longer labels two boards can share a key. *)
Example repr_of_longer_labels :
  repr_of [["1"; "23"; "4"]; ["5"; "6"; "7"]; ["8"; "9"; EMPTY]]%string
  = repr_of [["12"; "3"; "4"]; ["5"; "6"; "7"]; ["8"; "9"; EMPTY]]%string.
Proof. reflexivity. Qed.

(** ** Cells of a configuration *)

Lemma cell_ext (s s' : State) :
  length s = length s' → (∀ i j, cell s i j = cell s' i j) → s = s'.
Proof.
  intros Hlen Hcells. apply list_eq_same_length with (length s); [done..|].
  intros i line line' _ Hi Hi'. apply list_eq. intros j.
  specialize (Hcells i j). unfold cell in Hcells. by rewrite Hi, Hi' in Hcells.
Qed.

Lemma cell_lt (s : State) (i j : nat) (x : string) :
  square s → cell s i j = Some x →
  (i < Z.to_nat DIMENSION)%nat ∧ (j < Z.to_nat DIMENSION)%nat.
Proof.
  intros [Hlen Hrows] (line & Hi & Hj)%cell_Some.
  assert (length line = Z.to_nat DIMENSION) as Hl.
  { eapply (proj1 (Forall_forall _ _) Hrows). by eapply list_elem_of_lookup_2. }
  apply lookup_lt_Some in Hi, Hj. lia.
Qed.

Lemma concat_mjoin {A} (l : list (list A)) : concat l = mjoin l.
Proof. induction l as [|x l IH]; simpl; [done|]. by rewrite IH. Qed.

Lemma cell_flat (s : State) (i j : nat) (x : string) :
  square s → cell s i j = Some x →
  concat s !! (i * Z.to_nat DIMENSION + j)%nat = Some x.
Proof.
  intros [Hlen Hrows] (line & Hi & Hj)%cell_Some.
  rewrite concat_mjoin.
  eapply join_lookup_Some_same_length; [done|]. eauto 10.
Qed.

Lemma cell_inj (s : State) (i j k l : nat) (x : string) :
  square s → NoDup (concat s) →
  cell s i j = Some x → cell s k l = Some x → (i, j) = (k, l).
Proof.
  intros Hsq Hnd Hij Hkl.
  pose proof (cell_lt _ _ _ _ Hsq Hij) as [_ Hj].
  pose proof (cell_lt _ _ _ _ Hsq Hkl) as [_ Hl].
  pose proof (NoDup_lookup _ _ _ _ Hnd (cell_flat _ _ _ _ Hsq Hij)
                (cell_flat _ _ _ _ Hsq Hkl)) as Heq.
  assert (i = k ∧ j = l) as [-> ->]; [|done].
  revert Hj Hl Heq. generalize (Z.to_nat DIMENSION). intros n Hj Hl Heq.
  assert (i = k) as ->; [|lia].
  destruct (Nat.lt_trichotomy i k) as [Hlt|[Heq'|Hlt]]; [exfalso|done|exfalso].
  - pose proof (Nat.mul_le_mono_r (S i) k n). lia.
  - pose proof (Nat.mul_le_mono_r (S k) i n). lia.
Qed.

(** ** Moves keep the configuration invariant *)

Lemma set_cell_concat (s : State) (i j : nat) (x y : string) :
  cell s i j = Some y →
  ∃ others, concat s ≡ₚ y :: others ∧ concat (set_cell s i j x) ≡ₚ x :: others.
Proof.
  intros (line & Hi & Hj)%cell_Some. unfold set_cell. rewrite Hi.
  pose proof (take_drop_middle _ _ _ Hi) as Hs.
  pose proof (take_drop_middle _ _ _ Hj) as Hline.
  assert (∀ z, concat (take i s ++ (take j line ++ z :: drop (S j) line)
                         :: drop (S i) s)
               ≡ₚ z :: (concat (take i s) ++ take j line ++ drop (S j) line
                        ++ concat (drop (S i) s))) as Hflat.
  { intros z. rewrite concat_app. simpl.
    rewrite <- !app_assoc. simpl. by rewrite <- !Permutation_middle. }
  eexists. split.
  - rewrite <- Hs at 1. rewrite <- Hline at 1. apply Hflat.
  - rewrite insert_take_drop by (by eapply lookup_lt_Some).
    rewrite (insert_take_drop line) by (by eapply lookup_lt_Some).
    apply Hflat.
Qed.

Lemma swap_cells_concat (s : State) (p q : nat * nat) :
  concat (swap_cells s p q) ≡ₚ concat s.
Proof.
  unfold swap_cells.
  destruct (cell s p.1 p.2) as [a|] eqn:Ha; [|done].
  destruct (cell s q.1 q.2) as [b|] eqn:Hb; [|done].
  destruct (set_cell_concat s q.1 q.2 a b Hb) as (r1 & Hs & Hs1).
  assert (cell (set_cell s q.1 q.2 a) p.1 p.2 = Some a) as Ha'.
  { rewrite (cell_set_cell _ _ _ _ _ _ _ Hb). by case_decide. }
  destruct (set_cell_concat _ p.1 p.2 b a Ha') as (r2 & Hs1' & Hs2).
  rewrite Hs2, Hs. constructor.
  rewrite Hs1 in Hs1'. symmetry. by eapply Permutation_cons_inv.
Qed.

Lemma set_cell_square (s : State) (i j : nat) (x : string) :
  square s → square (set_cell s i j x).
Proof.
  intros [Hlen Hrows]. split; [by rewrite length_set_cell|].
  unfold set_cell. destruct (s !! i) as [line|] eqn:Hi; [|done].
  apply Forall_insert; [done|]. rewrite length_insert.
  eapply (proj1 (Forall_forall _ _) Hrows). by eapply list_elem_of_lookup_2.
Qed.

Lemma swap_cells_square (s : State) (p q : nat * nat) :
  square s → square (swap_cells s p q).
Proof.
  intros Hs. unfold swap_cells.
  destruct (cell s p.1 p.2), (cell s q.1 q.2); try done.
  by do 2 apply set_cell_square.
Qed.

Lemma Configuration_perm (s s' : State) :
  Configuration s → square s' → concat s' ≡ₚ concat s → Configuration s'.
Proof.
  intros [Hsq Hch Hnd He] Hsq' Hperm. constructor; [done|..]; by rewrite Hperm.
Qed.

Lemma slide_Configuration (s s' : State) :
  Configuration s → slide s s' → Configuration s' ∧ same_labels s' s.
Proof.
  intros Hs (p & q & _ & _ & _ & ->). split.
  - eapply Configuration_perm; [done| |apply swap_cells_concat].
    apply swap_cells_square, Hs.
  - apply swap_cells_concat.
Qed.

Lemma nsteps_slide_Configuration (n : nat) (s s' : State) :
  Configuration s → nsteps slide n s s' → Configuration s' ∧ same_labels s' s.
Proof.
  intros Hs Hsteps. induction Hsteps as [s|n s s1 s2 Hstep _ IH].
  { split; [done|]. by unfold same_labels. }
  destruct (slide_Configuration _ _ Hs Hstep) as [Hs1 Hl1].
  destruct (IH Hs1) as [Hs2 Hl2]. split; [done|].
  unfold same_labels in *. by rewrite Hl2.
Qed.

(** ** The heuristic along a move *)

Lemma square_cell_None (s : State) (i j : nat) :
  square s →
  cell s i j = None ↔
  ¬ ((i < Z.to_nat DIMENSION)%nat ∧ (j < Z.to_nat DIMENSION)%nat).
Proof.
  intros Hs. split.
  - intros Hnone [Hi Hj]. destruct (square_cell s i j Hs Hi Hj) as [x Hx].
    congruence.
  - intros Hout. destruct (cell s i j) as [x|] eqn:Hx; [|done].
    exfalso. apply Hout. by eapply cell_lt.
Qed.

(** A configuration with the target's labels that agrees with the target
    on its tiles is the target. *)
Lemma matches_target_eq (s t : State) :
  Configuration s → Configuration t → same_labels s t →
  matches_target s t → s = t.
Proof.
  intros Hs Ht Hperm Hmatch.
  pose proof (cfg_square _ Hs) as Hsq. pose proof (cfg_square _ Ht) as Htq.
  apply cell_ext; [destruct Hsq, Htq; congruence|]. intros i j.
  destruct (cell t i j) as [y|] eqn:Hy.
  - pose proof (cell_lt _ _ _ _ Htq Hy) as [Hi Hj].
    destruct (decide (y = EMPTY)) as [->|Hne].
    + destruct (square_cell s i j Hsq Hi Hj) as [x Hx]. rewrite Hx. f_equal.
      destruct (decide (x = EMPTY)) as [|Hxe]; [done|]. exfalso.
      assert (x ∈ concat t) as Hin.
      { unfold same_labels in Hperm. rewrite <- Hperm.
        apply elem_of_concat_cell. eauto. }
      apply elem_of_concat_cell in Hin as (k & l & Hkl).
      pose proof (cell_lt _ _ _ _ Htq Hkl) as [Hk Hl].
      assert (cell s k l = Some x) as Hskl.
      { rewrite <- Hkl. apply Hmatch; [done..|]. rewrite Hkl. congruence. }
      pose proof (cell_inj _ _ _ _ _ _ Hsq (cfg_distinct _ Hs) Hx Hskl) as Heq.
      injection Heq as -> ->. congruence.
    + rewrite <- Hy. apply Hmatch; [done..|]. rewrite Hy. congruence.
  - apply square_cell_None in Hy; [|done]. by apply square_cell_None.
Qed.

Lemma matches_target_refl (t : State) : matches_target t t.
Proof. by intros i j _ _ _. Qed.

Lemma filter_length_diff {A} (P Q : A → Prop) `{!∀ x, Decision (P x)}
  `{!∀ x, Decision (Q x)} (l : list A) :
  (length (filter P l)
   ≤ length (filter Q l) + length (filter (λ x, P x ∧ ¬ Q x) l))%nat.
Proof.
  induction l as [|x l IH]; [done|]. rewrite !filter_cons.
  destruct (decide (P x)), (decide (Q x)).
  - rewrite decide_False by tauto. simpl. lia.
  - rewrite decide_True by tauto. simpl. lia.
  - rewrite decide_False by tauto. simpl. lia.
  - rewrite decide_False by tauto. simpl. lia.
Qed.

Lemma filter_length_at_most_one {A} (R : A → Prop) `{!∀ x, Decision (R x)}
  (p : A) (l : list A) :
  NoDup l → (∀ x, x ∈ l → R x → x = p) → (length (filter R l) ≤ 1)%nat.
Proof.
  intros Hnd Hp.
  assert (filter R l ⊆+ [p]) as Hsub.
  { apply NoDup_submseteq; [by apply NoDup_filter|].
    intros x [HR Hin]%list_elem_of_filter. apply list_elem_of_singleton. auto. }
  apply submseteq_length in Hsub. simpl in Hsub. lia.
Qed.

Lemma NoDup_board_positions : NoDup board_positions.
Proof. apply (bool_decide_unpack _). by vm_compute. Qed.

Lemma cell_within (s : State) (q : nat * nat) :
  square s → within_board (point_of q) → is_Some (cell s q.1 q.2).
Proof.
  intros Hs [Hr Hc]. unfold point_of in *. simpl in *.
  apply square_cell; [done|lia..].
Qed.

(** The number of misplaced tiles drops by at most one along a move. *)
Lemma misplaced_count_slide (s s' t : State) :
  square s → slide s s' →
  (misplaced_count s t ≤ misplaced_count s' t + 1)%nat.
Proof.
  intros Hsq (p & q & Hp & Hadj & Hq & ->). unfold misplaced_count.
  etransitivity; [apply (filter_length_diff _ (misplaced_at (swap_cells s p q) t))|].
  apply Nat.add_le_mono_l.
  apply (filter_length_at_most_one _ p); [apply NoDup_board_positions|].
  intros [k l] _ [[Hne Hdiff] Hnot].
  destruct (decide ((k, l) = p)) as [|Hnp]; [done|]. exfalso. apply Hnot.
  split; [done|]. simpl in *.
  rewrite cell_swap_cells by (by eauto using cell_within).
  rewrite decide_False by done.
  case_decide; [by rewrite Hp|done].
Qed.

(** ** [create_children] *)

Lemma forM_map {A B} (body : A → result B) (g : A → B) (l : list A) :
  (∀ x, x ∈ l → body x = Ok (g x)) → forM body l = Ok (map g l).
Proof.
  induction l as [|x l IH]; intros Hbody; simpl; [done|].
  rewrite Hbody by left. simpl. rewrite IH by (intros; apply Hbody; by right).
  done.
Qed.

Lemma forM_elem_of {A B} (body : A → result B) (l : list A) (ys : list B)
  (y : B) :
  forM body l = Ok ys → y ∈ ys → ∃ x, x ∈ l ∧ body x = Ok y.
Proof.
  revert ys. induction l as [|x l IH]; intros ys; simpl.
  - intros [= <-] Hin. by apply elem_of_nil in Hin.
  - destruct (body x) as [y0|] eqn:Hx; simpl; [|done].
    destruct (forM body l) as [ys0|] eqn:Hl; simpl; [|done].
    intros [= <-] [->|Hin]%elem_of_cons.
    + exists x. split; [left|done].
    + destruct (IH ys0 eq_refl Hin) as (x' & ? & ?). exists x'. split; [by right|done].
Qed.

Lemma forM_length {A B} (body : A → result B) (l : list A) (ys : list B) :
  forM body l = Ok ys → length ys = length l.
Proof.
  revert ys. induction l as [|x l IH]; intros ys; simpl.
  - by intros [= <-].
  - destruct (body x) as [y0|]; simpl; [|done].
    destruct (forM body l) as [ys0|]; simpl; [|done].
    intros [= <-]. simpl. f_equal. by apply IH.
Qed.

Lemma elem_of_get_next_empties (p q : Point) :
  q ∈ Node_get_next_empties p ↔ adjacent p q ∧ within_board q.
Proof.
  unfold Node_get_next_empties.
  rewrite list_elem_of_In, filter_In, on_board_within, adjacent_cases.
  simpl. intuition congruence.
Qed.

Lemma length_get_next_empties (p : Point) :
  (length (Node_get_next_empties p) ≤ 4)%nat.
Proof.
  unfold Node_get_next_empties.
  etransitivity; [apply sublist_length, List_filter_sublist|]. done.
Qed.

Lemma point_of_nat_of_point (q : Point) :
  within_board q → point_of (nat_of_point q) = q.
Proof.
  destruct q as [r c]. intros [Hr Hc]. unfold point_of, nat_of_point.
  simpl in *. f_equal; lia.
Qed.

Lemma nat_of_point_of (q : nat * nat) : nat_of_point (point_of q) = q.
Proof.
  destruct q as [i j]. unfold point_of, nat_of_point. simpl.
  by rewrite !Nat2Z.id.
Qed.

Lemma find_empty_Configuration (self : Node) :
  Configuration (Node_state self) →
  ∃ p, cell (Node_state self) p.1 p.2 = Some EMPTY
       ∧ Node_find_empty self = Ok (point_of p).
Proof.
  intros Hcfg. unfold Node_find_empty.
  destruct (find_in_lines _ 0) as [p'|] eqn:E.
  - apply find_in_lines_Some in E as (i & j & -> & Hc & _).
    exists (i, j). split; [done|]. unfold point_of. simpl. zpair.
  - exfalso. pose proof (cfg_empty _ Hcfg) as Hin.
    apply elem_of_concat_cell in Hin as (i & j & Hc).
    by eapply find_in_lines_None.
Qed.

Lemma create_children_Configuration (self : Node) :
  Configuration (Node_state self) → square (Node_target self) →
  ∃ p, cell (Node_state self) p.1 p.2 = Some EMPTY
       ∧ Node_create_children self
         = Ok (map (child_at self p) (Node_get_next_empties (point_of p))).
Proof.
  intros Hcfg Htq. destruct (find_empty_Configuration self Hcfg) as (p & Hp & Hfind).
  exists p. split; [done|]. unfold Node_create_children. rewrite Hfind. simpl.
  apply forM_map. intros next [_ Hnext]%elem_of_get_next_empties.
  unfold Node_get_next_state.
  rewrite <- (point_of_nat_of_point next Hnext) at 1.
  rewrite get_next_state_swap; [|by eauto|].
  - simpl. unfold Node_init.
    rewrite Node_get_h_count; [done| |done].
    apply swap_cells_square, Hcfg.
  - apply cell_within; [apply Hcfg|]. by rewrite point_of_nat_of_point.
Qed.

Lemma slide_child_at (self : Node) (p : nat * nat) (s' : State) :
  Configuration (Node_state self) →
  cell (Node_state self) p.1 p.2 = Some EMPTY →
  slide (Node_state self) s' ↔
  ∃ child, child ∈ map (child_at self p) (Node_get_next_empties (point_of p))
           ∧ Node_state child = s'.
Proof.
  intros Hcfg Hp. split.
  - intros (p' & q & Hp' & Hadj & Hq & ->).
    pose proof (cell_inj _ _ _ _ _ _ (cfg_square _ Hcfg) (cfg_distinct _ Hcfg)
                  Hp Hp') as Heq.
    assert (p' = p) as -> by (destruct p, p'; simpl in *; congruence).
    exists (child_at self p (point_of q)). split.
    + apply list_elem_of_fmap. exists (point_of q). split; [done|].
      by apply elem_of_get_next_empties.
    + simpl. by rewrite nat_of_point_of.
  - intros (child & (next & -> & Hnext)%list_elem_of_fmap & <-).
    apply elem_of_get_next_empties in Hnext as [Hadj Hnext].
    exists p, (nat_of_point next). rewrite point_of_nat_of_point by done.
    by split_and!.
Qed.

(** ** The nodes of a run *)

Lemma Node_init_inv (state target : State) (parent : option Node) (node : Node) :
  Node_init state target parent = Ok node →
  Node_state node = state ∧ Node_target node = target
  ∧ Node_parent node = parent
  ∧ Node_g node = Node_get_g parent
  ∧ Node_get_h state target = Ok (Node_h node)
  ∧ Node_f node = Node_g node + Node_h node.
Proof.
  unfold Node_init. destruct (Node_get_h state target) as [h|]; simpl; [|done].
  by intros [= <-].
Qed.

Lemma create_children_inv (self child : Node) (children : list Node) :
  Node_create_children self = Ok children → child ∈ children →
  ∃ s, Node_init s (Node_target self) (Some self) = Ok child.
Proof.
  unfold Node_create_children.
  destruct (Node_find_empty self) as [empty|]; simpl; [|done].
  intros Hfor Hin. destruct (forM_elem_of _ _ _ _ Hfor Hin) as (next & _ & Hbody).
  destruct (Node_get_next_state self empty next) as [s|]; simpl in Hbody; [|done].
  eauto.
Qed.

Lemma built_facts (start target : State) (node : Node) :
  built start target node →
  Node_target node = target
  ∧ Node_get_h (Node_state node) target = Ok (Node_h node)
  ∧ Node_f node = Node_g node + Node_h node
  ∧ Node_g node = Z.of_nat (Node_depth node).
Proof.
  induction 1 as [root Hroot|parent children child _ IH Hchildren Hin].
  - apply Node_init_inv in Hroot as (<- & -> & Hp & Hg & Hh & Hf).
    split_and!; [done..|]. destruct root; simpl in *. by subst.
  - destruct IH as (Ht & _ & _ & Hg).
    destruct (create_children_inv _ _ _ Hchildren Hin) as [s Hinit].
    apply Node_init_inv in Hinit as (<- & Ht' & Hp & Hg' & Hh & Hf).
    split_and!; [congruence|congruence|done|].
    destruct child; simpl in *. subst. simpl. lia.
Qed.

Lemma built_valid (start target : State) (node : Node) :
  Configuration start → square target →
  built start target node →
  Configuration (Node_state node)
  ∧ nsteps slide (Node_depth node) start (Node_state node).
Proof.
  intros Hstart Htq.
  induction 1 as [root Hroot|parent children child Hparent IH Hchildren Hin].
  - apply Node_init_inv in Hroot as (Hs & _ & Hp & _).
    destruct root; simpl in *. subst. split; [done|constructor].
  - destruct IH as [Hcfg Hpath].
    pose proof (built_facts _ _ _ Hparent) as (Ht & _).
    destruct (create_children_Configuration parent Hcfg) as (p & Hp & Hcs);
      [by rewrite Ht|].
    rewrite Hcs in Hchildren. injection Hchildren as <-.
    assert (slide (Node_state parent) (Node_state child)) as Hslide.
    { apply (slide_child_at parent p); [done..|]. eauto. }
    split; [by eapply slide_Configuration|].
    apply list_elem_of_fmap in Hin as (next & -> & _). simpl.
    eapply nsteps_r; [done|]. apply Hslide.
Qed.

(** ** The invariant of the loop *)

Lemma go_loop_mono (a b : nat) (candidates : CandidateQueue)
  (history : gmap string Node) (o : outcome) :
  go_loop a candidates history = Some o → (a ≤ b)%nat →
  go_loop b candidates history = Some o.
Proof.
  revert b candidates history.
  induction a as [|a IH]; intros b c h Ha Hab; [done|].
  destruct b as [|b]; [lia|]. simpl in *.
  destruct (go_step c h); [done|]. apply IH; [done|lia].
Qed.


Section Search.
Context (start target : State).
Context (Hstart : Configuration start) (Htarget : Configuration target).
Context (Hlabels : same_labels start target).

Lemma built_h (n : Node) :
  built start target n →
  Node_h n = Z.of_nat (misplaced_count (Node_state n) target).
Proof.
  intros Hn. pose proof (built_facts _ _ _ Hn) as (_ & Hh & _).
  pose proof (built_valid _ _ _ Hstart (cfg_square _ Htarget) Hn) as [Hcfg _].
  rewrite Node_get_h_count in Hh by (done || apply Hcfg || apply Htarget).
  by injection Hh.
Qed.

Lemma built_is_target (n : Node) :
  built start target n →
  Node_is_target n = true ↔ Node_state n = target.
Proof.
  intros Hn. pose proof (built_h n Hn) as Hh.
  pose proof (built_valid _ _ _ Hstart (cfg_square _ Htarget) Hn) as [Hcfg Hpath].
  unfold Node_is_target. rewrite Z.eqb_eq, Hh. split.
  - intros H0. apply matches_target_eq; [done..| |].
    + apply nsteps_slide_Configuration in Hpath as [_ Hl]; [|done].
      unfold same_labels in *. by rewrite Hl.
    + apply misplaced_count_0. lia.
  - intros ->. pose proof (proj2 (misplaced_count_0 target target)
                             (matches_target_refl target)). lia.
Qed.

Lemma reachable_repr_inj (m : nat) (t : State) (n : Node) :
  nsteps slide m start t → built start target n →
  repr_of t = Node_repr n → Node_state n = t.
Proof.
  intros Hpath Hn Hkey.
  apply nsteps_slide_Configuration in Hpath as [Ht _]; [|done].
  pose proof (built_valid _ _ _ Hstart (cfg_square _ Htarget) Hn) as [Hcfg _].
  symmetry. apply repr_of_inj; [apply Ht|apply Hcfg|apply Ht|apply Hcfg|done].
Qed.

(** Every state at distance [m] from the start is either already
    expanded, at a depth of at most [m], or announced in the queue by a
    node whose [f] is at most [m] plus its heuristic. *)
Lemma frontier_bound (candidates : CandidateQueue)
  (history : gmap string Node) (m : nat) (t : State) :
  go_inv start target candidates history →
  nsteps slide m start t →
  (∃ n, history !! repr_of t = Some n ∧ Node_state n = t
        ∧ (Node_depth n ≤ m)%nat)
  ∨ (∃ x, x ∈ candidates
          ∧ Node_f x ≤ Z.of_nat m + Z.of_nat (misplaced_count t target)).
Proof.
  intros Hinv. revert t. induction m as [|m IH]; intros t Hpath.
  - assert (t = start) as -> by (by inversion Hpath).
    destruct (inv_start _ _ _ _ Hinv) as [[n Hn]|(c & Hc & Hs & Hg)].
    + left. exists n.
      destruct (inv_closed _ _ _ _ Hinv _ _ Hn) as (Hb & Hk & _ & Hopt & _).
      assert (Node_state n = start) as Hstate
        by (eapply (reachable_repr_inj 0); [constructor|done..]).
      split_and!; [done..|]. apply Hopt. rewrite Hstate. constructor.
    + right. exists c. split; [done|].
      pose proof (inv_built _ _ _ _ Hinv _ Hc) as Hb.
      pose proof (built_facts _ _ _ Hb) as (_ & _ & Hf & _).
      rewrite Hf, (built_h c Hb), Hs, Hg. lia.
  - apply nsteps_inv_r in Hpath as (u & Hpath & Hstep).
    assert (nsteps slide (S m) start t) as Hpath' by (by eapply nsteps_r).
    destruct (IH u Hpath) as [(n & Hn & Hu & Hd)|(x & Hx & Hf)].
    + destruct (inv_closed _ _ _ _ Hinv _ _ Hn) as (Hb & _ & _ & _ & Hch).
      rewrite Hu in Hch.
      destruct (Hch t Hstep) as [[n' Hn']|(c & Hc & Hs & Hg)].
      * left. exists n'.
        destruct (inv_closed _ _ _ _ Hinv _ _ Hn') as (Hb' & Hk' & _ & Hopt & _).
        assert (Node_state n' = t) as Hstate
          by (by eapply reachable_repr_inj).
        split_and!; [done..|]. apply Hopt. by rewrite Hstate.
      * right. exists c. split; [done|].
        pose proof (inv_built _ _ _ _ Hinv _ Hc) as Hbc.
        pose proof (built_facts _ _ _ Hbc) as (_ & _ & Hf & _).
        pose proof (built_facts _ _ _ Hb) as (_ & _ & _ & Hgn).
        rewrite Hf, (built_h c Hbc), Hs, Hg, Hgn. lia.
    + right. exists x. split; [done|].
      apply nsteps_slide_Configuration in Hpath as [Hu _]; [|done].
      pose proof (misplaced_count_slide u t target (cfg_square _ Hu) Hstep).
      lia.
Qed.

Lemma closed_not_target (candidates : CandidateQueue)
  (history : gmap string Node) (m : nat) (n : Node) :
  go_inv start target candidates history →
  history !! repr_of target = Some n → nsteps slide m start target → False.
Proof.
  intros Hinv Hn Hpath.
  destruct (inv_closed _ _ _ _ Hinv _ _ Hn) as (Hb & Hk & Hnt & _).
  assert (Node_state n = target) as Hs by (by eapply reachable_repr_inj).
  apply (built_is_target n Hb) in Hs. congruence.
Qed.

Lemma head_minimal (x x' : Node) (rest : CandidateQueue) :
  StronglySorted (λ x y, Node_f x ≤ Node_f y) (x :: rest) →
  x' ∈ x :: rest → Node_f x ≤ Node_f x'.
Proof.
  intros [Hx _]%StronglySorted_cons [->|Hin]%elem_of_cons; [lia|].
  by apply (proj1 (Forall_forall _ _) Hx).
Qed.

Lemma go_inv_empty_unreachable (history : gmap string Node) :
  go_inv start target [] history → ¬ reachable start target.
Proof.
  intros Hinv [m Hpath].
  destruct (frontier_bound _ _ m target Hinv Hpath)
    as [(n & Hn & _)|(x & Hx & _)].
  - by eapply closed_not_target.
  - by apply elem_of_nil in Hx.
Qed.

Lemma go_inv_target_shortest (x : Node) (rest : CandidateQueue)
  (history : gmap string Node) :
  go_inv start target (x :: rest) history →
  Node_is_target x = true →
  go_result start target (Return (Node_print_branch x) (Node_f x)).
Proof.
  intros Hinv Ht. right. exists x.
  assert (built start target x) as Hb by (apply (inv_built _ _ _ _ Hinv); left).
  pose proof (built_facts _ _ _ Hb) as (_ & _ & Hf & Hg).
  pose proof (built_valid _ _ _ Hstart (cfg_square _ Htarget) Hb) as [_ Hpath].
  pose proof (proj1 (built_is_target x Hb) Ht) as Hs.
  assert (Node_h x = 0) as Hh by (by apply Z.eqb_eq).
  split_and!; [done..|f_equal; lia|done|]. rewrite Hs in Hpath.
  split; [done|]. intros m Hm.
  destruct (frontier_bound _ _ m target Hinv Hm)
    as [(n & Hn & _)|(x' & Hx' & Hle)].
  - exfalso. by eapply closed_not_target.
  - pose proof (head_minimal _ _ _ (inv_sorted _ _ _ _ Hinv) Hx').
    pose proof (proj2 (misplaced_count_0 target target)
                  (matches_target_refl target)). lia.
Qed.

Lemma go_inv_popped_optimal (x : Node) (rest : CandidateQueue)
  (history : gmap string Node) (m : nat) :
  go_inv start target (x :: rest) history →
  HistoryMap_contains x history = false →
  nsteps slide m start (Node_state x) → (Node_depth x ≤ m)%nat.
Proof.
  intros Hinv Hc Hm.
  assert (built start target x) as Hb by (apply (inv_built _ _ _ _ Hinv); left).
  pose proof (built_facts _ _ _ Hb) as (_ & _ & Hf & Hg).
  destruct (frontier_bound _ _ m _ Hinv Hm)
    as [(n & Hn & _)|(x' & Hx' & Hle)].
  - exfalso. apply bool_decide_eq_false in Hc. apply Hc.
    unfold Node_repr. by rewrite Hn.
  - pose proof (head_minimal _ _ _ (inv_sorted _ _ _ _ Hinv) Hx').
    rewrite <- (built_h x Hb) in Hle. lia.
Qed.

Lemma go_inv_discard (x : Node) (rest : CandidateQueue)
  (history : gmap string Node) :
  go_inv start target (x :: rest) history →
  HistoryMap_contains x history = true →
  go_inv start target rest history.
Proof.
  intros Hinv Hc. apply bool_decide_eq_true in Hc. constructor.
  - intros n Hn. apply (inv_built _ _ _ _ Hinv). by right.
  - by destruct (proj1 (StronglySorted_cons _ _ _) (inv_sorted _ _ _ _ Hinv)).
  - intros k n Hkn.
    destruct (inv_closed _ _ _ _ Hinv _ _ Hkn) as (Hb & Hk & Hnt & Hopt & Hch).
    split_and!; [done..|]. intros s' Hs'.
    destruct (Hch s' Hs') as [?|(c & [->|Hin]%elem_of_cons & Hs & Hg)]; eauto.
    left. by rewrite <- Hs.
  - destruct (inv_start _ _ _ _ Hinv)
      as [?|(c & [->|Hin]%elem_of_cons & Hs & Hg)]; eauto.
    left. by rewrite <- Hs.
Qed.

Lemma go_inv_expand (x : Node) (rest : CandidateQueue)
  (history : gmap string Node) (children : list Node) :
  go_inv start target (x :: rest) history →
  Node_is_target x = false →
  HistoryMap_contains x history = false →
  Node_create_children x = Ok children →
  go_inv start target (CandidateQueue_push (inr children) rest)
         (HistoryMap_add x history).
Proof.
  intros Hinv Hnt Hc Hchildren.
  assert (built start target x) as Hb by (apply (inv_built _ _ _ _ Hinv); left).
  pose proof (built_facts _ _ _ Hb) as (Htx & _).
  pose proof (built_valid _ _ _ Hstart (cfg_square _ Htarget) Hb) as [Hcfg _].
  assert (∀ n, n ∈ CandidateQueue_push (inr children) rest
               ↔ n ∈ rest ∨ n ∈ children) as Hpush.
  { intros n. unfold CandidateQueue_push, queue_push.
    rewrite (list_sort_perm Node_f). apply elem_of_app. }
  assert (∀ s', history !! repr_of s' = None ∨
                is_Some (HistoryMap_add x history !! repr_of s')) as Hkeep.
  { intros s'. destruct (history !! repr_of s') as [n|] eqn:Hn; [right|by left].
    unfold HistoryMap_add. apply lookup_insert_is_Some'. right. by rewrite Hn. }
  assert (∀ s' c, c ∈ x :: rest → Node_state c = s' →
            is_Some (HistoryMap_add x history !! repr_of s')
            ∨ ∃ c', c' ∈ CandidateQueue_push (inr children) rest
                    ∧ Node_state c' = s' ∧ Node_g c' = Node_g c) as Hmoved.
  { intros s' c [->|Hin]%elem_of_cons <-.
    - left. unfold HistoryMap_add. apply lookup_insert_is_Some'. by left.
    - right. exists c. split_and!; [|done..]. apply Hpush. by left. }
  constructor.
  - intros n [Hn|Hn]%Hpush.
    + apply (inv_built _ _ _ _ Hinv). by right.
    + by eapply built_child.
  - apply (list_sort_sorted Node_f).
  - intros k n Hkn. unfold HistoryMap_add in Hkn.
    apply lookup_insert_Some in Hkn as [[<- <-]|[Hne Hkn]].
    + split_and!; [done..| |].
      * intros m Hm. by eapply go_inv_popped_optimal.
      * intros s' Hs'. right.
        destruct (create_children_Configuration x Hcfg) as (p & Hp & Hcs);
          [rewrite Htx; apply Htarget|].
        rewrite Hcs in Hchildren. injection Hchildren as <-.
        apply (slide_child_at x p) in Hs' as (child & Hin & Hs); [|done..].
        exists child. split_and!; [apply Hpush; by right|done|].
        apply list_elem_of_fmap in Hin as (next & -> & _). done.
    + destruct (inv_closed _ _ _ _ Hinv _ _ Hkn) as (Hbn & Hk & Hntn & Hopt & Hch).
      split_and!; [done..|]. intros s' Hs'.
      destruct (Hch s' Hs') as [Hsome|(c & Hin & Hs & Hg)].
      * left. destruct (Hkeep s') as [Hnone|?]; [|done].
        rewrite Hnone in Hsome. by destruct Hsome.
      * destruct (Hmoved s' c Hin Hs) as [?|(c' & ? & ? & Hg')]; [by left|].
        right. exists c'. split_and!; [done..|]. by rewrite Hg'.
  - destruct (inv_start _ _ _ _ Hinv) as [Hsome|(c & Hin & Hs & Hg)].
    + left. destruct (Hkeep start) as [Hnone|?]; [|done].
      rewrite Hnone in Hsome. by destruct Hsome.
    + destruct (Hmoved start c Hin Hs) as [?|(c' & ? & ? & Hg')]; [by left|].
      right. exists c'. split_and!; [done..|]. by rewrite Hg'.
Qed.

(** The history never holds more entries than there are boards with the
    labels of the start. *)
Lemma closed_bound (candidates : CandidateQueue)
  (history : gmap string Node) :
  go_inv start target candidates history →
  (size history ≤ boards_bound start)%nat.
Proof.
  intros Hinv. unfold boards_bound.
  rewrite <- length_map_to_list.
  rewrite <- (length_fmap (λ kn, concat (Node_state kn.2))).
  apply submseteq_length, NoDup_submseteq.
  - apply NoDup_fmap_2_strong; [|apply NoDup_map_to_list].
    intros [k n] [k' n'] Hkn%elem_of_map_to_list Hkn'%elem_of_map_to_list Heq.
    simpl in Heq.
    destruct (inv_closed _ _ _ _ Hinv _ _ Hkn) as (Hb & -> & _).
    destruct (inv_closed _ _ _ _ Hinv _ _ Hkn') as (Hb' & -> & _).
    pose proof (built_valid _ _ _ Hstart (cfg_square _ Htarget) Hb) as [Hc _].
    pose proof (built_valid _ _ _ Hstart (cfg_square _ Htarget) Hb') as [Hc' _].
    apply concat_square_inj in Heq; [|apply Hc|apply Hc'].
    unfold Node_repr in *. rewrite Heq in Hkn. f_equal; congruence.
  - intros l ([k n] & -> & Hkn%elem_of_map_to_list)%list_elem_of_fmap.
    simpl. destruct (inv_closed _ _ _ _ Hinv _ _ Hkn) as (Hb & _).
    pose proof (built_valid _ _ _ Hstart (cfg_square _ Htarget) Hb) as [_ Hpath].
    apply nsteps_slide_Configuration in Hpath as [_ Hl]; [|done].
    apply permutations_Permutation. by symmetry.
Qed.

(** One iteration either ends the loop with a right result or keeps the
    invariant and decreases the measure. *)
Lemma go_step_progress (candidates : CandidateQueue)
  (history : gmap string Node) :
  go_inv start target candidates history →
  match go_step candidates history with
  | Stop o => go_result start target o
  | Continue candidates' history' =>
      go_inv start target candidates' history'
      ∧ (go_measure start candidates' history'
         < go_measure start candidates history)%nat
  end.
Proof.
  intros Hinv. destruct candidates as [|x rest].
  { left. split; [done|]. by eapply go_inv_empty_unreachable. }
  unfold go_step. simpl.
  destruct (Node_is_target x) eqn:Ht; [by eapply go_inv_target_shortest|].
  destruct (HistoryMap_contains x history) eqn:Hc.
  { split; [by eapply go_inv_discard|]. unfold go_measure. simpl. lia. }
  assert (built start target x) as Hb by (apply (inv_built _ _ _ _ Hinv); left).
  pose proof (built_facts _ _ _ Hb) as (Htx & _).
  pose proof (built_valid _ _ _ Hstart (cfg_square _ Htarget) Hb) as [Hcfg _].
  destruct (create_children_Configuration x Hcfg) as (p & Hp & Hcs);
    [rewrite Htx; apply Htarget|].
  rewrite Hcs.
  pose proof (go_inv_expand _ _ _ _ Hinv Ht Hc Hcs) as Hinv'.
  split; [done|].
  pose proof (closed_bound _ _ Hinv') as Hsize.
  unfold go_measure, HistoryMap_add in *.
  rewrite map_size_insert_None in *
    by (apply bool_decide_eq_false in Hc; by apply eq_None_not_Some).
  unfold CandidateQueue_push, queue_push.
  rewrite (list_sort_perm Node_f), length_app, length_map.
  pose proof (length_get_next_empties (point_of p)). simpl. lia.
Qed.

Lemma go_loop_result (candidates : CandidateQueue)
  (history : gmap string Node) :
  go_inv start target candidates history →
  ∃ o, go_loop (S (go_measure start candidates history)) candidates history
       = Some o
       ∧ go_result start target o.
Proof.
  remember (go_measure start candidates history) as mu eqn:Hmu.
  revert candidates history Hmu.
  induction (lt_wf mu) as [mu _ IH]. intros candidates history -> Hinv.
  pose proof (go_step_progress _ _ Hinv) as Hstep. simpl.
  destruct (go_step candidates history) as [o|candidates' history'].
  - by exists o.
  - destruct Hstep as [Hinv' Hlt].
    destruct (IH _ Hlt candidates' history' eq_refl Hinv') as (o & Hrun & Ho).
    exists o. split; [|done].
    eapply go_loop_mono; [done|lia].
Qed.
End Search.

(** ** [go] *)

Lemma go_inv_init (start target : State) (root : Node) :
  Node_init start target None = Ok root →
  go_inv start target (CandidateQueue_init [root]) HistoryMap_init.
Proof.
  intros Hroot. unfold CandidateQueue_init, HistoryMap_init. constructor.
  - intros n ->%list_elem_of_singleton. by constructor.
  - by repeat constructor.
  - intros k n Hkn. by rewrite lookup_empty in Hkn.
  - right. exists root. apply Node_init_inv in Hroot as (Hs & _ & _ & Hg & _).
    split_and!; [left|done..].
Qed.

(** On configurations with the same labels [go] returns, and what it
    returns is right: the failure value when the target cannot be reached,
    the length of a shortest sequence of moves otherwise. *)
Lemma go_correct (start target : State) :
  Configuration start → Configuration target → same_labels start target →
  ∃ fuel o,
    (∀ fuel', (fuel ≤ fuel')%nat → go fuel' start target = Some o)
    ∧ go_result start target o.
Proof.
  intros Hstart Htarget Hlabels.
  destruct (Node_init_square start target None) as (root & Hroot & _);
    [apply Hstart|apply Htarget|].
  pose proof (go_inv_init _ _ _ Hroot) as Hinv.
  destruct (go_loop_result _ _ Hstart Htarget Hlabels _ _ Hinv) as (o & Hrun & Ho).
  eexists _, o. split; [|done]. intros fuel' Hle. unfold go. rewrite Hroot.
  by eapply go_loop_mono.
Qed.

(** C1. For a start and a target that satisfy the Configuration invariant
    and carry the same labels, with the target reachable from the start,
    [go] returns a step count that is the length of a shortest sequence of
    moves from the start to the target. *)
Theorem go_returns_shortest_distance (start target : State) :
  Configuration start → Configuration target → same_labels start target →
  reachable start target →
  ∃ fuel printed d,
    (∀ fuel', (fuel ≤ fuel')%nat →
       go fuel' start target = Some (Return printed (Z.of_nat d)))
    ∧ shortest start target d.
Proof.
  intros Hstart Htarget Hlabels Hreach.
  destruct (go_correct start target) as (fuel & o & Hgo & Ho); [done..|].
  destruct Ho as [[_ Hno]|(c & Hb & _ & -> & _ & Hshort)]; [done|].
  pose proof (built_facts _ _ _ Hb) as (_ & _ & _ & Hg). rewrite Hg in Hgo.
  by exists fuel, (Node_print_branch c), (Node_depth c).
Qed.

(** C6. For a start and a target that satisfy the Configuration invariant
    and carry the same labels, [go] terminates: some number of iterations
    is enough for it to return, and it returns either a step count or the
    failure value, without raising. *)
Theorem go_terminates (start target : State) :
  Configuration start → Configuration target → same_labels start target →
  ∃ fuel printed value,
    (∀ fuel', (fuel ≤ fuel')%nat →
       go fuel' start target = Some (Return printed value))
    ∧ ((value = -1 ∧ printed = []) ∨ 0 ≤ value).
Proof.
  intros Hstart Htarget Hlabels.
  destruct (go_correct start target) as (fuel & o & Hgo & Ho); [done..|].
  destruct Ho as [[-> _]|(c & Hb & _ & -> & _)].
  - exists fuel, [], (-1). split; [done|]. by left.
  - exists fuel, (Node_print_branch c), (Node_g c). split; [done|]. right.
    pose proof (built_facts _ _ _ Hb) as (_ & _ & _ & Hg). lia.
Qed.

(** ** What an iteration does *)

Lemma go_step_Continue (candidates candidates' : CandidateQueue)
  (history history' : gmap string Node) :
  go_step candidates history = Continue candidates' history' →
  ∃ x rest,
    candidates = x :: rest ∧ Node_is_target x = false
    ∧ ((HistoryMap_contains x history = true
        ∧ candidates' = rest ∧ history' = history)
       ∨ (HistoryMap_contains x history = false
          ∧ ∃ children,
              Node_create_children x = Ok children
              ∧ candidates' = CandidateQueue_push (inr children) rest
              ∧ history' = HistoryMap_add x history)).
Proof.
  destruct candidates as [|x rest]; [done|]. unfold go_step. simpl.
  destruct (Node_is_target x) eqn:Ht; [done|].
  destruct (HistoryMap_contains x history) eqn:Hc.
  - intros [= <- <-]. exists x, rest. split_and!; [done..|]. by left.
  - destruct (Node_create_children x) as [children|] eqn:Hcs; [|done].
    intros [= <- <-]. exists x, rest. split_and!; [done..|]. right. eauto.
Qed.

Lemma go_step_Stop (candidates : CandidateQueue) (history : gmap string Node)
  (o : outcome) :
  go_step candidates history = Stop o →
  (candidates = [] ∧ o = Return [] (-1))
  ∨ (∃ x rest, candidates = x :: rest ∧ Node_is_target x = true
               ∧ o = Return (Node_print_branch x) (Node_f x))
  ∨ (∃ x rest e, candidates = x :: rest ∧ Node_is_target x = false
                 ∧ HistoryMap_contains x history = false
                 ∧ Node_create_children x = Raise e ∧ o = Raised e).
Proof.
  destruct candidates as [|x rest]; [simpl; intros [= <-]; by left|].
  unfold go_step. simpl.
  destruct (Node_is_target x) eqn:Ht; [intros [= <-]; right; left; eauto|].
  destruct (HistoryMap_contains x history) eqn:Hc; [done|].
  destruct (Node_create_children x) as [children|e] eqn:Hcs; [done|].
  intros [= <-]. right. right. by exists x, rest, e.
Qed.

Lemma elem_of_CandidateQueue_push (n : Node) (nodes rest : list Node) :
  n ∈ CandidateQueue_push (inr nodes) rest ↔ n ∈ rest ∨ n ∈ nodes.
Proof.
  unfold CandidateQueue_push, queue_push.
  rewrite (list_sort_perm Node_f). apply elem_of_app.
Qed.

Lemma go_step_built (start target : State) (candidates candidates' : CandidateQueue)
  (history history' : gmap string Node) :
  (∀ n, n ∈ candidates → built start target n) →
  go_step candidates history = Continue candidates' history' →
  ∀ n, n ∈ candidates' → built start target n.
Proof.
  intros Hb (x & rest & -> & _ & Hcases)%go_step_Continue n Hn.
  destruct Hcases as [(_ & -> & _)|(_ & children & Hcs & -> & _)].
  - apply Hb. by right.
  - apply elem_of_CandidateQueue_push in Hn as [Hn|Hn].
    + apply Hb. by right.
    + eapply built_child; [|done..]. apply Hb. left.
Qed.

Lemma go_loop_Return (start target : State) (fuel : nat)
  (candidates : CandidateQueue) (history : gmap string Node)
  (printed : list string) (value : Z) :
  (∀ n, n ∈ candidates → built start target n) →
  go_loop fuel candidates history = Some (Return printed value) →
  (value = -1 ∧ printed = [])
  ∨ ∃ c, built start target c ∧ Node_is_target c = true
         ∧ value = Node_g c ∧ Node_g c = Z.of_nat (Node_depth c)
         ∧ printed = Node_print_branch c.
Proof.
  revert candidates history.
  induction fuel as [|fuel IH]; intros candidates history Hb; [done|]. simpl.
  destruct (go_step candidates history) as [o|candidates' history'] eqn:Hstep.
  - intros [= ->].
    apply go_step_Stop in Hstep
      as [[_ Ho]|[(x & rest & -> & Ht & Ho)|(x & rest & e & _ & _ & _ & _ & Ho)]];
      [| |done].
    + injection Ho as -> ->. by left.
    + injection Ho as -> ->. right. exists x. assert (built start target x) as Hx by (apply Hb; left).
      pose proof (built_facts _ _ _ Hx) as (_ & _ & Hf & Hg).
      apply Z.eqb_eq in Ht as Hh. split_and!; [done..|lia|done|done].
  - apply IH. by eapply go_step_built.
Qed.

(** C2. The node built by [__init__] has [g = 0] when it has no parent and
    its parent's [g] plus one otherwise; when [go] pops a node that matches
    the target it returns that node's [g]; so whatever [go] returns other
    than the failure value is the [g] of a node that matches the target,
    which is the number of moves on its branch from the start. *)
Theorem go_returns_g_of_goal (start target : State) :
  (∀ state parent node,
     Node_init state target parent = Ok node →
     Node_g node = match parent with
                   | None => 0
                   | Some p => Node_g p + 1
                   end)
  ∧ (∀ candidate rest history,
       built start target candidate → Node_is_target candidate = true →
       go_step (candidate :: rest) history
       = Stop (Return (Node_print_branch candidate) (Node_g candidate)))
  ∧ (∀ fuel printed value,
       go fuel start target = Some (Return printed value) →
       (value = -1 ∧ printed = [])
       ∨ ∃ goal, built start target goal ∧ Node_is_target goal = true
                 ∧ value = Node_g goal
                 ∧ Node_g goal = Z.of_nat (Node_depth goal)
                 ∧ printed = Node_print_branch goal).
Proof.
  split_and!.
  - intros state parent node (_ & _ & _ & Hg & _)%Node_init_inv. done.
  - intros candidate rest history Hb Ht. unfold go_step. simpl. rewrite Ht.
    pose proof (built_facts _ _ _ Hb) as (_ & _ & Hf & _).
    apply Z.eqb_eq in Ht. do 2 f_equal. lia.
  - intros fuel printed value. unfold go.
    destruct (Node_init start target None) as [root|] eqn:Hroot; [|done].
    apply go_loop_Return. intros n ->%list_elem_of_singleton. by constructor.
Qed.

(** ** The history map along a run *)

Lemma run_inv_step (start target : State) (candidates candidates' : CandidateQueue)
  (history history' : gmap string Node) :
  run_inv start target candidates history →
  go_step candidates history = Continue candidates' history' →
  run_inv start target candidates' history'.
Proof.
  intros [Hb Hh] Hstep. split; [by eapply go_step_built|].
  apply go_step_Continue in Hstep as (x & rest & -> & Ht & Hcases).
  destruct Hcases as [(_ & _ & ->)|(_ & children & _ & _ & ->)]; [done|].
  unfold HistoryMap_add.
  intros k n [[<- <-]|[_ Hkn]]%lookup_insert_Some; [|by apply Hh].
  split_and!; [done| |done]. apply Hb. left.
Qed.

Lemma go_step_history_mono (candidates candidates' : CandidateQueue)
  (history history' : gmap string Node) (k : string) :
  go_step candidates history = Continue candidates' history' →
  is_Some (history !! k) → is_Some (history' !! k).
Proof.
  intros (x & rest & -> & Ht & Hcases)%go_step_Continue Hk.
  destruct Hcases as [(_ & _ & ->)|(_ & children & _ & _ & ->)]; [done|].
  unfold HistoryMap_add. apply lookup_insert_is_Some'. by right.
Qed.

Lemma go_state_history_mono (fuel : nat) (candidates candidates' : CandidateQueue)
  (history history' : gmap string Node) (k : string) :
  go_state fuel candidates history = Some (candidates', history') →
  is_Some (history !! k) → is_Some (history' !! k).
Proof.
  revert candidates history. induction fuel as [|fuel IH]; intros c h; simpl.
  - by intros [= <- <-].
  - destruct (go_step c h) as [|c1 h1] eqn:Hstep; [done|].
    intros Hst Hk. eapply IH; [done|]. by eapply go_step_history_mono.
Qed.

Lemma added_by_step_Stop (candidates : CandidateQueue)
  (history : gmap string Node) (o : outcome) :
  go_step candidates history = Stop o → added_by_step candidates history = [].
Proof. unfold added_by_step. destruct candidates; [done|]. by intros ->. Qed.

Lemma added_by_step_Continue (x : Node) (rest candidates' : CandidateQueue)
  (history history' : gmap string Node) :
  go_step (x :: rest) history = Continue candidates' history' →
  added_by_step (x :: rest) history
  = if HistoryMap_contains x history then [] else [x].
Proof. unfold added_by_step. by intros ->. Qed.

Lemma go_added_spec (start target : State) (fuel : nat)
  (candidates : CandidateQueue) (history : gmap string Node) :
  run_inv start target candidates history →
  NoDup (Node_repr <$> go_added fuel candidates history)
  ∧ (∀ n, n ∈ go_added fuel candidates history →
          history !! Node_repr n = None
          ∧ built start target n ∧ Node_is_target n = false)
  ∧ (∀ candidates' history',
       go_state fuel candidates history = Some (candidates', history') →
       run_inv start target candidates' history'
       ∧ ∀ n, n ∈ go_added fuel candidates history →
              is_Some (history' !! Node_repr n)).
Proof.
  revert candidates history.
  induction fuel as [|fuel IH]; intros candidates history Hinv.
  { simpl. split_and!; [constructor|by intros n ?%elem_of_nil|].
    intros ? ? [= <- <-]. split; [done|]. by intros n ?%elem_of_nil. }
  simpl.
  destruct (go_step candidates history) as [o|candidates1 history1] eqn:Hstep.
  { rewrite (added_by_step_Stop _ _ _ Hstep). simpl.
    split_and!; [constructor|by intros n ?%elem_of_nil|done]. }
  pose proof (run_inv_step _ _ _ _ _ _ Hinv Hstep) as Hinv1.
  destruct (IH _ _ Hinv1) as (Hnd & Hnew & Hstate).
  pose proof Hstep as (x & rest & -> & Ht & Hcases)%go_step_Continue.
  rewrite (added_by_step_Continue _ _ _ _ _ Hstep).
  destruct Hcases as [(Hc & -> & ->)|(Hc & children & Hcs & -> & ->)];
    rewrite Hc; simpl; [done|].
  assert (history !! Node_repr x = None) as Hx.
  { apply bool_decide_eq_false in Hc. by apply eq_None_not_Some. }
  unfold HistoryMap_add in *. split_and!.
  - apply NoDup_cons. split; [|done].
    intros (n & Hk & Hn)%list_elem_of_fmap.
    destruct (Hnew n Hn) as (Hnone & _).
    rewrite <- Hk, lookup_insert_eq in Hnone. done.
  - intros n [->|Hn]%elem_of_cons.
    + split_and!; [done| |done]. apply Hinv. left.
    + destruct (Hnew n Hn) as (Hnone & ? & ?). split_and!; [|done..].
      by apply lookup_insert_None in Hnone as [? _].
  - intros c' h' Hst. destruct (Hstate c' h' Hst) as [Hinv' Hdom].
    split; [done|]. intros n [->|Hn]%elem_of_cons; [|by apply Hdom].
    eapply go_state_history_mono; [done|]. by rewrite lookup_insert_eq.
Qed.

(** C4. In a run of [go] no key is handed twice to [history.add]; a node
    popped when a node of the same configuration has been added before is
    dropped, with nothing added and nothing pushed; and the key tells
    apart any two boards of [DIMENSION] rows of [DIMENSION]
    single-character labels. *)
Theorem history_adds_each_key_once (start target : State) (root : Node)
  (fuel : nat) :
  Node_init start target None = Ok root →
  let added := go_added fuel (CandidateQueue_init [root]) HistoryMap_init in
  NoDup (Node_repr <$> added)
  ∧ (∀ candidate rest history visited,
       go_state fuel (CandidateQueue_init [root]) HistoryMap_init
       = Some (candidate :: rest, history) →
       visited ∈ added → Node_state visited = Node_state candidate →
       go_step (candidate :: rest) history = Continue rest history
       ∧ added_by_step (candidate :: rest) history = [])
  ∧ (∀ s s',
       square s → square s' →
       Forall (λ tile, String.length tile = 1%nat) (concat s) →
       Forall (λ tile, String.length tile = 1%nat) (concat s') →
       s ≠ s' → repr_of s ≠ repr_of s').
Proof.
  intros Hroot added.
  assert (run_inv start target (CandidateQueue_init [root]) HistoryMap_init)
    as Hinv.
  { split.
    - intros n ->%list_elem_of_singleton. by constructor.
    - intros k n Hkn. unfold HistoryMap_init in Hkn.
      by rewrite lookup_empty in Hkn. }
  destruct (go_added_spec _ _ fuel _ _ Hinv) as (Hnd & Hnew & Hstate).
  split_and!; [done| |].
  - intros candidate rest history visited Hst Hv Heq.
    destruct (Hstate _ _ Hst) as [[Hb _] Hdom].
    destruct (Hnew _ Hv) as (_ & Hbv & Hntv).
    assert (Node_is_target candidate = false) as Hnt.
    { assert (built start target candidate) as Hbc by (apply Hb; left).
      pose proof (built_facts _ _ _ Hbc) as (_ & Hh & _).
      pose proof (built_facts _ _ _ Hbv) as (_ & Hh' & _).
      rewrite Heq, Hh in Hh'. injection Hh' as Hh'.
      unfold Node_is_target in *. by rewrite Hh'. }
    assert (HistoryMap_contains candidate history = true) as Hc.
    { apply bool_decide_eq_true. unfold Node_repr. rewrite <- Heq.
      by apply Hdom. }
    unfold added_by_step, go_step. simpl. by rewrite Hnt, Hc.
  - intros s s' Hs Hs' Hc Hc' Hne Heq. apply Hne. by apply repr_of_inj.
Qed.

(** ** Permutation parity *)

Lemma odd_flip_l (n m : nat) : n = S m → Nat.odd n = negb (Nat.odd m).
Proof. intros ->. by rewrite Nat.odd_succ, Nat.negb_odd. Qed.

Lemma odd_flip_r (n m : nat) : m = S n → Nat.odd n = negb (Nat.odd m).
Proof.
  intros ->. by rewrite Nat.odd_succ, <- Nat.negb_odd, negb_involutive.
Qed.

Section Inversions.
Context {A : Type} (key : A → nat).

Lemma inversions_swap (l1 l2 : list A) (a b : A) :
  key a ≠ key b →
  Nat.odd (inversions key (l1 ++ a :: b :: l2))
  = negb (Nat.odd (inversions key (l1 ++ b :: a :: l2))).
Proof.
  intros Hab. induction l1 as [|z l1 IH]; simpl.
  - rewrite !filter_cons.
    destruct (decide (key b < key a)%nat), (decide (key a < key b)%nat);
      try lia; [apply odd_flip_l|apply odd_flip_r]; simpl; lia.
  - rewrite !Nat.odd_add, IH.
    assert (l1 ++ a :: b :: l2 ≡ₚ l1 ++ b :: a :: l2) as Hperm
      by apply Permutation_app_head, Permutation_swap.
    rewrite Hperm.
    by destruct (Nat.odd (length _)), (Nat.odd (inversions _ _)).
Qed.

(** An element that jumps over two others leaves the parity as it was. *)
Lemma inversions_jump (l1 l2 : list A) (x y t : A) :
  key t ≠ key x → key t ≠ key y →
  Nat.odd (inversions key (l1 ++ x :: y :: t :: l2))
  = Nat.odd (inversions key (l1 ++ t :: x :: y :: l2)).
Proof.
  intros Hx Hy.
  replace (l1 ++ x :: y :: t :: l2) with ((l1 ++ [x]) ++ y :: t :: l2)
    by (by rewrite <- app_assoc).
  rewrite (inversions_swap (l1 ++ [x]) l2 y t) by auto.
  rewrite <- !app_assoc. simpl.
  rewrite (inversions_swap l1 (y :: l2) x t) by auto.
  by rewrite negb_involutive.
Qed.
End Inversions.

(** ** A move, seen on the row-major list of the labels *)

Lemma length_concat_take (s : State) (n i : nat) :
  Forall (λ line, length line = n) s → (i ≤ length s)%nat →
  length (concat (take i s)) = (i * n)%nat.
Proof.
  intros Hrows. revert i. induction Hrows as [|line s Hline _ IH]; intros i Hi.
  - simpl in Hi. by replace i with 0%nat by lia.
  - destruct i as [|i]; [done|]. simpl in *.
    rewrite length_app, IH by lia. lia.
Qed.

Lemma set_cell_flat (s : State) (i j : nat) (x y : string) :
  square s → cell s i j = Some y →
  concat (set_cell s i j x)
  = <[(i * Z.to_nat DIMENSION + j)%nat := x]> (concat s).
Proof.
  intros [Hlen Hrows] (line & Hi & Hj)%cell_Some. unfold set_cell. rewrite Hi.
  pose proof (lookup_lt_Some _ _ _ Hi) as Hilt.
  pose proof (lookup_lt_Some _ _ _ Hj) as Hjlt.
  rewrite insert_take_drop by done.
  rewrite <- (take_drop_middle _ _ _ Hi) at 3.
  rewrite !concat_app. simpl.
  pose proof (length_concat_take s _ i Hrows ltac:(lia)) as Htake.
  rewrite <- Htake, insert_app_r. f_equal.
  by rewrite insert_app_l.
Qed.

Lemma swap_cells_flat (s : State) (p q : nat * nat) (a b : string) :
  square s → cell s p.1 p.2 = Some a → cell s q.1 q.2 = Some b →
  concat (swap_cells s p q)
  = <[(p.1 * Z.to_nat DIMENSION + p.2)%nat := b]>
      (<[(q.1 * Z.to_nat DIMENSION + q.2)%nat := a]> (concat s)).
Proof.
  intros Hs Ha Hb. unfold swap_cells. rewrite Ha, Hb.
  assert (cell (set_cell s q.1 q.2 a) p.1 p.2 = Some a) as Ha'.
  { rewrite (cell_set_cell _ _ _ _ _ _ _ Hb). by case_decide. }
  rewrite (set_cell_flat _ _ _ _ a) by (done || by apply set_cell_square).
  by rewrite (set_cell_flat _ _ _ _ b).
Qed.

Lemma split_at_2 {A} (l : list A) (k : nat) (a b : A) :
  l !! k = Some a → l !! S k = Some b →
  ∃ l1 l2, l = l1 ++ a :: b :: l2 ∧ length l1 = k.
Proof.
  revert l. induction k as [|k IH]; intros l Ha Hb.
  - destruct l as [|? [|? l2]]; simplify_eq/=. by exists [], l2.
  - destruct l as [|z l]; [done|]. simpl in *.
    destruct (IH l Ha Hb) as (l1 & l2 & -> & <-). by exists (z :: l1), l2.
Qed.

Lemma split_at_4 {A} (l : list A) (k : nat) (a d : A) :
  l !! k = Some a → l !! (k + 3)%nat = Some d →
  ∃ l1 b c l2, l = l1 ++ a :: b :: c :: d :: l2 ∧ length l1 = k.
Proof.
  revert l. induction k as [|k IH]; intros l Ha Hd.
  - destruct l as [|? [|b [|c [|? l2]]]]; simplify_eq/=. by exists [], b, c, l2.
  - destruct l as [|z l]; [done|]. simpl in *.
    destruct (IH l Ha Hd) as (l1 & b & c & l2 & -> & <-).
    by exists (z :: l1), b, c, l2.
Qed.

Section FlatParity.
Context (key : string → nat).

Let parity (l : list string) : bool :=
  Nat.odd (inversions key (filter (λ tile, tile ≠ EMPTY) l)).

Lemma parity_neighbours (l1 l2 : list string) (t : string) :
  parity (l1 ++ t :: EMPTY :: l2) = parity (l1 ++ EMPTY :: t :: l2).
Proof.
  unfold parity. rewrite !filter_app.
  destruct (decide (t = EMPTY)) as [->|Ht]; [done|].
  by rewrite (filter_cons_True _ t), !(filter_cons_False _ EMPTY),
    (filter_cons_True _ t) by auto.
Qed.

Lemma parity_three_apart (l1 l2 : list string) (x y t : string) :
  NoDup (l1 ++ EMPTY :: x :: y :: t :: l2) →
  NoDup (key <$> (l1 ++ EMPTY :: x :: y :: t :: l2)) →
  parity (l1 ++ t :: x :: y :: EMPTY :: l2)
  = parity (l1 ++ EMPTY :: x :: y :: t :: l2).
Proof.
  intros (_ & _ & (He & _)%NoDup_cons)%NoDup_app Hkeys.
  rewrite fmap_app in Hkeys.
  apply NoDup_app in Hkeys as (_ & _ & (_ & Hkeys)%NoDup_cons).
  apply NoDup_cons in Hkeys as [Hx (Hy & _)%NoDup_cons].
  rewrite !not_elem_of_cons in He. rewrite !not_elem_of_cons in Hx.
  rewrite !not_elem_of_cons in Hy.
  destruct He as (Hex & Hey & Het & _), Hx as (_ & Hxt & _), Hy as (Hyt & _).
  unfold parity. rewrite !filter_app.
  rewrite (filter_cons_True _ t), (filter_cons_True _ x), (filter_cons_True _ y),
    !(filter_cons_False _ EMPTY), (filter_cons_True _ x),
    (filter_cons_True _ y), (filter_cons_True _ t) by auto.
  symmetry. by apply inversions_jump.
Qed.

(** Exchanging the empty label with the label next to it, or three places
    away, in the row-major list leaves the parity of the tiles as it was. *)
Lemma parity_insert (l : list string) (k k' : nat) (t : string) :
  NoDup l → NoDup (key <$> l) →
  l !! k = Some EMPTY → l !! k' = Some t →
  (k' = S k ∨ k' = k + 3 ∨ k = S k' ∨ k = k' + 3)%nat →
  parity (<[k := t]> (<[k' := EMPTY]> l)) = parity l.
Proof.
  intros Hnd Hkeys Hk Hk' [ -> | [ -> | [ -> | -> ] ] ].
  - destruct (split_at_2 l k _ _ Hk Hk') as (l1 & l2 & -> & <-).
    rewrite (insert_app_r_alt _ _ (S (length l1))) by lia.
    replace (S (length l1) - length l1)%nat with 1%nat by lia.
    rewrite <- (Nat.add_0_r (length l1)) at 1. rewrite insert_app_r. simpl.
    apply parity_neighbours.
  - destruct (split_at_4 l k _ _ Hk Hk') as (l1 & x & y & l2 & -> & <-).
    rewrite insert_app_r. simpl.
    rewrite <- (Nat.add_0_r (length l1)) at 1. rewrite insert_app_r. simpl.
    by apply parity_three_apart.
  - destruct (split_at_2 l k' _ _ Hk' Hk) as (l1 & l2 & -> & <-).
    rewrite <- (Nat.add_0_r (length l1)) at 2. rewrite insert_app_r. simpl.
    rewrite (insert_app_r_alt _ _ (S (length l1))) by lia.
    replace (S (length l1) - length l1)%nat with 1%nat by lia. simpl.
    symmetry. apply parity_neighbours.
  - destruct (split_at_4 l k' _ _ Hk' Hk) as (l1 & x & y & l2 & -> & <-).
    rewrite <- (Nat.add_0_r (length l1)) at 2. rewrite insert_app_r. simpl.
    rewrite insert_app_r. simpl.
    assert (l1 ++ EMPTY :: x :: y :: t :: l2 ≡ₚ l1 ++ t :: x :: y :: EMPTY :: l2)
      as Hperm.
    { apply Permutation_app_head.
      transitivity (EMPTY :: t :: x :: y :: l2).
      - constructor. symmetry. apply (Permutation_middle [x; y] l2 t).
      - apply (Permutation_middle [t; x; y] l2 EMPTY). }
    symmetry. apply parity_three_apart; by rewrite Hperm.
Qed.
End FlatParity.

(** ** Moves keep the parity class *)

Lemma parity_slide (key : string → nat) (s s' : State) :
  Configuration s → NoDup (key <$> concat s) → slide s s' →
  Nat.odd (inversions key (tiles s')) = Nat.odd (inversions key (tiles s)).
Proof.
  intros Hs Hkeys (p & q & Hp & Hadj & Hq & ->).
  pose proof (cfg_square _ Hs) as Hsq.
  destruct (cell_within s q Hsq Hq) as [t Ht].
  unfold tiles. rewrite (swap_cells_flat _ _ _ _ _ Hsq Hp Ht).
  apply (parity_insert key); [apply Hs|done|by apply cell_flat..|].
  apply adjacent_cases in Hadj. unfold point_of in Hadj. simpl in Hadj.
  change (Z.to_nat DIMENSION) with 3%nat.
  destruct Hadj as [H|[H|[H|H]]]; injection H as H1 H2; lia.
Qed.

Lemma parity_nsteps (key : string → nat) (n : nat) (s s' : State) :
  Configuration s → NoDup (key <$> concat s) → nsteps slide n s s' →
  Nat.odd (inversions key (tiles s')) = Nat.odd (inversions key (tiles s)).
Proof.
  intros Hs Hkeys Hpath. induction Hpath as [s|n s s1 s2 Hstep _ IH]; [done|].
  destruct (slide_Configuration _ _ Hs Hstep) as [Hs1 Hl].
  rewrite IH; [by apply parity_slide|done|].
  unfold same_labels in Hl. by rewrite Hl.
Qed.

Lemma index_of_inj (l : list string) (x y : string) :
  x ∈ l → index_of x l = index_of y l → x = y.
Proof.
  induction l as [|z l IH]; [by intros ?%elem_of_nil|].
  intros [->|Hin]%elem_of_cons; simpl.
  - rewrite decide_True by done. by case_decide.
  - destruct (decide (z = x)) as [Hzx|Hzx], (decide (z = y)) as [Hzy|Hzy];
      try done; [congruence|]. intros [=]. auto.
Qed.

(** Boards in different parity classes cannot be reached from one
    another. *)
Lemma different_parity_unreachable (start target : State) :
  Configuration start → Configuration target → same_labels start target →
  different_parity start target → ¬ reachable start target.
Proof.
  intros Hstart Htarget Hlabels Hdiff [n Hpath]. apply Hdiff.
  unfold parity_class. symmetry. apply (parity_nsteps _ n); [done| |done].
  apply NoDup_fmap_2_strong; [|apply Hstart].
  intros x y Hx _ Heq. apply (index_of_inj (concat target)); [|done].
  unfold same_labels in Hlabels. by rewrite <- Hlabels.
Qed.

Lemma go_mono (a b : nat) (start target : State) (o : outcome) :
  go a start target = Some o → (a ≤ b)%nat → go b start target = Some o.
Proof.
  unfold go. destruct (Node_init start target None); [|done].
  apply go_loop_mono.
Qed.

(** Whatever the number of iterations allowed, [go] can only end the way
    [go_correct] says. *)
Lemma go_outcome (start target : State) (fuel : nat) (o : outcome) :
  Configuration start → Configuration target → same_labels start target →
  go fuel start target = Some o → go_result start target o.
Proof.
  intros Hstart Htarget Hlabels Hgo.
  destruct (go_correct start target) as (fuel0 & o0 & Hgo0 & Ho0); [done..|].
  pose proof (go_mono _ (Nat.max fuel fuel0) _ _ _ Hgo ltac:(lia)) as H1.
  rewrite (Hgo0 (Nat.max fuel fuel0)) in H1 by lia. by injection H1 as <-.
Qed.

(** C7. The loop entered with an empty queue returns -1 and prints
    nothing. On configurations with the same labels, when the target
    cannot be reached, and so when the two boards are in different parity
    classes, [go] returns -1 with nothing printed; it returns -1 in no
    other case, and it never raises. *)
Theorem go_fails_with_minus_one (start target : State) :
  Configuration start → Configuration target → same_labels start target →
  (∀ history, go_step [] history = Stop (Return [] (-1)))
  ∧ (¬ reachable start target →
     ∃ fuel, ∀ fuel', (fuel ≤ fuel')%nat →
       go fuel' start target = Some (Return [] (-1)))
  ∧ (different_parity start target →
     ∃ fuel, ∀ fuel', (fuel ≤ fuel')%nat →
       go fuel' start target = Some (Return [] (-1)))
  ∧ (∀ fuel printed,
       go fuel start target = Some (Return printed (-1)) →
       printed = [] ∧ ¬ reachable start target)
  ∧ (∀ fuel e, go fuel start target ≠ Some (Raised e)).
Proof.
  intros Hstart Htarget Hlabels.
  assert (¬ reachable start target →
          ∃ fuel, ∀ fuel', (fuel ≤ fuel')%nat →
            go fuel' start target = Some (Return [] (-1))) as Hfail.
  { intros Hno.
    destruct (go_correct start target) as (fuel & o & Hgo & Ho); [done..|].
    destruct Ho as [[-> _]|(c & _ & _ & _ & <- & Hpath & _)]; [by exists fuel|].
    exfalso. apply Hno. by eexists. }
  split_and!; [done|done| | |].
  - intros Hdiff. by apply Hfail, different_parity_unreachable.
  - intros fuel printed Hgo.
    destruct (go_outcome _ _ _ _ Hstart Htarget Hlabels Hgo)
      as [[[= ->] Hno]|(c & Hb & _ & [= -> Hg] & _)]; [done|].
    pose proof (built_facts _ _ _ Hb) as (_ & _ & _ & Hd). lia.
  - intros fuel e Hgo.
    by destruct (go_outcome _ _ _ _ Hstart Htarget Hlabels Hgo)
      as [[[=] _]|(c & _ & _ & [=] & _)].
Qed.

Lemma Configuration_two_tiles_swapped : Configuration two_tiles_swapped.
Proof. apply Configuration_decide. vm_compute. reflexivity. Qed.

Lemma same_labels_two_tiles_swapped :
  same_labels two_tiles_swapped DEBUG_TARGET_STATE.
Proof. unfold same_labels. simpl. apply Permutation_swap. Qed.

Lemma different_parity_two_tiles_swapped :
  different_parity two_tiles_swapped DEBUG_TARGET_STATE.
Proof. unfold different_parity. vm_compute. discriminate. Qed.

Lemma go_fails_with_minus_one_witness :
  ∃ fuel, ∀ fuel', (fuel ≤ fuel')%nat →
    go fuel' two_tiles_swapped DEBUG_TARGET_STATE = Some (Return [] (-1)).
Proof.
  apply (go_fails_with_minus_one two_tiles_swapped DEBUG_TARGET_STATE).
  - exact Configuration_two_tiles_swapped.
  - exact Configuration_DEBUG_TARGET_STATE.
  - exact same_labels_two_tiles_swapped.
  - exact different_parity_two_tiles_swapped.
Defined.

(** ** The properties at work on the debug boards *)

Lemma Configuration_one_move_away : Configuration one_move_away.
Proof. apply Configuration_decide. vm_compute. reflexivity. Qed.

Lemma slide_one_move_away : slide DEBUG_START_STATE one_move_away.
Proof.
  exists (1, 0)%nat, (0, 0)%nat. split_and!; [reflexivity| | |reflexivity].
  - unfold adjacent, point_of. simpl. lia.
  - unfold within_board, point_of, DIMENSION. simpl. lia.
Qed.

Lemma same_labels_one_move_away : same_labels DEBUG_START_STATE one_move_away.
Proof.
  unfold same_labels. symmetry.
  apply (slide_Configuration _ _ Configuration_DEBUG_START_STATE
           slide_one_move_away).
Qed.

Example go_one_move_away :
  go 2 DEBUG_START_STATE one_move_away
  = Some (Return
            [ ("2 1 3" +:+ newline +:+ "  8 4" +:+ newline +:+ "6 7 5"
               +:+ newline +:+ newline)%string;
              ("  1 3" +:+ newline +:+ "2 8 4" +:+ newline +:+ "6 7 5"
               +:+ newline +:+ newline)%string ]
            1).
Proof. vm_compute. reflexivity. Qed.

Example go_start_is_target :
  ∃ printed, go 1 DEBUG_START_STATE DEBUG_START_STATE = Some (Return printed 0)
             ∧ length printed = 1%nat.
Proof. eexists. split; vm_compute; reflexivity. Qed.

Lemma is_target_iff_matches_witness :
  ∃ node,
    Node_init DEBUG_START_STATE DEBUG_TARGET_STATE None = Ok node
    ∧ Node_h node = Z.of_nat (misplaced_count DEBUG_START_STATE DEBUG_TARGET_STATE)
    ∧ (Node_is_target node = true ↔ Node_h node = 0)
    ∧ (Node_is_target node = true
       ↔ matches_target DEBUG_START_STATE DEBUG_TARGET_STATE).
Proof.
  apply (is_target_iff_matches DEBUG_START_STATE DEBUG_TARGET_STATE None).
  - exact (cfg_square _ Configuration_DEBUG_START_STATE).
  - exact (cfg_square _ Configuration_DEBUG_TARGET_STATE).
Defined.

Lemma go_returns_shortest_distance_witness :
  ∃ fuel printed d,
    (∀ fuel', (fuel ≤ fuel')%nat →
       go fuel' DEBUG_START_STATE one_move_away
       = Some (Return printed (Z.of_nat d)))
    ∧ shortest DEBUG_START_STATE one_move_away d.
Proof.
  apply (go_returns_shortest_distance DEBUG_START_STATE one_move_away).
  - exact Configuration_DEBUG_START_STATE.
  - exact Configuration_one_move_away.
  - exact same_labels_one_move_away.
  - exists 1%nat. apply nsteps_once. exact slide_one_move_away.
Defined.

Lemma go_terminates_witness :
  ∃ fuel printed value,
    (∀ fuel', (fuel ≤ fuel')%nat →
       go fuel' DEBUG_START_STATE one_move_away
       = Some (Return printed value))
    ∧ ((value = -1 ∧ printed = []) ∨ 0 ≤ value).
Proof.
  apply (go_terminates DEBUG_START_STATE one_move_away).
  - exact Configuration_DEBUG_START_STATE.
  - exact Configuration_one_move_away.
  - exact same_labels_one_move_away.
Defined.

Lemma go_returns_g_of_goal_witness :
  (1 = -1 ∧ [Node_str (mkNode one_move_away one_move_away None 0 0 0)] = [])
  ∨ ∃ goal, built one_move_away one_move_away goal
            ∧ Node_is_target goal = true
            ∧ 0 = Node_g goal
            ∧ Node_g goal = Z.of_nat (Node_depth goal)
            ∧ [(Node_str (mkNode one_move_away one_move_away None 0 0 0)
                +:+ newline +:+ newline)%string]
              = Node_print_branch goal.
Proof.
  right.
  destruct (proj2 (proj2 (go_returns_g_of_goal one_move_away one_move_away))
              1%nat
              [(Node_str (mkNode one_move_away one_move_away None 0 0 0)
                +:+ newline +:+ newline)%string]
              0 eq_refl) as [[? _]|Hgoal]; [lia|exact Hgoal].
Defined.

Lemma history_adds_each_key_once_witness :
  NoDup (Node_repr <$>
         go_added 3
           (CandidateQueue_init
              [mkNode DEBUG_START_STATE DEBUG_TARGET_STATE None 0 5 5])
           HistoryMap_init).
Proof.
  apply (history_adds_each_key_once DEBUG_START_STATE DEBUG_TARGET_STATE
           (mkNode DEBUG_START_STATE DEBUG_TARGET_STATE None 0 5 5) 3).
  reflexivity.
Defined.

Lemma pop_minimal_first_inserted_witness :
  let low := mkNode DEBUG_START_STATE DEBUG_TARGET_STATE None 0 5 5 in
  let high := mkNode one_move_away DEBUG_TARGET_STATE (Some low) 1 5 6 in
  let twin := mkNode DEBUG_TARGET_STATE DEBUG_TARGET_STATE (Some low) 5 0 5 in
  ∃ rest,
    CandidateQueue_pop
      (CandidateQueue_run [Push (inr [high; low]); Pop; Push (inl twin)]
         (CandidateQueue_init [low]))
    = Ok (low, rest).
Proof.
  intros low high twin.
  destruct (proj1 (proj2 (pop_minimal_first_inserted [low]
                            [Push (inr [high; low]); Pop; Push (inl twin)]
                            (le_n 1)))
              eq_refl) as (node & rest & Hpop).
  exists rest. rewrite Hpop. vm_compute in Hpop. by injection Hpop as <- _.
Defined.

(** * Further properties of the solver *)

(** ** The neighbours of a position *)

Lemma within_board_cases (p : Point) :
  within_board p ↔
  (p.1 = 0 ∨ p.1 = 1 ∨ p.1 = 2) ∧ (p.2 = 0 ∨ p.2 = 1 ∨ p.2 = 2).
Proof. unfold within_board, DIMENSION. lia. Qed.

Lemma get_next_empties_count_aux (p : Point) :
  within_board p →
  length (Node_get_next_empties p)
  = (2 + (if decide (0 < p.1 < DIMENSION - 1)%Z then 1 else 0)
       + (if decide (0 < p.2 < DIMENSION - 1)%Z then 1 else 0))%nat
  ∧ NoDup (Node_get_next_empties p)
  ∧ (p ∉ Node_get_next_empties p)
  ∧ ∀ q, q ∈ Node_get_next_empties p → p ∈ Node_get_next_empties q.
Proof.
  intros Hp. split_and!.
  - destruct p as [r c]. apply within_board_cases in Hp. simpl in Hp.
    destruct Hp as [[ -> | [ -> | -> ]] [ -> | [ -> | -> ]]]; reflexivity.
  - destruct p as [r c]. apply within_board_cases in Hp. simpl in Hp.
    destruct Hp as [[ -> | [ -> | -> ]] [ -> | [ -> | -> ]]];
      apply (bool_decide_unpack _); reflexivity.
  - intros [Hadj _]%elem_of_get_next_empties. unfold adjacent in Hadj. lia.
  - intros q [Hadj Hq]%elem_of_get_next_empties.
    apply elem_of_get_next_empties. split; [|done].
    unfold adjacent in *. lia.
Qed.

(** [__get_next_empties], given a position of the board, returns two
    positions in a corner, three on an edge and four in the centre, all
    different and none of them the position itself; and a position it
    returns has the given position among its own neighbours. *)
Theorem get_next_empties_count (p : Point) :
  within_board p →
  length (Node_get_next_empties p)
  = (2 + (if decide (0 < p.1 < DIMENSION - 1)%Z then 1 else 0)
       + (if decide (0 < p.2 < DIMENSION - 1)%Z then 1 else 0))%nat
  ∧ NoDup (Node_get_next_empties p)
  ∧ (p ∉ Node_get_next_empties p)
  ∧ ∀ q, q ∈ Node_get_next_empties p → p ∈ Node_get_next_empties q.
Proof. apply get_next_empties_count_aux. Qed.

Lemma get_next_empties_count_witness :
  length (Node_get_next_empties (1, 0)) = 3%nat.
Proof.
  apply (get_next_empties_count (1, 0)).
  unfold within_board, DIMENSION. simpl. lia.
Defined.

(** ** Moves can be undone *)

Lemma adjacent_sym (p q : Point) : adjacent p q → adjacent q p.
Proof. unfold adjacent. lia. Qed.

Lemma adjacent_ne (p q : nat * nat) :
  adjacent (point_of p) (point_of q) → p ≠ q.
Proof. intros Hadj ->. unfold adjacent in Hadj. lia. Qed.

Lemma cell_within_board (s : State) (p : nat * nat) (x : string) :
  square s → cell s p.1 p.2 = Some x → within_board (point_of p).
Proof.
  intros Hs Hp. apply (cell_lt _ _ _ _ Hs) in Hp as [Hi Hj].
  change (Z.to_nat DIMENSION) with 3%nat in *.
  unfold within_board, point_of, DIMENSION. simpl. lia.
Qed.

Lemma swap_cells_involutive (s : State) (p q : nat * nat) :
  square s → is_Some (cell s p.1 p.2) → is_Some (cell s q.1 q.2) →
  swap_cells (swap_cells s p q) q p = s.
Proof.
  intros Hs Hp Hq.
  assert (∀ k l, cell (swap_cells s p q) k l
                 = if decide ((k, l) = p) then cell s q.1 q.2
                   else if decide ((k, l) = q) then cell s p.1 p.2
                   else cell s k l) as Hcell
    by (intros; by apply cell_swap_cells).
  assert (is_Some (cell (swap_cells s p q) p.1 p.2)) as Hp'.
  { rewrite Hcell. destruct p. by rewrite decide_True. }
  assert (is_Some (cell (swap_cells s p q) q.1 q.2)) as Hq'.
  { rewrite Hcell. destruct q. case_decide; [done|]. by rewrite decide_True. }
  apply cell_ext.
  - pose proof (swap_cells_square _ q p (swap_cells_square _ p q Hs)) as [-> _].
    by destruct Hs as [-> _].
  - intros k l. rewrite cell_swap_cells by done. rewrite !Hcell.
    destruct p as [i j], q as [i' j']. simpl.
    repeat case_decide; simplify_eq; done.
Qed.

Lemma slide_sym (s s' : State) : square s → slide s s' → slide s' s.
Proof.
  intros Hs (p & q & Hp & Hadj & Hq & ->).
  pose proof (adjacent_ne _ _ Hadj) as Hne.
  pose proof (cell_within s q Hs Hq) as Hcq.
  exists q, p. split_and!.
  - rewrite cell_swap_cells by (by eauto).
    destruct q as [i' j']. simpl.
    rewrite decide_False by congruence. by rewrite decide_True.
  - by apply adjacent_sym.
  - by eapply cell_within_board.
  - symmetry. apply swap_cells_involutive; eauto.
Qed.

Lemma slide_square (s s' : State) : square s → slide s s' → square s'.
Proof. intros Hs (p & q & _ & _ & _ & ->). by apply swap_cells_square. Qed.

Lemma nsteps_slide_square (n : nat) (s s' : State) :
  square s → nsteps slide n s s' → square s'.
Proof.
  intros Hs Hpath. induction Hpath as [|n s s1 s2 Hstep _ IH]; [done|].
  apply IH. by eapply slide_square.
Qed.

(** The move graph is undirected: a sequence of moves read backwards is a
    sequence of moves. *)
Lemma nsteps_slide_sym (n : nat) (s s' : State) :
  square s → nsteps slide n s s' → nsteps slide n s' s.
Proof.
  intros Hs Hpath. induction Hpath as [|n s s1 s2 Hstep _ IH]; [constructor|].
  eapply nsteps_r; [apply IH; by eapply slide_square|]. by apply slide_sym.
Qed.

(** ** [create_children] *)

(** On a configuration [create_children] returns two to four children.
    Each has the node as its parent, the node's target, the node's [g] plus
    one and [f = g + h]; its board is again a configuration, with the same
    labels. The boards of the children are pairwise different and are
    exactly the boards one move away from the node's board; the node's own
    board is one move away from each of them. *)
Theorem create_children_one_move_each (self : Node) :
  Configuration (Node_state self) → square (Node_target self) →
  ∃ children,
    Node_create_children self = Ok children
    ∧ (2 ≤ length children ≤ 4)%nat
    ∧ (∀ child, child ∈ children →
         Node_parent child = Some self
         ∧ Node_target child = Node_target self
         ∧ Node_g child = Node_g self + 1
         ∧ Node_f child = Node_g child + Node_h child
         ∧ Configuration (Node_state child)
         ∧ same_labels (Node_state child) (Node_state self)
         ∧ slide (Node_state child) (Node_state self))
    ∧ (∀ s', slide (Node_state self) s' ↔
             ∃ child, child ∈ children ∧ Node_state child = s')
    ∧ NoDup (Node_state <$> children).
Proof.
  intros Hcfg Htq.
  destruct (create_children_Configuration self Hcfg Htq) as (p & Hp & Hcs).
  eexists. split; [exact Hcs|].
  pose proof (cell_within_board _ _ _ (cfg_square _ Hcfg) Hp) as Hpb.
  assert (∀ s', slide (Node_state self) s' ↔
                ∃ child, child ∈ child_at self p <$> Node_get_next_empties (point_of p)
                         ∧ Node_state child = s') as Hslide
    by (intros; by apply slide_child_at).
  split.
  { rewrite length_map.
    destruct (get_next_empties_count_aux (point_of p) Hpb) as [-> _].
    repeat case_decide; lia. }
  split_and!.
  - intros child Hin.
    assert (slide (Node_state self) (Node_state child)) as Hs
      by (apply Hslide; eauto).
    destruct (slide_Configuration _ _ Hcfg Hs) as [Hc Hl].
    apply list_elem_of_fmap in Hin as (next & -> & _).
    split_and!; [done..|]. apply slide_sym; [apply Hcfg|done].
  - done.
  - destruct (get_next_empties_count_aux (point_of p) Hpb) as (_ & Hnd & _).
    rewrite <- list_fmap_compose.
    apply NoDup_fmap_2_strong; [|done].
    intros q q' [Hadj Hq]%elem_of_get_next_empties
      [Hadj' Hq']%elem_of_get_next_empties Heq.
    simpl in Heq.
    assert (slide (Node_state self)
              (swap_cells (Node_state self) p (nat_of_point q))) as Hs.
    { apply Hslide. exists (child_at self p q). split; [|done].
      apply list_elem_of_fmap. eexists. split; [done|].
      by apply elem_of_get_next_empties. }
    destruct (slide_Configuration _ _ Hcfg Hs) as [Hc _].
    pose proof (cfg_square _ Hcfg) as Hsq.
    assert (∀ x, within_board x →
              cell (swap_cells (Node_state self) p (nat_of_point x))
                   (nat_of_point x).1 (nat_of_point x).2 = Some EMPTY) as Hempty.
    { intros x Hx. rewrite cell_swap_cells.
      - case_decide; [destruct p, (nat_of_point x); simplify_eq/=; done|].
        destruct (nat_of_point x). by rewrite decide_True.
      - by eauto.
      - apply cell_within; [done|]. by rewrite point_of_nat_of_point. }
    pose proof (Hempty q Hq) as H1. pose proof (Hempty q' Hq') as H2.
    rewrite <- Heq in H2.
    pose proof (cell_inj _ _ _ _ _ _ (cfg_square _ Hc) (cfg_distinct _ Hc) H1 H2)
      as Hqq.
    rewrite <- (point_of_nat_of_point q Hq), <- (point_of_nat_of_point q' Hq').
    f_equal. destruct (nat_of_point q), (nat_of_point q'). simpl in *. congruence.
Qed.

Lemma create_children_one_move_each_witness :
  ∃ children,
    Node_create_children (mkNode DEBUG_START_STATE DEBUG_TARGET_STATE None 0 5 5)
    = Ok children
    ∧ (2 ≤ length children ≤ 4)%nat
    ∧ NoDup (Node_state <$> children).
Proof.
  destruct (create_children_one_move_each
              (mkNode DEBUG_START_STATE DEBUG_TARGET_STATE None 0 5 5))
    as (children & Hchildren & Hlength & _ & _ & Hdistinct).
  - exact Configuration_DEBUG_START_STATE.
  - exact (cfg_square _ Configuration_DEBUG_TARGET_STATE).
  - exists children. split; [assumption|]. split; assumption.
Defined.

(** ** The heuristic *)

Lemma misplaced_count_nsteps (n : nat) (s s' t : State) :
  square s → nsteps slide n s s' →
  (misplaced_count s t ≤ misplaced_count s' t + n)%nat.
Proof.
  intros Hs Hpath. induction Hpath as [|n s s1 s2 Hstep _ IH]; [lia|].
  pose proof (misplaced_count_slide s s1 t Hs Hstep).
  pose proof (IH (slide_square _ _ Hs Hstep)). lia.
Qed.

Lemma misplaced_count_le (s t : State) :
  (misplaced_count s t ≤ Z.to_nat (DIMENSION * DIMENSION))%nat.
Proof.
  unfold misplaced_count. etransitivity; [apply length_filter|]. done.
Qed.

(** [__get_h] on square boards returns a number between 0 and the number
    of cells; it changes by at most one along a move, and it never exceeds
    the number of moves that lead to a board that passes the goal test. *)
Theorem get_h_admissible (s t : State) :
  square s → square t →
  ∃ h, Node_get_h s t = Ok h
       ∧ 0 ≤ h ≤ DIMENSION * DIMENSION
       ∧ (∀ s', slide s s' →
            ∃ h', Node_get_h s' t = Ok h' ∧ -1 ≤ h' - h ≤ 1)
       ∧ (∀ n s', nsteps slide n s s' → matches_target s' t →
            h ≤ Z.of_nat n).
Proof.
  intros Hs Ht. exists (Z.of_nat (misplaced_count s t)).
  split; [by apply Node_get_h_count|].
  split; [pose proof (misplaced_count_le s t) as Hle; unfold DIMENSION in *; lia|].
  split.
  - intros s' Hstep. exists (Z.of_nat (misplaced_count s' t)).
    pose proof (slide_square _ _ Hs Hstep) as Hs'.
    split; [by apply Node_get_h_count|].
    pose proof (misplaced_count_slide s s' t Hs Hstep).
    pose proof (misplaced_count_slide s' s t Hs' (slide_sym _ _ Hs Hstep)).
    lia.
  - intros n s' Hpath Hmatch.
    pose proof (misplaced_count_nsteps n s s' t Hs Hpath).
    apply misplaced_count_0 in Hmatch. lia.
Qed.

Lemma get_h_admissible_witness :
  ∃ h, Node_get_h DEBUG_START_STATE one_move_away = Ok h
       ∧ 0 ≤ h ≤ DIMENSION * DIMENSION
       ∧ (∀ s', slide DEBUG_START_STATE s' →
            ∃ h', Node_get_h s' one_move_away = Ok h' ∧ -1 ≤ h' - h ≤ 1)
       ∧ (∀ n s', nsteps slide n DEBUG_START_STATE s' →
            matches_target s' one_move_away → h ≤ Z.of_nat n).
Proof.
  apply (get_h_admissible DEBUG_START_STATE one_move_away).
  - exact (cfg_square _ Configuration_DEBUG_START_STATE).
  - exact (cfg_square _ Configuration_one_move_away).
Defined.

(** ** The edges of [go] *)

Lemma HistoryMap_contains_init (node : Node) :
  HistoryMap_contains node HistoryMap_init = false.
Proof.
  apply bool_decide_eq_false. unfold HistoryMap_init.
  rewrite lookup_empty. by intros [? ?].
Qed.

(** When the start already agrees with the target on the target's tiles,
    [go] returns 0 at its first iteration, having printed the start and
    nothing else. *)
Theorem go_start_matches_target (start target : State) (fuel : nat) :
  square start → square target → matches_target start target →
  go (S fuel) start target
  = Some (Return [printed_board (mkNode start target None 0 0 0)] 0).
Proof.
  intros Hs Ht Hmatch. unfold go, Node_init.
  rewrite Node_get_h_count by done.
  apply misplaced_count_0 in Hmatch. rewrite Hmatch. reflexivity.
Qed.

Lemma go_start_matches_target_witness :
  go 1 DEBUG_TARGET_STATE DEBUG_TARGET_STATE
  = Some (Return
            [printed_board (mkNode DEBUG_TARGET_STATE DEBUG_TARGET_STATE None 0 0 0)]
            0).
Proof.
  apply (go_start_matches_target DEBUG_TARGET_STATE DEBUG_TARGET_STATE 0).
  - exact (cfg_square _ Configuration_DEBUG_TARGET_STATE).
  - exact (cfg_square _ Configuration_DEBUG_TARGET_STATE).
  - apply matches_target_refl.
Defined.

Lemma create_children_no_empty (self : Node) :
  (∀ i j, cell (Node_state self) i j ≠ Some EMPTY) →
  Node_create_children self = Raise empty_tile_not_found.
Proof.
  intros Hno. unfold Node_create_children, Node_find_empty.
  by rewrite (proj2 (find_in_lines_None _ 0) Hno).
Qed.

(** A start without an empty cell makes [create_children] raise the
    exception of [__find_empty], and [go] ends with that exception at its
    first iteration, unless the start already passes the goal test. *)
Theorem go_raises_without_empty_cell (start target : State) (fuel : nat) :
  square start → square target →
  (∀ i j, cell start i j ≠ Some EMPTY) →
  ¬ matches_target start target →
  (∀ self, Node_state self = start →
           Node_create_children self = Raise empty_tile_not_found)
  ∧ go (S fuel) start target = Some (Raised empty_tile_not_found).
Proof.
  intros Hs Ht Hno Hmatch. split.
  - intros self <-. by apply create_children_no_empty.
  - unfold go, Node_init. rewrite Node_get_h_count by done. simpl.
    unfold go_step. simpl.
    assert (misplaced_count start target ≠ 0%nat) as Hh
      by (by rewrite misplaced_count_0).
    unfold Node_is_target. simpl.
    destruct (Z.eqb_spec (Z.of_nat (misplaced_count start target)) 0) as [|_];
      [lia|].
    rewrite HistoryMap_contains_init.
    by rewrite create_children_no_empty.
Qed.

Lemma go_raises_without_empty_cell_witness :
  go 1 no_empty_cell DEBUG_TARGET_STATE = Some (Raised empty_tile_not_found).
Proof.
  apply (go_raises_without_empty_cell no_empty_cell DEBUG_TARGET_STATE 0).
  - split; [reflexivity|repeat constructor].
  - exact (cfg_square _ Configuration_DEBUG_TARGET_STATE).
  - intros i j. apply (find_in_lines_None no_empty_cell 0). reflexivity.
  - intros Hmatch.
    by specialize (Hmatch 1%nat 0%nat ltac:(vm_compute; lia)
                     ltac:(vm_compute; lia) ltac:(done)).
Defined.

(** ** Boards that are too small *)

Lemma norm_index_nat_Ok (len k k' : nat) :
  norm_index len (Z.of_nat k) = Ok k' → k' = k ∧ (k < len)%nat.
Proof.
  intros H. pose proof (norm_index_Ok _ _ _ H) as Hlt. unfold norm_index in H.
  destruct (Z.ltb_spec (Z.of_nat k) 0) as [?|_]; [lia|].
  destruct (_ && _); [|done]. injection H as <-. lia.
Qed.

Lemma getitem_nat_Ok {A} (l : list A) (k : nat) (x : A) :
  getitem l (Z.of_nat k) = Ok x → l !! k = Some x.
Proof.
  unfold getitem. destruct (norm_index _ _) as [k'|] eqn:E; simpl; [|done].
  apply norm_index_nat_Ok in E as [-> _].
  destruct (l !! k); [|done]. by intros [= ->].
Qed.

Lemma getitem_Raise {A} (l : list A) (i : Z) (e : exn) :
  getitem l i = Raise e → e = IndexError.
Proof.
  unfold getitem, norm_index. destruct (_ && _); simpl.
  - destruct (l !! _); [done|]. by intros [= <-].
  - by intros [= <-].
Qed.

Lemma getitem2_nat_Ok (s : State) (i j : nat) (x : string) :
  getitem2 s (Z.of_nat i, Z.of_nat j) = Ok x → cell s i j = Some x.
Proof.
  unfold getitem2. simpl.
  destruct (getitem s (Z.of_nat i)) as [line|] eqn:Hi; simpl; [|done].
  intros Hj. apply getitem_nat_Ok in Hi, Hj. apply cell_Some. eauto.
Qed.

Lemma getitem2_Raise (s : State) (p : Point) (e : exn) :
  getitem2 s p = Raise e → e = IndexError.
Proof.
  unfold getitem2. destruct (getitem s p.1) as [line|] eqn:Hi; simpl.
  - apply getitem_Raise.
  - intros [= <-]. by eapply getitem_Raise.
Qed.

Lemma misplaced_Ok (s t : State) (i j : nat) (b : bool) :
  misplaced s t (Z.of_nat i) (Z.of_nat j) = Ok b →
  is_Some (cell s i j) ∧ is_Some (cell t i j).
Proof.
  unfold misplaced.
  destruct (getitem2 t _) as [y|] eqn:Hy; simpl; [|done].
  destruct (getitem2 s _) as [x|] eqn:Hx; simpl; [|done].
  apply getitem2_nat_Ok in Hx, Hy. eauto.
Qed.

Lemma misplaced_Raise (s t : State) (i j : Z) (e : exn) :
  misplaced s t i j = Raise e → e = IndexError.
Proof.
  unfold misplaced.
  destruct (getitem2 t _) as [y|] eqn:Hy; simpl.
  - destruct (getitem2 s _) as [x|] eqn:Hx; simpl; [done|].
    intros [= <-]. by eapply getitem2_Raise.
  - intros [= <-]. by eapply getitem2_Raise.
Qed.

Lemma foldM_Ok_elem {A B} (body : B → A → result B) (l : list A) (acc r : B)
  (x : A) :
  foldM body l acc = Ok r → x ∈ l → ∃ a b, body a x = Ok b.
Proof.
  revert acc. induction l as [|y l IH]; intros acc Hfold Hin.
  - by apply elem_of_nil in Hin.
  - simpl in Hfold. destruct (body acc y) as [acc'|] eqn:Hy; simpl in Hfold; [|done].
    apply elem_of_cons in Hin as [->|Hin]; eauto.
Qed.

Lemma foldM_Raise {A B} (body : B → A → result B) (l : list A) (acc : B)
  (e : exn) :
  (∀ a x e', body a x = Raise e' → e' = IndexError) →
  foldM body l acc = Raise e → e = IndexError.
Proof.
  intros Hbody. revert acc. induction l as [|y l IH]; intros acc; simpl; [done|].
  destruct (body acc y) as [acc'|e'] eqn:Hy; simpl; [apply IH|].
  intros [= <-]. by eapply Hbody.
Qed.

Lemma Node_get_h_covers (s t : State) :
  covers s → covers t →
  Node_get_h s t = Ok (Z.of_nat (misplaced_count s t)).
Proof.
  intros Hs Ht. unfold Node_get_h, misplaced_count, board_positions.
  change (range DIMENSION) with (Z.of_nat <$> seq 0 (Z.to_nat DIMENSION)).
  rewrite (foldM_count_rows (misplaced_at s t)); [done|].
  intros i j [_ Hi]%elem_of_seq [_ Hj]%elem_of_seq.
  apply misplaced_cell; [by apply Hs|by apply Ht].
Qed.

Lemma Node_get_h_Ok (s t : State) (h : Z) :
  Node_get_h s t = Ok h → covers s ∧ covers t.
Proof.
  unfold Node_get_h.
  change (range DIMENSION) with (Z.of_nat <$> seq 0 (Z.to_nat DIMENSION)).
  intros Hfold.
  assert (∀ i j, (i < Z.to_nat DIMENSION)%nat → (j < Z.to_nat DIMENSION)%nat →
            is_Some (cell s i j) ∧ is_Some (cell t i j)) as Hcells.
  { intros i j Hi Hj.
    destruct (foldM_Ok_elem _ _ _ _ (Z.of_nat i) Hfold) as (a & b & Hrow).
    { apply list_elem_of_fmap. exists i. split; [done|]. apply elem_of_seq. lia. }
    destruct (foldM_Ok_elem _ _ _ _ (Z.of_nat j) Hrow) as (a' & b' & Hcell).
    { apply list_elem_of_fmap. exists j. split; [done|]. apply elem_of_seq. lia. }
    destruct (misplaced s t _ _) as [m|] eqn:Hm; [|done].
    by eapply misplaced_Ok. }
  split; intros i j Hi Hj; by destruct (Hcells i j Hi Hj).
Qed.

Lemma Node_get_h_Raise (s t : State) (e : exn) :
  Node_get_h s t = Raise e → e = IndexError.
Proof.
  unfold Node_get_h. apply foldM_Raise. intros a i e'. apply foldM_Raise.
  intros a' j e''.
  destruct (misplaced s t i j) as [m|e3] eqn:Hm; simpl; [done|].
  intros [= <-]. by eapply misplaced_Raise.
Qed.

(** [__init__] succeeds exactly when both boards hold a label in each cell
    of their upper left [DIMENSION] times [DIMENSION] corner, and [h] then
    counts the misplaced tiles of that corner; otherwise it raises
    [IndexError], and so does [go], before its first iteration. *)
Theorem Node_init_needs_full_boards (state target : State)
  (parent : option Node) :
  (covers state ∧ covers target →
   ∃ node, Node_init state target parent = Ok node
           ∧ Node_h node = Z.of_nat (misplaced_count state target))
  ∧ (¬ (covers state ∧ covers target) →
     Node_init state target parent = Raise IndexError
     ∧ ∀ fuel, go fuel state target = Some (Raised IndexError)).
Proof.
  split.
  - intros [Hs Ht]. unfold Node_init. rewrite Node_get_h_covers by done.
    simpl. by eexists.
  - intros Hnot.
    assert (Node_get_h state target = Raise IndexError) as Hh.
    { destruct (Node_get_h state target) as [h|e] eqn:Hh.
      - by apply Node_get_h_Ok in Hh.
      - by apply Node_get_h_Raise in Hh as ->. }
    unfold go, Node_init. by rewrite Hh.
Qed.

Lemma Node_init_needs_full_boards_witness :
  Node_init [["1"; "2"; "3"]; ["4"; EMPTY]]%string DEBUG_TARGET_STATE None
  = Raise IndexError
  ∧ ∀ fuel, go fuel [["1"; "2"; "3"]; ["4"; EMPTY]]%string DEBUG_TARGET_STATE
            = Some (Raised IndexError).
Proof.
  apply (Node_init_needs_full_boards
           [["1"; "2"; "3"]; ["4"; EMPTY]]%string DEBUG_TARGET_STATE None).
  intros [Hs _]. by destruct (Hs 2%nat 0%nat ltac:(vm_compute; lia)
                               ltac:(vm_compute; lia)).
Defined.

(** ** The printed path *)

Lemma Node_branch_root (n : Node) :
  Node_parent n = None → Node_branch n = [n].
Proof. destruct n as [s t parent g h f]. simpl. by intros ->. Qed.

Lemma Node_branch_child (n p : Node) :
  Node_parent n = Some p → Node_branch n = Node_branch p ++ [n].
Proof. destruct n as [s t parent g h f]. simpl. by intros ->. Qed.

Lemma Node_print_branch_branch (n : Node) :
  Node_print_branch n = printed_board <$> Node_branch n.
Proof.
  revert n. fix IH 1. intros [s t [p|] g h f]; simpl.
  - rewrite fmap_app, <- (IH p). done.
  - done.
Qed.

Lemma length_Node_branch (n : Node) :
  length (Node_branch n) = S (Node_depth n).
Proof.
  revert n. fix IH 1. intros [s t [p|] g h f]; simpl.
  - rewrite length_app, (IH p). simpl. lia.
  - done.
Qed.

Lemma last_Node_branch (n : Node) : last (Node_branch n) = Some n.
Proof.
  destruct (Node_parent n) as [p|] eqn:Hp.
  - rewrite (Node_branch_child _ _ Hp). apply last_snoc.
  - by rewrite (Node_branch_root _ Hp).
Qed.

Lemma built_parent (start target : State) (n : Node) :
  built start target n →
  (Node_parent n = None ∧ Node_state n = start)
  ∨ ∃ p children, Node_parent n = Some p ∧ built start target p
                  ∧ Node_create_children p = Ok children ∧ n ∈ children.
Proof.
  intros [root Hroot|parent children child Hparent Hcs Hin].
  - left. by apply Node_init_inv in Hroot as (? & _ & ? & _).
  - right. exists parent, children. split_and!; [|done..].
    destruct (create_children_inv _ _ _ Hcs Hin) as [s Hinit].
    by apply Node_init_inv in Hinit as (_ & _ & ? & _).
Qed.

Lemma built_branch (start target : State) (n : Node) :
  Configuration start → square target → built start target n →
  (Node_state <$> Node_branch n) !! 0%nat = Some start
  ∧ ∀ i a b, Node_branch n !! i = Some a → Node_branch n !! S i = Some b →
      Node_parent b = Some a ∧ slide (Node_state a) (Node_state b).
Proof.
  intros Hstart Htq Hn.
  induction Hn as [root Hroot|parent children child Hparent IH Hcs Hin].
  - apply Node_init_inv in Hroot as (Hs & _ & Hp & _).
    rewrite (Node_branch_root _ Hp). simpl. split; [by rewrite Hs|].
    by intros [|i] a b.
  - destruct IH as [Hhead Hlinks].
    destruct (create_children_inv _ _ _ Hcs Hin) as [s Hinit].
    apply Node_init_inv in Hinit as (_ & _ & Hp & _).
    rewrite (Node_branch_child _ _ Hp).
    pose proof (length_Node_branch parent) as Hlen. split.
    + rewrite fmap_app, lookup_app_l; [done|]. rewrite length_fmap. lia.
    + intros i a b Ha Hb.
      destruct (decide (S i < length (Node_branch parent))%nat) as [Hlt|Hge].
      * rewrite lookup_app_l in Ha, Hb by lia. by eapply Hlinks.
      * apply lookup_lt_Some in Hb as Hi. rewrite length_app in Hi. simpl in Hi.
        assert (S i = length (Node_branch parent)) as Hi' by lia.
        rewrite lookup_app_r in Hb by lia.
        rewrite Hi', Nat.sub_diag in Hb. injection Hb as <-.
        rewrite lookup_app_l in Ha by lia.
        pose proof (last_Node_branch parent) as Hlast.
        rewrite last_lookup in Hlast.
        replace (Init.Nat.pred (length (Node_branch parent))) with i in Hlast by lia.
        rewrite Hlast in Ha. injection Ha as <-. split; [done|].
        pose proof (built_valid _ _ _ Hstart Htq Hparent) as [Hcfg _].
        pose proof (built_facts _ _ _ Hparent) as (Ht & _).
        destruct (create_children_Configuration parent Hcfg) as (p & Hpe & Hcs');
          [by rewrite Ht|].
        rewrite Hcs' in Hcs. injection Hcs as <-.
        apply (slide_child_at parent p); [done..|]. eauto.
Qed.

(** When [go] returns a step count, what it has printed is a path: one
    board more than the count, the start first, each further board one
    move away from the one before it, and the last one a board that passes
    the goal test. *)
Theorem go_prints_a_path (start target : State) (fuel : nat)
  (printed : list string) (value : Z) :
  Configuration start → square target →
  go fuel start target = Some (Return printed value) → value ≠ -1 →
  ∃ goal,
    printed = printed_board <$> Node_branch goal
    ∧ length printed = S (Z.to_nat value)
    ∧ (Node_state <$> Node_branch goal) !! 0%nat = Some start
    ∧ last (Node_branch goal) = Some goal
    ∧ matches_target (Node_state goal) target
    ∧ ∀ i a b, Node_branch goal !! i = Some a →
               Node_branch goal !! S i = Some b →
               Node_parent b = Some a ∧ slide (Node_state a) (Node_state b).
Proof.
  intros Hstart Htq Hgo Hvalue. unfold go in Hgo.
  destruct (Node_init start target None) as [root|] eqn:Hroot; [|done].
  apply (go_loop_Return start target) in Hgo
    as [[? _]|(goal & Hb & Ht & -> & Hg & ->)]; [done| |].
  - exists goal. destruct (built_branch _ _ _ Hstart Htq Hb) as [Hhead Hlinks].
    pose proof (built_valid _ _ _ Hstart Htq Hb) as [Hcfg _].
    pose proof (built_facts _ _ _ Hb) as (_ & Hh & _).
    rewrite Node_get_h_count in Hh by (done || apply Hcfg).
    injection Hh as Hh.
    split_and!; [apply Node_print_branch_branch| |done|apply last_Node_branch| |done].
    + rewrite Node_print_branch_branch, length_fmap, length_Node_branch, Hg.
      by rewrite Nat2Z.id.
    + apply misplaced_count_0. apply Z.eqb_eq in Ht. lia.
  - intros n ->%list_elem_of_singleton. by constructor.
Qed.

Lemma go_prints_a_path_witness :
  ∃ goal,
    [printed_board (mkNode DEBUG_START_STATE one_move_away None 0 1 1);
     printed_board
       (mkNode one_move_away one_move_away
          (Some (mkNode DEBUG_START_STATE one_move_away None 0 1 1)) 1 0 1)]
    = printed_board <$> Node_branch goal
    ∧ length
        [printed_board (mkNode DEBUG_START_STATE one_move_away None 0 1 1);
         printed_board
           (mkNode one_move_away one_move_away
              (Some (mkNode DEBUG_START_STATE one_move_away None 0 1 1)) 1 0 1)]
      = S (Z.to_nat 1)
    ∧ (Node_state <$> Node_branch goal) !! 0%nat = Some DEBUG_START_STATE
    ∧ last (Node_branch goal) = Some goal
    ∧ matches_target (Node_state goal) one_move_away
    ∧ ∀ i a b, Node_branch goal !! i = Some a →
               Node_branch goal !! S i = Some b →
               Node_parent b = Some a ∧ slide (Node_state a) (Node_state b).
Proof.
  apply (go_prints_a_path DEBUG_START_STATE one_move_away 2).
  - exact Configuration_DEBUG_START_STATE.
  - exact (cfg_square _ Configuration_one_move_away).
  - vm_compute. reflexivity.
  - lia.
Defined.

(** ** [HistoryMap] *)

Lemma HistoryMap_add_all_lookup (nodes : list Node) (self : gmap string Node)
  (k : string) (n : Node) :
  HistoryMap_add_all nodes self !! k = Some n ↔
  (∃ before after, nodes = before ++ n :: after ∧ Node_repr n = k
                   ∧ ∀ n', n' ∈ after → Node_repr n' ≠ k)
  ∨ (self !! k = Some n ∧ ∀ n', n' ∈ nodes → Node_repr n' ≠ k).
Proof.
  unfold HistoryMap_add_all. revert self.
  induction nodes as [|m nodes IH]; intros self; simpl.
  - split.
    + intros H. right. split; [done|]. by intros n' ?%elem_of_nil.
    + intros [(before & after & Hnil & _)|[H _]]; [by destruct before|done].
  - rewrite IH. unfold HistoryMap_add. split.
    + intros [(before & after & -> & Hk & Hafter)|[Hlook Hnone]].
      * left. by exists (m :: before), after.
      * apply lookup_insert_Some in Hlook as [[<- <-]|[Hne Hlook]].
        -- left. by exists [], nodes.
        -- right. split; [done|]. intros n' [->|Hin]%elem_of_cons; auto.
    + intros [(before & after & Heq & Hk & Hafter)|[Hlook Hnone]].
      * destruct before as [|m' before]; simplify_eq/=.
        -- right. split; [by rewrite lookup_insert_eq|done].
        -- left. by exists before, after.
      * right. split.
        -- rewrite lookup_insert_ne; [done|]. apply Hnone. left.
        -- intros n' Hin. apply Hnone. by right.
Qed.

(** After any sequence of [add]s to a new history, [contains] answers by
    key: it is true of a node exactly when some added node has the same
    key, whatever the parents and costs of the two; the node kept under a
    key is the one added last; and the history holds at most one entry for
    each node added. *)
Theorem history_contains_by_key (nodes : list Node) :
  let history := HistoryMap_add_all nodes HistoryMap_init in
  (∀ node, HistoryMap_contains node history = true ↔
           ∃ n, n ∈ nodes ∧ Node_repr n = Node_repr node)
  ∧ (∀ k n, history !! k = Some n ↔
            ∃ before after, nodes = before ++ n :: after ∧ Node_repr n = k
                            ∧ ∀ n', n' ∈ after → Node_repr n' ≠ k)
  ∧ (size history ≤ length nodes)%nat.
Proof.
  intros history.
  assert (∀ k n, history !! k = Some n ↔
            ∃ before after, nodes = before ++ n :: after ∧ Node_repr n = k
                            ∧ ∀ n', n' ∈ after → Node_repr n' ≠ k) as Hlook.
  { intros k n. unfold history. rewrite HistoryMap_add_all_lookup.
    unfold HistoryMap_init. rewrite lookup_empty. split; [|by left].
    by intros [?|[? _]]. }
  split_and!; [|done|].
  - intros node. unfold HistoryMap_contains. rewrite bool_decide_eq_true. split.
    + intros [n Hn]. apply Hlook in Hn as (before & after & -> & Hk & _).
      exists n. split; [|done]. apply elem_of_app. right. left.
    + intros (n & Hin & Hk).
      assert (∀ l self, (∃ n, n ∈ l ∧ Node_repr n = Node_repr node) →
                is_Some (HistoryMap_add_all l self !! Node_repr node)) as Hsome.
      { clear. unfold HistoryMap_add_all.
        intros l. induction l as [|m l IH] using rev_ind; intros self (n & Hin & Hk).
        - by apply elem_of_nil in Hin.
        - rewrite foldl_app. simpl. unfold HistoryMap_add at 1.
          apply lookup_insert_is_Some'.
          apply elem_of_app in Hin as [Hin| ->%list_elem_of_singleton]; [|by left].
          right. apply IH. eauto. }
      apply Hsome. eauto.
  - unfold history, HistoryMap_add_all, HistoryMap_init.
    assert (∀ l (self : gmap string Node),
              (size (foldl (λ history node, HistoryMap_add node history) self l)
               ≤ size self + length l)%nat) as Hsize.
    { intros l. induction l as [|m l IH]; intros self; simpl; [lia|].
      etransitivity; [apply IH|]. unfold HistoryMap_add.
      pose proof (map_size_insert (Node_repr m) m self) as Hins.
      destruct (self !! Node_repr m); unfold id in Hins; lia. }
    specialize (Hsize nodes ∅). by rewrite map_size_empty in Hsize.
Qed.

Lemma history_contains_by_key_witness :
  let root := mkNode DEBUG_START_STATE DEBUG_TARGET_STATE None 0 5 5 in
  let again := mkNode DEBUG_START_STATE DEBUG_TARGET_STATE (Some root) 2 5 7 in
  HistoryMap_contains again (HistoryMap_add_all [root] HistoryMap_init) = true.
Proof.
  intros root again.
  apply (proj1 (history_contains_by_key [root])).
  exists root. split; [left|reflexivity].
Defined.

(** ** [CandidateQueue] *)

Section SortStable.
Context {A : Type} (key : A → Z).

(** The elements of one key are left in the order they were in. *)
Lemma sort_insert_filter (k : Z) (x : A) (l : list A) :
  filter (λ y, key y = k) (sort_insert (λ a b, key a <? key b) x l)
  = filter (λ y, key y = k) (x :: l).
Proof.
  induction l as [|y l IH]; simpl; [done|].
  destruct (Z.ltb_spec (key y) (key x)) as [Hlt|Hge]; [|done].
  rewrite filter_cons, IH, !filter_cons.
  destruct (decide (key y = k)), (decide (key x = k)); (done || lia).
Qed.

Lemma list_sort_filter (k : Z) (l : list A) :
  filter (λ y, key y = k) (list_sort (λ a b, key a <? key b) l)
  = filter (λ y, key y = k) l.
Proof.
  induction l as [|x l IH]; simpl; [done|].
  by rewrite sort_insert_filter, !filter_cons, IH.
Qed.
End SortStable.

(** Whatever list the queue holds, [push] leaves it with exactly the old
    nodes and the pushed ones, in ascending order of [f], the nodes of one
    [f] in the order they had (old before pushed); a [pop] that follows
    returns a node of the least [f]. *)
Theorem push_sorts_the_queue (node : Node + list Node) (self : CandidateQueue) :
  let queue := CandidateQueue_push node self in
  queue ≡ₚ self ++ pushed_nodes node
  ∧ StronglySorted (λ x y, Node_f x ≤ Node_f y) queue
  ∧ (∀ k, filter (λ n, Node_f n = k) queue
          = filter (λ n, Node_f n = k) (self ++ pushed_nodes node))
  ∧ (∀ x rest, CandidateQueue_pop queue = Ok (x, rest) →
       ∀ y, y ∈ queue → Node_f x ≤ Node_f y).
Proof.
  intros queue.
  assert (queue = list_sort Node_lt (self ++ pushed_nodes node)) as Hq
    by (by destruct node).
  assert (StronglySorted (λ x y, Node_f x ≤ Node_f y) queue) as Hsorted
    by (rewrite Hq; apply (list_sort_sorted Node_f)).
  split_and!; [|done| |].
  - rewrite Hq. apply (list_sort_perm Node_f).
  - intros k. rewrite Hq. apply (list_sort_filter Node_f).
  - intros x rest Hpop y Hy. destruct queue as [|x' rest']; [done|].
    simpl in Hpop. injection Hpop as -> ->.
    apply StronglySorted_cons in Hsorted as [Hmin _].
    apply elem_of_cons in Hy as [ -> | Hy]; [lia|].
    by apply (proj1 (Forall_forall _ _) Hmin).
Qed.

Lemma CandidateQueue_run_popped (ops : list queue_op) (self : CandidateQueue) :
  CandidateQueue_popped ops self ++ CandidateQueue_run ops self
  ≡ₚ self ++ CandidateQueue_pushed ops.
Proof.
  revert self. induction ops as [|[node|] ops IH]; intros self; simpl.
  - by rewrite app_nil_r.
  - rewrite IH, app_assoc. apply Permutation_app_tail.
    unfold CandidateQueue_push, queue_push.
    rewrite (list_sort_perm Node_f). by destruct node.
  - destruct self as [|x rest]; simpl; [apply IH|].
    by rewrite IH.
Qed.

(** Through any sequence of [push] and [pop] operations, on a queue
    created with any list, no node is lost and none is made up: the nodes
    popped together with the nodes left are the nodes the queue started
    with together with the nodes pushed. A [pop] raises [IndexError]
    exactly when [is_empty] is true, and it then leaves the queue as it
    is. *)
Theorem queue_keeps_its_nodes (ops : list queue_op) (self : CandidateQueue) :
  CandidateQueue_popped ops self ++ CandidateQueue_run ops self
  ≡ₚ self ++ CandidateQueue_pushed ops
  ∧ (CandidateQueue_is_empty (CandidateQueue_run ops self) = true ↔
     CandidateQueue_pop (CandidateQueue_run ops self) = Raise IndexError)
  ∧ (CandidateQueue_is_empty (CandidateQueue_run ops self) = true →
     CandidateQueue_run (ops ++ [Pop]) self = CandidateQueue_run ops self
     ∧ CandidateQueue_popped (ops ++ [Pop]) self
       = CandidateQueue_popped ops self).
Proof.
  split_and!.
  - apply CandidateQueue_run_popped.
  - by destruct (CandidateQueue_run ops self).
  - revert self. induction ops as [|[node|] ops IH]; intros self; simpl.
    + by destruct self.
    + apply IH.
    + destruct self as [|x rest]; simpl; intros He;
        destruct (IH _ He) as [Hrun Hpopped]; split; congruence.
Qed.

Lemma queue_keeps_its_nodes_witness :
  let low := mkNode DEBUG_START_STATE DEBUG_TARGET_STATE None 0 5 5 in
  CandidateQueue_run ([Push (inl low); Pop] ++ [Pop]) []
  = CandidateQueue_run [Push (inl low); Pop] []
  ∧ CandidateQueue_popped ([Push (inl low); Pop] ++ [Pop]) []
    = CandidateQueue_popped [Push (inl low); Pop] [].
Proof.
  intros low.
  apply (queue_keeps_its_nodes [Push (inl low); Pop] []). reflexivity.
Defined.

(** ** The order of the nodes *)

(** [__lt__] compares the [f] of two nodes and [__gt__] is its converse.
    [__lt__] is a strict weak order: no node is below itself, the relation
    is transitive, and two nodes neither of which is below the other have
    the same [f], whatever their boards. *)
Theorem Node_lt_strict_weak_order :
  (∀ a b, Node_lt a b = true ↔ Node_f a < Node_f b)
  ∧ (∀ a b, Node_gt a b = Node_lt b a)
  ∧ (∀ a, Node_lt a a = false)
  ∧ (∀ a b c, Node_lt a b = true → Node_lt b c = true → Node_lt a c = true)
  ∧ (∀ a b, Node_lt a b = false ∧ Node_lt b a = false ↔ Node_f a = Node_f b).
Proof.
  unfold Node_lt, Node_gt. split_and!.
  - intros a b. apply Z.ltb_lt.
  - intros a b. apply Z.gtb_ltb.
  - intros a. apply Z.ltb_irrefl.
  - intros a b c. rewrite !Z.ltb_lt. lia.
  - intros a b. rewrite !Z.ltb_ge. lia.
Qed.

(** ** Positions outside the board *)

Lemma norm_index_wrap (len : nat) (i : Z) :
  - Z.of_nat len ≤ i < Z.of_nat len →
  norm_index len i = Ok (Z.to_nat (i mod Z.of_nat len)).
Proof.
  intros Hi. unfold norm_index.
  destruct (Z.ltb_spec i 0) as [Hneg|Hpos].
  - destruct (Z.leb_spec 0 (i + Z.of_nat len)); [|lia].
    destruct (Z.ltb_spec (i + Z.of_nat len) (Z.of_nat len)); [|lia].
    simpl. do 2 f_equal.
    rewrite <- (Z.mod_small (i + Z.of_nat len) (Z.of_nat len)) at 1 by lia.
    rewrite <- (Z.mul_1_l (Z.of_nat len)) at 1. by rewrite Z.mod_add by lia.
  - destruct (Z.leb_spec 0 i); [|lia].
    destruct (Z.ltb_spec i (Z.of_nat len)); [|lia].
    simpl. by rewrite Z.mod_small by lia.
Qed.

Lemma norm_index_outside (len : nat) (i : Z) :
  i < - Z.of_nat len ∨ Z.of_nat len ≤ i → norm_index len i = Raise IndexError.
Proof.
  intros Hi. unfold norm_index.
  destruct (Z.ltb_spec i 0) as [Hneg|Hpos].
  - destruct (Z.leb_spec 0 (i + Z.of_nat len)); [lia|done].
  - destruct (Z.leb_spec 0 i); [|lia].
    destruct (Z.ltb_spec i (Z.of_nat len)); [lia|done].
Qed.

Lemma square_lines (s : State) (r : Z) (line : list string) :
  square s → getitem s r = Ok line → length line = 3%nat.
Proof.
  intros [_ Hrows]. unfold getitem.
  destruct (norm_index _ r) as [k|]; simpl; [|done].
  destruct (s !! k) as [l|] eqn:Hk; [|done]. intros [= <-].
  eapply (proj1 (Forall_forall _ _) Hrows). by eapply list_elem_of_lookup_2.
Qed.

Lemma getitem_wrap {A} (l : list A) (i : Z) :
  - Z.of_nat (length l) ≤ i < Z.of_nat (length l) →
  getitem l i = getitem l (i mod Z.of_nat (length l)).
Proof.
  intros Hi. unfold getitem. rewrite norm_index_wrap by done.
  rewrite (norm_index_wrap _ (i mod _)).
  - by rewrite Z.mod_mod by lia.
  - pose proof (Z.mod_pos_bound i (Z.of_nat (length l))). lia.
Qed.

Lemma setitem_wrap {A} (l : list A) (i : Z) (x : A) :
  - Z.of_nat (length l) ≤ i < Z.of_nat (length l) →
  setitem l i x = setitem l (i mod Z.of_nat (length l)) x.
Proof.
  intros Hi. unfold setitem. rewrite norm_index_wrap by done.
  rewrite (norm_index_wrap _ (i mod _)).
  - by rewrite Z.mod_mod by lia.
  - pose proof (Z.mod_pos_bound i (Z.of_nat (length l))). lia.
Qed.

Lemma getitem2_wrap (s : State) (p : Point) :
  square s →
  - DIMENSION ≤ p.1 < DIMENSION → - DIMENSION ≤ p.2 < DIMENSION →
  getitem2 s p = getitem2 s (p.1 mod DIMENSION, p.2 mod DIMENSION).
Proof.
  intros Hs Hr Hc. pose proof Hs as [Hlen _]. unfold getitem2. simpl.
  change DIMENSION with 3 in *. change (Z.to_nat 3) with 3%nat in Hlen.
  rewrite (getitem_wrap s p.1) by (rewrite Hlen; lia). rewrite Hlen.
  change (Z.of_nat 3) with 3.
  destruct (getitem s (p.1 mod 3)) as [line|] eqn:Hline; simpl; [|done].
  pose proof (square_lines _ _ _ Hs Hline) as Hl.
  rewrite (getitem_wrap line p.2) by (rewrite Hl; lia). by rewrite Hl.
Qed.

Lemma setitem2_wrap (s : State) (p : Point) (x : string) :
  square s →
  - DIMENSION ≤ p.1 < DIMENSION → - DIMENSION ≤ p.2 < DIMENSION →
  setitem2 s p x = setitem2 s (p.1 mod DIMENSION, p.2 mod DIMENSION) x.
Proof.
  intros Hs Hr Hc. pose proof Hs as [Hlen _]. unfold setitem2. simpl.
  change DIMENSION with 3 in *. change (Z.to_nat 3) with 3%nat in Hlen.
  rewrite (getitem_wrap s p.1) by (rewrite Hlen; lia). rewrite Hlen.
  change (Z.of_nat 3) with 3.
  destruct (getitem s (p.1 mod 3)) as [line|] eqn:Hline; simpl; [|done].
  pose proof (square_lines _ _ _ Hs Hline) as Hl.
  rewrite (setitem_wrap line p.2) by (rewrite Hl; lia). rewrite Hl.
  change (Z.of_nat 3) with 3.
  destruct (setitem line (p.2 mod 3) x) as [line'|]; simpl; [|done].
  rewrite (setitem_wrap s p.1) by (rewrite Hlen; lia). by rewrite Hlen.
Qed.

Lemma getitem2_outside (s : State) (p : Point) :
  square s →
  p.1 < - DIMENSION ∨ DIMENSION ≤ p.1 ∨ p.2 < - DIMENSION ∨ DIMENSION ≤ p.2 →
  getitem2 s p = Raise IndexError.
Proof.
  intros Hs Hout. pose proof Hs as [Hlen _]. unfold getitem2.
  change DIMENSION with 3 in *. change (Z.to_nat 3) with 3%nat in Hlen.
  destruct (getitem s p.1) as [line|e] eqn:Hline; simpl.
  - pose proof (square_lines _ _ _ Hs Hline) as Hl.
    unfold getitem in *. rewrite Hl.
    destruct (decide (p.1 < -3 ∨ 3 ≤ p.1)) as [Hr|Hr].
    + rewrite Hlen, norm_index_outside in Hline by lia. done.
    + by rewrite norm_index_outside by lia.
  - by apply getitem_Raise in Hline as ->.
Qed.

(** [__get_next_state] does not check the positions it is given: on a
    square board a coordinate below [-DIMENSION] or from [DIMENSION] on
    raises [IndexError], and a negative coordinate in between counts from
    the end of the board, so that such a position exchanges the same cells
    as the position it stands for. *)
Theorem get_next_state_unchecked_positions (state : State)
  (current_empty next_empty : Point) :
  square state → within_board current_empty →
  (next_empty.1 < - DIMENSION ∨ DIMENSION ≤ next_empty.1
   ∨ next_empty.2 < - DIMENSION ∨ DIMENSION ≤ next_empty.2 →
   get_next_state state current_empty next_empty = Raise IndexError)
  ∧ (- DIMENSION ≤ next_empty.1 < DIMENSION →
     - DIMENSION ≤ next_empty.2 < DIMENSION →
     get_next_state state current_empty next_empty
     = get_next_state state current_empty
         (next_empty.1 mod DIMENSION, next_empty.2 mod DIMENSION)
     ∧ ∃ next_state,
         get_next_state state current_empty next_empty = Ok next_state).
Proof.
  intros Hs Hcur.
  destruct (cell_within state (nat_of_point current_empty) Hs) as [a Ha];
    [by rewrite point_of_nat_of_point|].
  apply getitem2_cell in Ha.
  rewrite <- (surjective_pairing (nat_of_point current_empty)),
    point_of_nat_of_point in Ha by done.
  split.
  - intros Hout. unfold get_next_state. rewrite Ha. simpl.
    by rewrite getitem2_outside.
  - intros Hr Hc.
    assert (get_next_state state current_empty next_empty
            = get_next_state state current_empty
                (next_empty.1 mod DIMENSION, next_empty.2 mod DIMENSION)) as Heq.
    { unfold get_next_state. rewrite Ha. simpl.
      rewrite (getitem2_wrap state next_empty) by done.
      destruct (getitem2 state _) as [b|]; simpl; [|done].
      by rewrite (setitem2_wrap state next_empty) by done. }
    split; [done|]. rewrite Heq.
    assert (within_board (next_empty.1 mod DIMENSION, next_empty.2 mod DIMENSION))
      as Hnext.
    { unfold within_board. simpl. change DIMENSION with 3.
      pose proof (Z.mod_pos_bound next_empty.1 3).
      pose proof (Z.mod_pos_bound next_empty.2 3). lia. }
    rewrite <- (point_of_nat_of_point _ Hnext),
      <- (point_of_nat_of_point _ Hcur).
    rewrite get_next_state_swap; [by eexists|..];
      apply cell_within; [done| |done|]; by rewrite point_of_nat_of_point.
Qed.

Lemma get_next_state_unchecked_positions_witness :
  get_next_state DEBUG_START_STATE (1, 0) (-1, 0)
  = get_next_state DEBUG_START_STATE (1, 0) (-1 mod DIMENSION, 0 mod DIMENSION)
  ∧ ∃ next_state,
      get_next_state DEBUG_START_STATE (1, 0) (-1, 0) = Ok next_state.
Proof.
  apply (get_next_state_unchecked_positions DEBUG_START_STATE (1, 0) (-1, 0)).
  - exact (cfg_square _ Configuration_DEBUG_START_STATE).
  - unfold within_board, DIMENSION. simpl. lia.
  - unfold DIMENSION. simpl. lia.
  - unfold DIMENSION. simpl. lia.
Defined.

(** ** The order in which candidates are popped *)

Lemma create_children_f_mono (start target : State) (parent child : Node)
  (children : list Node) :
  Configuration start → square target →
  built start target parent →
  Node_create_children parent = Ok children → child ∈ children →
  Node_f parent ≤ Node_f child.
Proof.
  intros Hstart Htq Hb Hcs Hin.
  pose proof (built_valid _ _ _ Hstart Htq Hb) as [Hcfg _].
  pose proof (built_facts _ _ _ Hb) as (Ht & Hh & Hf & _).
  rewrite Node_get_h_count in Hh by (done || apply Hcfg).
  injection Hh as Hh.
  destruct (create_children_Configuration parent Hcfg) as (p & Hp & Hcs');
    [by rewrite Ht|].
  rewrite Hcs' in Hcs. injection Hcs as <-.
  assert (slide (Node_state parent) (Node_state child)) as Hslide
    by (apply (slide_child_at parent p _ Hcfg Hp); eauto).
  apply (misplaced_count_slide _ _ target (cfg_square _ Hcfg)) in Hslide.
  apply list_elem_of_fmap in Hin as (next & -> & _).
  unfold child_at in *. simpl in *. rewrite Ht. lia.
Qed.

Lemma go_popped_sorted (start target : State) (fuel : nat) :
  Configuration start → square target →
  ∀ (candidates : CandidateQueue) (history : gmap string Node),
    (∀ n, n ∈ candidates → built start target n) →
    StronglySorted (λ a b, Node_f a ≤ Node_f b) candidates →
    StronglySorted (λ a b, Node_f a ≤ Node_f b)
      (go_popped fuel candidates history)
    ∧ ∀ bound, (∀ n, n ∈ candidates → bound ≤ Node_f n) →
               Forall (λ n, bound ≤ Node_f n) (go_popped fuel candidates history).
Proof.
  intros Hstart Htq.
  induction fuel as [|fuel IH]; intros candidates history Hb Hsorted; simpl.
  { split; [constructor|]. intros; constructor. }
  destruct candidates as [|x rest]; simpl.
  { split; [constructor|]. intros; constructor. }
  destruct (go_step (x :: rest) history) as [o|candidates' history'] eqn:Hstep.
  { simpl. split.
    - repeat constructor.
    - intros bound Hbound. repeat constructor. apply Hbound. left. }
  pose proof (go_step_built _ _ _ _ _ _ Hb Hstep) as Hb'.
  apply go_step_Continue in Hstep as (x' & rest' & Heq & Hnt & Hcases).
  injection Heq as <- <-.
  assert (StronglySorted (λ a b, Node_f a ≤ Node_f b) candidates'
          ∧ ∀ n, n ∈ candidates' → Node_f x ≤ Node_f n) as [Hsorted' Hmin].
  { destruct Hcases as [(_ & -> & _)|(_ & children & Hcs & -> & _)].
    - split; [by apply StronglySorted_cons in Hsorted as [_ ?]|].
      intros n Hn. apply (head_minimal _ _ rest Hsorted). by right.
    - split; [apply list_sort_sorted|].
      intros n [Hn|Hn]%elem_of_CandidateQueue_push.
      + apply (head_minimal _ _ rest Hsorted). by right.
      + apply (create_children_f_mono start target x n children);
          [done|done|apply Hb; left|done|done]. }
  destruct (IH candidates' history' Hb' Hsorted') as [Hs Hbound]. split.
  - constructor; [done|]. by apply Hbound.
  - intros bound Hall. constructor; [apply Hall; left|].
    apply Hbound. intros n Hn. specialize (Hmin n Hn).
    specialize (Hall x ltac:(left)). lia.
Qed.

(** The candidates leave the queue by non-decreasing [f]: a child never has
    a smaller [f] than the node it was made from, so that a node popped
    later never has a smaller [f] than one popped before it, and none has
    a smaller [f] than the start node. *)
Theorem go_pops_by_rising_f (start target : State) (root : Node) (fuel : nat) :
  Configuration start → square target →
  Node_init start target None = Ok root →
  StronglySorted (λ a b, Node_f a ≤ Node_f b)
    (go_popped fuel (CandidateQueue_init [root]) HistoryMap_init)
  ∧ Forall (λ n, Node_f root ≤ Node_f n)
      (go_popped fuel (CandidateQueue_init [root]) HistoryMap_init)
  ∧ ∀ parent children child,
      built start target parent →
      Node_create_children parent = Ok children → child ∈ children →
      Node_f parent ≤ Node_f child.
Proof.
  intros Hstart Htq Hroot.
  destruct (go_popped_sorted start target fuel Hstart Htq
              (CandidateQueue_init [root]) HistoryMap_init) as [Hs Hbound].
  - intros n ->%list_elem_of_singleton. by constructor.
  - repeat constructor.
  - split_and!; [done| |].
    + apply Hbound. by intros n ->%list_elem_of_singleton.
    + intros parent children child. by apply create_children_f_mono.
Qed.

Lemma go_pops_by_rising_f_witness :
  StronglySorted (λ a b, Node_f a ≤ Node_f b)
    (go_popped 6 (CandidateQueue_init
                    [mkNode DEBUG_START_STATE one_move_away None 0 1 1])
       HistoryMap_init).
Proof.
  apply (go_pops_by_rising_f DEBUG_START_STATE one_move_away
           (mkNode DEBUG_START_STATE one_move_away None 0 1 1) 6).
  - exact Configuration_DEBUG_START_STATE.
  - exact (cfg_square _ Configuration_one_move_away).
  - reflexivity.
Defined.

(** ** [read_state] *)

Lemma read_rows_spec (n : nat) (io : console) :
  read_rows n io
  = if decide (n ≤ length (stdin io))%nat
    then (Some (read_row <$> take n (stdin io)),
          mkConsole (drop n (stdin io)) (stdout io ++ replicate n ">>> "%string))
    else (None,
          mkConsole [] (stdout io
                        ++ replicate (S (length (stdin io))) ">>> "%string)).
Proof.
  revert io. induction n as [|n IH]; intros [lines out]; simpl.
  { by rewrite app_nil_r. }
  destruct lines as [|line lines]; simpl; [done|].
  rewrite IH. simpl. rewrite <- !app_assoc. simpl.
  destruct (decide (n ≤ length lines)%nat).
  - by rewrite decide_True by lia.
  - by rewrite decide_False by lia.
Qed.

Lemma length_list_of_str (text : string) :
  length (list_of_str text) = String.length text.
Proof. induction text as [|c text IH]; simpl; [done|]. by rewrite IH. Qed.

Lemma list_of_str_labels (line : string) :
  Forall (λ tile, String.length tile = 1%nat ∧ tile ≠ " "%string)
    (list_of_str (remove_spaces line)).
Proof.
  induction line as [|c line IH]; simpl; [constructor|].
  destruct (Ascii.eqb_spec c blank) as [->|Hc]; [done|].
  simpl. constructor; [|done]. split; [done|]. intros [= ->]. done.
Qed.

Lemma length_read_row (line : string) :
  length (read_row line)
  = (Z.to_nat DIMENSION `min` String.length (remove_spaces line))%nat.
Proof. unfold read_row. by rewrite length_take, length_list_of_str. Qed.

Lemma remove_spaces_app (x y : string) :
  remove_spaces (x +:+ y) = (remove_spaces x +:+ remove_spaces y)%string.
Proof.
  induction x as [|c x IH]; [done|]. rewrite String_app_cons. simpl.
  rewrite IH. by destruct (Ascii.eqb c blank).
Qed.

Lemma list_of_str_app (x y : string) :
  list_of_str (x +:+ y) = list_of_str x ++ list_of_str y.
Proof.
  induction x as [|c x IH]; [done|]. rewrite String_app_cons. simpl.
  by rewrite IH.
Qed.

Lemma list_of_str_concat (sep : string) (l : list string) :
  remove_spaces sep = ""%string →
  list_of_str (remove_spaces (String.concat sep l))
  = l ≫= (λ tile, list_of_str (remove_spaces tile)).
Proof.
  intros Hsep. induction l as [|x l IH]; [done|].
  destruct l as [|y l].
  { simpl. by rewrite app_nil_r. }
  change (String.concat sep (x :: y :: l))
    with (x +:+ sep +:+ String.concat sep (y :: l))%string.
  rewrite !remove_spaces_app, Hsep, !list_of_str_app, IH. done.
Qed.

Lemma list_of_str_label (tile : string) :
  String.length tile = 1%nat → tile ≠ " "%string →
  list_of_str (remove_spaces tile) = [tile].
Proof.
  destruct tile as [|c [|c' tile]]; [done| |done]. intros _ Hc. simpl.
  destruct (Ascii.eqb_spec c blank) as [->|]; done.
Qed.

Lemma read_row_concat (sep : string) (row : list string) :
  remove_spaces sep = ""%string →
  length row = Z.to_nat DIMENSION →
  Forall (λ tile, String.length tile = 1%nat ∧ tile ≠ " "%string) row →
  read_row (String.concat sep row) = row.
Proof.
  intros Hsep Hlen Hrow. unfold read_row. rewrite list_of_str_concat by done.
  rewrite <- Hlen. clear Hlen.
  assert (row ≫= (λ tile, list_of_str (remove_spaces tile)) = row) as ->.
  { induction Hrow as [|tile row [Hone Hblank] _ IH]; [done|].
    change ((tile :: row) ≫= (λ tile, list_of_str (remove_spaces tile)))
      with (list_of_str (remove_spaces tile)
            ++ (row ≫= (λ tile, list_of_str (remove_spaces tile)))).
    by rewrite list_of_str_label, IH. }
  by rewrite firstn_all.
Qed.

Lemma read_rows_concat (sep : string) (s : State) :
  remove_spaces sep = ""%string →
  Forall (λ line, length line = Z.to_nat DIMENSION) s →
  Forall (λ tile, String.length tile = 1%nat ∧ tile ≠ " "%string) (concat s) →
  read_row <$> (String.concat sep <$> s) = s.
Proof.
  intros Hsep Hrows Hlabels.
  induction Hrows as [|row s Hrow _ IH]; [done|].
  simpl in Hlabels. apply Forall_app in Hlabels as [Hl Hls].
  rewrite !fmap_cons, read_row_concat by done. by rewrite IH.
Qed.

(** [read_state] writes the prompt and reads a line three times. With
    fewer than three lines left it fails after the last line, without a
    state. Otherwise the state has three rows, row [i] being the first
    [DIMENSION] characters of line [i] that are not blanks: every label is
    one character and none is a blank. Nothing else is checked: the state
    is a square board exactly when each of the three lines has at least
    [DIMENSION] characters that are not blanks. *)
Theorem read_state_three_rows (io : console) :
  ((length (stdin io) < 3)%nat →
   read_state io
   = (None, mkConsole [] (stdout io ++ replicate (S (length (stdin io)))
                                         ">>> "%string)))
  ∧ ((3 ≤ length (stdin io))%nat →
     ∃ state,
       read_state io
       = (Some state,
          mkConsole (drop 3 (stdin io)) (stdout io ++ replicate 3 ">>> "%string))
       ∧ length state = 3%nat
       ∧ (∀ (i : nat) line, (i < 3)%nat → stdin io !! i = Some line →
            ∃ row, state !! i = Some row
                   ∧ row = take 3 (list_of_str (remove_spaces line))
                   ∧ length row
                     = (3 `min` String.length (remove_spaces line))%nat)
       ∧ Forall (λ tile, String.length tile = 1%nat ∧ tile ≠ " "%string)
           (concat state)
       ∧ (square state ↔
          ∀ line, line ∈ take 3 (stdin io) →
                  (3 ≤ String.length (remove_spaces line))%nat)).
Proof.
  unfold read_state. rewrite read_rows_spec.
  change (Z.to_nat DIMENSION) with 3%nat. split.
  - intros Hlt. by rewrite decide_False by lia.
  - intros Hge. rewrite decide_True by lia. eexists. split; [done|].
    split_and!.
    + rewrite length_fmap, length_take. lia.
    + intros i line Hi Hline. eexists. split_and!; [|done|].
      * by rewrite list_lookup_fmap, lookup_take_lt, Hline by done.
      * apply length_read_row.
    + apply Forall_concat, Forall_fmap, Forall_forall. intros line _.
      apply Forall_take, list_of_str_labels.
    + unfold square. change (Z.to_nat DIMENSION) with 3%nat.
      rewrite length_fmap, length_take, Forall_fmap, Forall_forall.
      split.
      * intros [_ Hrows] line Hline. specialize (Hrows line Hline).
        simpl in Hrows. rewrite length_read_row in Hrows.
        change (Z.to_nat DIMENSION) with 3%nat in Hrows. lia.
      * intros Hlines. split; [lia|]. intros line Hline.
        specialize (Hlines line Hline). simpl. rewrite length_read_row.
        change (Z.to_nat DIMENSION) with 3%nat. lia.
Qed.

Lemma read_state_typed (sep : string) (s : State) (rest out : list string) :
  remove_spaces sep = ""%string →
  square s →
  Forall (λ tile, String.length tile = 1%nat ∧ tile ≠ " "%string) (concat s) →
  read_state (mkConsole ((String.concat sep <$> s) ++ rest) out)
  = (Some s, mkConsole rest (out ++ replicate 3 ">>> "%string)).
Proof.
  intros Hsep [Hlen Hrows] Hlabels. unfold read_state.
  change (Z.to_nat DIMENSION) with 3%nat in *.
  rewrite read_rows_spec. simpl.
  rewrite decide_True by (rewrite length_app, length_fmap; lia).
  rewrite take_app_length', drop_app_length' by (by rewrite length_fmap).
  by rewrite read_rows_concat.
Qed.

(** A board of one-character labels, none of them a blank, is read back
    from its rows typed with the labels separated by blanks, and as well
    from its rows typed without separators; the lines after the third are
    left in the input. *)
Theorem read_state_round_trip (s : State) (rest out : list string) :
  square s →
  Forall (λ tile, String.length tile = 1%nat ∧ tile ≠ " "%string) (concat s) →
  read_state (mkConsole ((String.concat " " <$> s) ++ rest) out)
  = (Some s, mkConsole rest (out ++ replicate 3 ">>> "%string))
  ∧ read_state (mkConsole ((String.concat "" <$> s) ++ rest) out)
    = (Some s, mkConsole rest (out ++ replicate 3 ">>> "%string)).
Proof.
  intros Hsq Hlabels. split; by apply read_state_typed.
Qed.

Lemma read_state_round_trip_witness :
  read_state
    (mkConsole ["2 1 3"; "0 8 4"; "6 7 5"; "1 2 3"; "8 0 4"; "7 6 5"]%string [])
  = (Some DEBUG_START_STATE,
     mkConsole ["1 2 3"; "8 0 4"; "7 6 5"]%string
       (replicate 3 ">>> "%string)).
Proof.
  apply (read_state_round_trip DEBUG_START_STATE
           ["1 2 3"; "8 0 4"; "7 6 5"]%string []).
  - exact (cfg_square _ Configuration_DEBUG_START_STATE).
  - simpl. repeat (constructor; [split; [reflexivity|discriminate]|]).
    constructor.
Defined.

(** ** [__str__] and [__repr__] *)

Lemma length_3_inv {A} (l : list A) :
  length l = 3%nat → ∃ a b c, l = [a; b; c].
Proof. destruct l as [|a [|b [|c [|]]]]; try done. eauto. Qed.

Lemma one_character_inv (tile : string) :
  String.length tile = 1%nat → ∃ c, tile = String c "".
Proof. destruct tile as [|c [|]]; try done. eauto. Qed.

Lemma shown_tile (c : Ascii.ascii) :
  (if String.eqb (String c "") EMPTY then " "%string else String c "")
  = String (shown c) "".
Proof.
  unfold shown, EMPTY. cbn [String.eqb].
  change (Ascii.eqb c _) with (Ascii.eqb c zero_digit).
  by destruct (Ascii.eqb c zero_digit).
Qed.

Lemma shown_not_zero (c : Ascii.ascii) : shown c ≠ zero_digit.
Proof.
  unfold shown. destruct (Ascii.eqb_spec c zero_digit) as [->|Hc]; done.
Qed.

Lemma shown_inj (c c' : Ascii.ascii) :
  c ≠ blank → c' ≠ blank → shown c = shown c' → c = c'.
Proof.
  unfold shown. intros Hc Hc'.
  destruct (Ascii.eqb_spec c zero_digit) as [->|],
    (Ascii.eqb_spec c' zero_digit) as [->|]; congruence.
Qed.

Lemma board_of_characters (s : State) :
  square s → Forall (λ tile, String.length tile = 1%nat) (concat s) →
  ∃ a0 a1 a2 b0 b1 b2 c0 c1 c2,
    s = [[String a0 ""; String a1 ""; String a2 ""];
         [String b0 ""; String b1 ""; String b2 ""];
         [String c0 ""; String c1 ""; String c2 ""]].
Proof.
  intros [Hlen Hrows] Hchars.
  apply length_3_inv in Hlen as (ra & rb & rc & ->).
  apply Forall_cons in Hrows as [Ha Hrows].
  apply Forall_cons in Hrows as [Hb Hrows].
  apply Forall_cons in Hrows as [Hc _].
  apply length_3_inv in Ha as (ta0 & ta1 & ta2 & ->).
  apply length_3_inv in Hb as (tb0 & tb1 & tb2 & ->).
  apply length_3_inv in Hc as (tc0 & tc1 & tc2 & ->).
  simpl in Hchars.
  repeat match goal with
         | H : Forall _ (_ :: _) |- _ =>
             apply Forall_cons in H as [(? & ->)%one_character_inv H]
         end.
  by repeat eexists.
Qed.

Lemma Node_str_characters (a0 a1 a2 b0 b1 b2 c0 c1 c2 : Ascii.ascii)
  (target : State) (parent : option Node) (g h f : Z) :
  Node_str
    (mkNode [[String a0 ""; String a1 ""; String a2 ""];
             [String b0 ""; String b1 ""; String b2 ""];
             [String c0 ""; String c1 ""; String c2 ""]] target parent g h f)
  = String (shown a0) (String blank (String (shown a1) (String blank
      (String (shown a2) (newline +:+
    String (shown b0) (String blank (String (shown b1) (String blank
      (String (shown b2) (newline +:+
    String (shown c0) (String blank (String (shown c1) (String blank
      (String (shown c2) ""))))))))))))))%string.
Proof.
  unfold Node_str. cbn [map Node_state]. rewrite !shown_tile. reflexivity.
Qed.

(** On a square board of one-character labels [__str__] gives seventeen
    characters: the label of row [i], column [j] stands at position
    [6 i + 2 j], with a blank in the place of the empty label; the
    positions in between hold a blank, or the line end after the third
    label of a row. The text never contains the character [0]. Two such
    boards without a blank label have the same text only when they are
    equal. *)
Theorem str_shows_the_board (self : Node) :
  square (Node_state self) →
  Forall (λ tile, String.length tile = 1%nat) (concat (Node_state self)) →
  String.length (Node_str self) = 17%nat
  ∧ (∀ (i j : nat) tile,
       cell (Node_state self) i j = Some tile →
       String.get (6 * i + 2 * j) (Node_str self)
       = String.get 0 (if String.eqb tile EMPTY then " "%string else tile))
  ∧ (∀ k : nat, (k < 17)%nat → Nat.odd k = true →
       String.get k (Node_str self)
       = String.get 0 (if (k mod 6 =? 5)%nat then newline else " "%string))
  ∧ (∀ k : nat, String.get k (Node_str self) ≠ String.get 0 EMPTY)
  ∧ (∀ other,
       square (Node_state other) →
       Forall (λ tile, String.length tile = 1%nat) (concat (Node_state other)) →
       " "%string ∉ concat (Node_state self) →
       " "%string ∉ concat (Node_state other) →
       Node_str self = Node_str other → Node_state self = Node_state other).
Proof.
  intros Hsq Hchars.
  assert (∀ (i j : nat) tile,
            cell (Node_state self) i j = Some tile →
            String.get (6 * i + 2 * j) (Node_str self)
            = String.get 0 (if String.eqb tile EMPTY then " "%string else tile))
    as Hcells.
  { destruct (board_of_characters _ Hsq Hchars)
      as (a0 & a1 & a2 & b0 & b1 & b2 & c0 & c1 & c2 & Hs).
    destruct self as [s t p g h f]. simpl in Hs. subst s.
    rewrite Node_str_characters. intros i j tile Hcell.
    destruct i as [|[|[|i]]]; [| | |done];
      (destruct j as [|[|[|j]]]; [| | |done]);
      injection Hcell as <-; rewrite shown_tile; reflexivity. }
  split_and!; [| done | | |].
  - destruct (board_of_characters _ Hsq Hchars)
      as (a0 & a1 & a2 & b0 & b1 & b2 & c0 & c1 & c2 & Hs).
    destruct self as [s t p g h f]. simpl in Hs. subst s.
    by rewrite Node_str_characters.
  - destruct (board_of_characters _ Hsq Hchars)
      as (a0 & a1 & a2 & b0 & b1 & b2 & c0 & c1 & c2 & Hs).
    destruct self as [s t p g h f]. simpl in Hs. subst s.
    rewrite Node_str_characters. intros k Hk Hodd.
    do 17 (destruct k as [|k]; [done || reflexivity|]). lia.
  - destruct (board_of_characters _ Hsq Hchars)
      as (a0 & a1 & a2 & b0 & b1 & b2 & c0 & c1 & c2 & Hs).
    destruct self as [s t p g h f]. simpl in Hs. subst s.
    rewrite Node_str_characters. intros k.
    do 17 (destruct k as [|k];
           [intros [= Hz]; by apply shown_not_zero in Hz|]).
    done.
  - intros other Hsq' Hchars' Hblank Hblank' Heq.
    apply cell_ext; [destruct Hsq, Hsq'; congruence|]. intros i j.
    destruct (decide ((i < Z.to_nat DIMENSION)%nat ∧ (j < Z.to_nat DIMENSION)%nat))
      as [[Hi Hj]|Hout].
    + destruct (square_cell _ i j Hsq Hi Hj) as [tile Htile].
      destruct (square_cell _ i j Hsq' Hi Hj) as [tile' Htile'].
      rewrite Htile, Htile'. f_equal.
      pose proof (Hcells i j tile Htile) as Hget. rewrite Heq in Hget.
      assert (String.get (6 * i + 2 * j) (Node_str other)
              = String.get 0 (if String.eqb tile' EMPTY then " "%string
                              else tile')) as Hget'.
      { destruct (board_of_characters _ Hsq' Hchars')
          as (a0 & a1 & a2 & b0 & b1 & b2 & c0 & c1 & c2 & Hs).
        destruct other as [s t p g h f]. simpl in Hs. subst s.
        rewrite Node_str_characters. clear Heq Hget.
        destruct i as [|[|[|i]]]; [| | |done];
          (destruct j as [|[|[|j]]]; [| | |done]);
          injection Htile' as <-; rewrite shown_tile; reflexivity. }
      rewrite Hget' in Hget.
      assert (tile ∈ concat (Node_state self)) as Hin
        by (apply elem_of_concat_cell; eauto).
      assert (tile' ∈ concat (Node_state other)) as Hin'
        by (apply elem_of_concat_cell; eauto).
      pose proof (proj1 (Forall_forall _ _) Hchars _ Hin) as Hone.
      pose proof (proj1 (Forall_forall _ _) Hchars' _ Hin') as Hone'.
      apply one_character_inv in Hone as [c ->].
      apply one_character_inv in Hone' as [c' ->].
      rewrite !shown_tile in Hget. simpl in Hget. injection Hget as Hget.
      f_equal. symmetry. apply shown_inj; [| |done].
      * intros ->. by apply Hblank.
      * intros ->. by apply Hblank'.
    + rewrite (proj2 (square_cell_None _ i j Hsq) Hout).
      by rewrite (proj2 (square_cell_None _ i j Hsq') Hout).
Qed.

Lemma str_shows_the_board_witness :
  String.length (Node_str (mkNode DEBUG_START_STATE DEBUG_TARGET_STATE None 0 5 5))
  = 17%nat.
Proof.
  apply (str_shows_the_board
           (mkNode DEBUG_START_STATE DEBUG_TARGET_STATE None 0 5 5)).
  - exact (cfg_square _ Configuration_DEBUG_START_STATE).
  - exact (cfg_chars _ Configuration_DEBUG_START_STATE).
Defined.

(** The docstring of [__str__] shows the empty cell as [0]; the code shows
    it as a blank. *)
Example Node_str_docstring_board :
  Node_str (mkNode [["1"; "2"; "3"]; ["4"; "5"; "6"]; ["7"; "8"; "0"]]%string
              DEBUG_TARGET_STATE None 0 0 0)
  = ("1 2 3" +:+ newline +:+ "4 5 6" +:+ newline +:+ "7 8  ")%string.
Proof. reflexivity. Qed.

(** [__repr__], the key of the history map, has nine characters on a
    square board of one-character labels, the label of row [i], column
    [j] at position [3 i + j]; two such boards have the same key only
    when they are equal, so that the history map tells them apart. *)
Theorem repr_identifies_the_board (self : Node) :
  square (Node_state self) →
  Forall (λ tile, String.length tile = 1%nat) (concat (Node_state self)) →
  String.length (Node_repr self) = 9%nat
  ∧ (∀ (i j : nat) tile,
       cell (Node_state self) i j = Some tile →
       String.get (3 * i + j) (Node_repr self) = String.get 0 tile)
  ∧ (∀ other,
       square (Node_state other) →
       Forall (λ tile, String.length tile = 1%nat) (concat (Node_state other)) →
       (Node_repr self = Node_repr other ↔ Node_state self = Node_state other)).
Proof.
  intros Hsq Hchars. split_and!.
  - destruct (board_of_characters _ Hsq Hchars)
      as (a0 & a1 & a2 & b0 & b1 & b2 & c0 & c1 & c2 & Hs).
    unfold Node_repr. by rewrite Hs.
  - destruct (board_of_characters _ Hsq Hchars)
      as (a0 & a1 & a2 & b0 & b1 & b2 & c0 & c1 & c2 & Hs).
    unfold Node_repr. rewrite Hs. intros i j tile Hcell.
    destruct i as [|[|[|i]]]; [| | |done];
      (destruct j as [|[|[|j]]]; [| | |done]);
      by injection Hcell as <-.
  - intros other Hsq' Hchars'. unfold Node_repr. split.
    + by apply repr_of_inj.
    + by intros ->.
Qed.

Lemma repr_identifies_the_board_witness :
  String.length (Node_repr (mkNode DEBUG_START_STATE DEBUG_TARGET_STATE None 0 5 5))
  = 9%nat.
Proof.
  apply (repr_identifies_the_board
           (mkNode DEBUG_START_STATE DEBUG_TARGET_STATE None 0 5 5)).
  - exact (cfg_square _ Configuration_DEBUG_START_STATE).
  - exact (cfg_chars _ Configuration_DEBUG_START_STATE).
Defined.

(** ** The program *)



